(** * The debugger client's payload transforms, and the analysis core it renders

    A shallow embedding of [client/src/lib/api.ts], [client/src/App.tsx],
    [client/src/lib/mockData.ts] and [client/src/lib/types.ts].

    Conventions.
    - A JavaScript string is a [string]: a sequence of code units, here
      restricted to the Latin-1 range (one [ascii] per code unit).
    - A JavaScript number that holds a line number, an execution count or a
      coordinate is a [Z].  [parseInt] returns [option Z], where [None] is
      NaN; the [Z] is the mathematical integer the digits denote (the value
      before it is rounded to a double, exact below 2^53).
    - An optional property [k?: T] of an object that is spread
      ([{...a, ...b}]) is an [optional T]: the key can be missing, present
      with the value [undefined], or present with a value.  Optional
      properties that are only read are an [option T]. *)

From Stdlib Require Import ZArith Ascii String List Permutation Sorted Lia Bool.
From stdpp Require Import base option list strings gmap.

#[local] Open Scope string_scope.
#[local] Open Scope Z_scope.
#[local] Open Scope list_scope.

(** ** JavaScript primitives used by the client *)

Module JS.

(** WhiteSpace and LineTerminator code points below U+0100: TAB, LF, VT,
    FF, CR, SP and NBSP.  [String.prototype.trim] and [parseInt] strip
    exactly these. *)
Definition isWhiteSpace (c : ascii) : bool :=
  let n := nat_of_ascii c in
  ((9 <=? n) && (n <=? 13) || (n =? 32) || (n =? 160))%nat.

Fixpoint trimStart (s : string) : string :=
  match s with
  | String c r => if isWhiteSpace c then trimStart r else s
  | EmptyString => EmptyString
  end.

(** [true] iff the string holds a code unit that is not whitespace. *)
Fixpoint hasNonWhiteSpace (s : string) : bool :=
  match s with
  | String c r => negb (isWhiteSpace c) || hasNonWhiteSpace r
  | EmptyString => false
  end.

Fixpoint trimEnd (s : string) : string :=
  match s with
  | String c r => if hasNonWhiteSpace s then String c (trimEnd r) else EmptyString
  | EmptyString => EmptyString
  end.

Definition trim (s : string) : string := trimEnd (trimStart s).

(** [s.split(sep)] for a separator of one code unit. *)
Fixpoint split (sep : ascii) (s : string) : list string :=
  match s with
  | EmptyString => [EmptyString]
  | String c r =>
      if Ascii.eqb c sep then EmptyString :: split sep r
      else match split sep r with
           | h :: t => String c h :: t
           | [] => [String c EmptyString]
           end
  end.

(** [parts.join(sep)]. *)
Fixpoint join (sep : string) (parts : list string) : string :=
  match parts with
  | [] => EmptyString
  | [p] => p
  | p :: rest => String.append p (String.append sep (join sep rest))
  end.

Definition isDigit (c : ascii) : bool :=
  let n := nat_of_ascii c in ((48 <=? n) && (n <=? 57))%nat.

Definition digitValue (c : ascii) : Z := Z.of_nat (nat_of_ascii c) - 48.

(** The longest prefix of decimal digits, most significant first. *)
Fixpoint digitsPrefix (s : string) : list Z :=
  match s with
  | String c r => if isDigit c then digitValue c :: digitsPrefix r else []
  | EmptyString => []
  end.

Definition digitsToZ (ds : list Z) : Z :=
  fold_left (fun acc d => 10 * acc + d) ds 0.

(** [parseInt(s, 10)]: skip leading whitespace, read an optional sign,
    then the longest run of decimal digits; NaN when that run is empty.
    Radix 10 strips no [0x] prefix. *)
Definition parseInt (s : string) : option Z :=
  let t := trimStart s in
  let '(sign, body) :=
    match t with
    | String "-" r => (-1, r)
    | String "+" r => (1, r)
    | _ => (1, t)
    end in
  match digitsPrefix body with
  | [] => None
  | ds => Some (sign * digitsToZ ds)
  end.

(** [s.includes(c)] for one code unit. *)
Fixpoint includes (c : ascii) (s : string) : bool :=
  match s with
  | String c' r => Ascii.eqb c' c || includes c r
  | EmptyString => false
  end.

(** Truthiness of a string: every string but the empty one. *)
Definition truthy (s : string) : bool :=
  match s with EmptyString => false | _ => true end.

End JS.

(** ** The data model of [types.ts] and of the API wire format *)

(** An optional property of an object literal. *)
Inductive optional (A : Type) : Type :=
| Missing : optional A
| Undefined : optional A
| Defined : A -> optional A.
Arguments Missing {A}.
Arguments Undefined {A}.
Arguments Defined {A} _.

(** Reading the property: a missing key reads as [undefined]. *)
Definition read {A} (p : optional A) : option A :=
  match p with Defined a => Some a | _ => None end.

(** Writing [k: e] in an object literal, where [e] may be [undefined]. *)
Definition written {A} (e : option A) : optional A :=
  match e with Some a => Defined a | None => Undefined end.

(** One key of [{...a, ...b}]: [b]'s entry wins whenever [b] has the key. *)
Definition spreadKey {A} (a b : optional A) : optional A :=
  match b with Missing => a | _ => b end.

Inductive NodeStatus : Type := pending | failed | succeeded.

#[global] Instance NodeStatus_eq_dec : EqDecision NodeStatus.
Proof. solve_decision. Defined.

Module CfgNodeData.
Record t : Type := mk {
  blockId : string;
  blockName : string;
  codeSnippet : string;
  status : NodeStatus;
  file : optional string;
  lineStart : optional Z;
  lineEnd : optional Z;
  executionCount : optional Z
}.

(** [{...a, ...b}] on two [CfgNodeData] objects.  The four required keys
    are present in [b], so [b]'s values win there. *)
Definition spread (a b : t) : t :=
  {| blockId := blockId b;
     blockName := blockName b;
     codeSnippet := codeSnippet b;
     status := status b;
     file := spreadKey (file a) (file b);
     lineStart := spreadKey (lineStart a) (lineStart b);
     lineEnd := spreadKey (lineEnd a) (lineEnd b);
     executionCount := spreadKey (executionCount a) (executionCount b) |}.
End CfgNodeData.

(** React Flow's [Node<CfgNodeData>]: the fields the client sets. *)
Module Node.
Record t : Type := mk {
  id : string;
  type : option string;
  position : Z * Z;
  data : CfgNodeData.t
}.
End Node.

(** React Flow's [Edge]. *)
Module Edge.
Record t : Type := mk {
  id : string;
  source : string;
  target : string;
  type : option string;
  animated : option bool;
  label : option string
}.
End Edge.

Module ApiNode.
Record t : Type := mk {
  id : string;
  code_chunk : string;
  explanation : option string;
  relationships : option string;
  filename : option string;
  line_range : option string
}.
End ApiNode.

Module ApiEdge.
Record t : Type := mk {
  id : string;
  from_node : string;
  to_node : string;
  relationship_type : option string
}.
End ApiEdge.

Module ApiControlFlowResponse.
Record t : Type := mk {
  nodes : list ApiNode.t;
  edges : list ApiEdge.t;
  task_description : option string
}.
End ApiControlFlowResponse.

Module ControlFlowResponse.
Record t : Type := mk {
  nodes : list Node.t;
  edges : list Edge.t;
  task_description : option string
}.
End ControlFlowResponse.

Inductive Severity : Type := error | warning.

Module Problem.
Record t : Type := mk {
  id : string;
  blockId : string;
  stepId : string;
  description : string;
  severity : Severity
}.
End Problem.

(** [RuntimeStep], without the [before]/[after] variable snapshots, which
    no function modelled here reads. *)
Module RuntimeStep.
Record t : Type := mk {
  id : string;
  blockId : string;
  blockName : string;
  codeSnippet : string;
  status : NodeStatus;
  error : option string
}.
End RuntimeStep.

(** ** [api.ts]: [transformApiResponseToReactFlow] *)

(** The [line_range] block of the node callback: the pair
    [(lineStart, lineEnd)] after the two [isNaN] resets. *)
Definition parseLineRange (line_range : option string) : option Z * option Z :=
  match line_range with
  | Some r =>
      if JS.truthy r then
        match JS.split "-" r with
        | [p0; p1] => (JS.parseInt p0, JS.parseInt p1)
        | _ => (None, None)
        end
      else (None, None)
  | None => (None, None)
  end.

Definition transformNode (apiNode : ApiNode.t) : Node.t :=
  let '(lineStart, lineEnd) := parseLineRange (ApiNode.line_range apiNode) in
  let blockName := ApiNode.id apiNode in
  let nodeData :=
    {| CfgNodeData.blockId := ApiNode.id apiNode;
       CfgNodeData.blockName := blockName;
       CfgNodeData.codeSnippet := ApiNode.code_chunk apiNode;
       CfgNodeData.status := pending;
       CfgNodeData.file := written (ApiNode.filename apiNode);
       CfgNodeData.lineStart := written lineStart;
       CfgNodeData.lineEnd := written lineEnd;
       CfgNodeData.executionCount := Missing |} in
  {| Node.id := ApiNode.id apiNode;
     Node.type := Some "cfgNode";
     Node.position := (0, 0);
     Node.data := nodeData |}.

Definition transformEdge (apiEdge : ApiEdge.t) : Edge.t :=
  {| Edge.id := ApiEdge.id apiEdge;
     Edge.source := ApiEdge.from_node apiEdge;
     Edge.target := ApiEdge.to_node apiEdge;
     Edge.type := Some "smoothstep";
     Edge.animated := Some false;
     Edge.label := ApiEdge.relationship_type apiEdge |}.

Definition transformApiResponseToReactFlow
    (apiResponse : ApiControlFlowResponse.t) : ControlFlowResponse.t :=
  let nodes := map transformNode (ApiControlFlowResponse.nodes apiResponse) in
  let edges := map transformEdge (ApiControlFlowResponse.edges apiResponse) in
  {| ControlFlowResponse.nodes := nodes;
     ControlFlowResponse.edges := edges;
     ControlFlowResponse.task_description :=
       ApiControlFlowResponse.task_description apiResponse |}.


(** ** [api.ts]: [convertNodesToBlocks] *)

Module Block.
Record t : Type := mk {
  block_id : string;
  file_path : string;
  start_line : Z;
  end_line : Z
}.
End Block.

(** [s || ''] for an optional string. *)
Definition orEmpty (s : option string) : string :=
  match s with
  | Some v => if JS.truthy v then v else ""
  | None => ""
  end.

(** [n || 0] for an optional number. *)
Definition orZero (n : option Z) : Z :=
  match n with
  | Some v => if (v =? 0)%Z then 0 else v
  | None => 0
  end.

(** [node.data.file] used as a condition. *)
Definition hasFile (node : Node.t) : bool :=
  match read (CfgNodeData.file (Node.data node)) with
  | Some f => JS.truthy f
  | None => false
  end.

(** [x !== undefined]. *)
Definition isDefined {A} (x : option A) : bool :=
  match x with Some _ => true | None => false end.

Definition blockFilter (node : Node.t) : bool :=
  hasFile node
  && isDefined (read (CfgNodeData.lineStart (Node.data node)))
  && isDefined (read (CfgNodeData.lineEnd (Node.data node))).

Definition blockOf (node : Node.t) : Block.t :=
  {| Block.block_id := Node.id node;
     Block.file_path := orEmpty (read (CfgNodeData.file (Node.data node)));
     Block.start_line := orZero (read (CfgNodeData.lineStart (Node.data node)));
     Block.end_line := orZero (read (CfgNodeData.lineEnd (Node.data node))) |}.

Definition convertNodesToBlocks (nodes : list Node.t) : list Block.t :=
  map blockOf (filter (fun node => Is_true (blockFilter node)) nodes).

(** The block a node stands for, in the words of the interface: the
    node's id, file and line bounds, for a node that has a non-empty file
    and both bounds; no block otherwise. *)
Definition eligibleBlock (node : Node.t) : option Block.t :=
  match read (CfgNodeData.file (Node.data node)),
        read (CfgNodeData.lineStart (Node.data node)),
        read (CfgNodeData.lineEnd (Node.data node)) with
  | Some file, Some lineStart, Some lineEnd =>
      if decide (file = "") then None
      else Some {| Block.block_id := Node.id node;
                   Block.file_path := file;
                   Block.start_line := lineStart;
                   Block.end_line := lineEnd |}
  | _, _, _ => None
  end.

(** ** [api.ts]: [extractSourcesFromNodes] *)

Module Source.
Record t : Type := mk {
  file_path : string;
  code : string
}.
End Source.

(** A JavaScript [Map] with string keys: entries in insertion order, one
    per key; [set] on a key already present replaces its value in place. *)
Module JSMap.
Section Ops.
Context {V : Type}.

Fixpoint get (m : list (string * V)) (k : string) : option V :=
  match m with
  | [] => None
  | (k', v) :: rest => if String.eqb k' k then Some v else get rest k
  end.

Definition has (m : list (string * V)) (k : string) : bool :=
  match get m k with Some _ => true | None => false end.

Fixpoint set (m : list (string * V)) (k : string) (v : V) : list (string * V) :=
  match m with
  | [] => [(k, v)]
  | (k', v') :: rest =>
      if String.eqb k' k then (k', v) :: rest else (k', v') :: set rest k v
  end.
(** The position of a key's entry, counted in insertion order. *)
Fixpoint indexOf (m : list (string * V)) (k : string) : option nat :=
  match m with
  | [] => None
  | (k', _) :: rest => if String.eqb k' k then Some 0%nat else S <$> indexOf rest k
  end.
End Ops.
End JSMap.

(** [Array.prototype.sort(cmp)] on a copy.  The sort is stable, and a
    stable sort has one result for a consistent comparator, so insertion
    sort stands for the engine's algorithm: an element goes in front of the
    first later element that does not compare below it. *)
Section Sort.
Context {A : Type} (cmp : A -> A -> Z).

Fixpoint sortInsert (x : A) (l : list A) : list A :=
  match l with
  | [] => [x]
  | y :: r => if cmp x y <=? 0 then x :: y :: r else y :: sortInsert x r
  end.

Fixpoint sortBy (l : list A) : list A :=
  match l with
  | [] => []
  | x :: r => sortInsert x (sortBy r)
  end.
End Sort.

(** The key the comparator subtracts: [node.data.lineStart || 0]. *)
Definition lineStartKey (node : Node.t) : Z :=
  orZero (read (CfgNodeData.lineStart (Node.data node))).

Definition byLineStart (a b : Node.t) : Z := lineStartKey a - lineStartKey b.

(** The first [forEach]: one step of grouping the nodes by file. *)
Definition groupStep (fileMap : list (string * list Node.t)) (node : Node.t)
    : list (string * list Node.t) :=
  match read (CfgNodeData.file (Node.data node)) with
  | Some file =>
      if JS.truthy file then
        let fileMap1 :=
          if negb (JSMap.has fileMap file) then JSMap.set fileMap file [] else fileMap in
        match JSMap.get fileMap1 file with
        | Some fileNodes => JSMap.set fileMap1 file (fileNodes ++ [node])
        | None => fileMap1
        end
      else fileMap
  | None => fileMap
  end.

Definition groupByFile (nodes : list Node.t) : list (string * list Node.t) :=
  fold_left groupStep nodes [].

(** [code && code.trim().length > 0]. *)
Definition snippetFilter (code : string) : bool :=
  JS.truthy code && (0 <? String.length (JS.trim code))%nat.

(** The separator of [join('\n\n')]. *)
Definition blankLine : string := String "010" (String "010" EmptyString).

(** The second [forEach]: one step of building [sources]. *)
Definition sourceStep (sources : list Source.t) (entry : string * list Node.t)
    : list Source.t :=
  let '(filePath, fileNodes) := entry in
  let sortedNodes := sortBy byLineStart fileNodes in
  let codeSnippets :=
    filter (fun code => Is_true (snippetFilter code))
           (map (fun node => CfgNodeData.codeSnippet (Node.data node)) sortedNodes) in
  if (0 <? length codeSnippets)%nat then
    sources ++ [ {| Source.file_path := filePath;
                    Source.code := JS.join blankLine codeSnippets |} ]
  else sources.

Definition extractSourcesFromNodes (nodes : list Node.t) : list Source.t :=
  fold_left sourceStep (groupByFile nodes) [].

(** *** The vocabulary of the statements about [extractSourcesFromNodes] *)

(** The file a node belongs to: its [file] when that is a non-empty
    string. *)
Definition fileOf (node : Node.t) : option string :=
  match read (CfgNodeData.file (Node.data node)) with
  | Some file => if decide (file = "") then None else Some file
  | None => None
  end.

(** A node's [lineStart], with [undefined] counted as 0. *)
Definition lineStartOrZero (node : Node.t) : Z :=
  default 0 (read (CfgNodeData.lineStart (Node.data node))).

(** A node whose snippet holds something other than whitespace. *)
Definition hasContent (node : Node.t) : Prop :=
  JS.hasNonWhiteSpace (CfgNodeData.codeSnippet (Node.data node)) = true.

#[global] Instance hasContent_dec node : Decision (hasContent node).
Proof. unfold hasContent. apply _. Defined.

(** The nodes of one file, in input order. *)
Definition nodesOfFile (f : string) (nodes : list Node.t) : list Node.t :=
  filter (λ node, fileOf node = Some f) nodes.

(** What the [Map] holds after the first loop: one entry per file, whose
    array lists the nodes of that file in input order. *)
Definition grouped (nodes : list Node.t) (m : list (string * list Node.t)) : Prop :=
  NoDup m.*1
  ∧ ∀ f, JSMap.get m f
         = match nodesOfFile f nodes with [] => None | ns => Some ns end.

(** The nodes of a file's array that end up in its source entry: sorted,
    then those with content. *)
Definition contentOf (fileNodes : list Node.t) : list Node.t :=
  filter hasContent (sortBy byLineStart fileNodes).

(** The source entry of one file of the map, if its nodes have any
    content. *)
Definition sourceOf (entry : string * list Node.t) : option Source.t :=
  match sourceStep [] entry with
  | [source] => Some source
  | _ => None
  end.

(** ** [App.tsx]: [mergeNodesWithAnalysis] *)

(** [new Map(updates.map((node) => [node.id, node]))]: a later entry
    replaces an earlier one with the same id. *)
Definition buildUpdateMap (updates : list Node.t) : gmap string Node.t :=
  fold_left (fun m node => <[Node.id node := node]> m) updates ∅.

(** [{...node, data: {...node.data, ...update.data}}]. *)
Definition applyUpdate (node update : Node.t) : Node.t :=
  {| Node.id := Node.id node;
     Node.type := Node.type node;
     Node.position := Node.position node;
     Node.data := CfgNodeData.spread (Node.data node) (Node.data update) |}.

(** One step of the closing [updates.forEach]. *)
Definition appendStep (acc : list Node.t * gset string) (node : Node.t)
    : list Node.t * gset string :=
  let '(merged, existingIds) := acc in
  if decide (Node.id node ∈ existingIds) then acc
  else (merged ++ [node], {[Node.id node]} ∪ existingIds).

(** The callback of [current.map]. *)
Definition mergedNode (updates : list Node.t) (node : Node.t) : Node.t :=
  match buildUpdateMap updates !! Node.id node with
  | Some update => applyUpdate node update
  | None => node
  end.

Definition mergeNodesWithAnalysis (current : list Node.t)
    (updates : option (list Node.t)) : list Node.t :=
  match updates with
  | None => current
  | Some [] => current
  | Some updates =>
      let existingIds : gset string := list_to_set (map Node.id current) in
      let merged := map (mergedNode updates) current in
      fst (fold_left appendStep updates (merged, existingIds))
  end.

(** ** [App.tsx]: selection state and [handleNodeClick] *)

Module AppState.
Record t : Type := mk {
  steps : list RuntimeStep.t;
  activeStepId : option string;
  activeNodeId : option string
}.
End AppState.

Definition stepsOfNode (steps : list RuntimeStep.t) (nodeId : string) : list RuntimeStep.t :=
  filter (fun s => RuntimeStep.blockId s = nodeId) steps.

Definition handleNodeClick (st : AppState.t) (nodeId : string) : AppState.t :=
  let nodeSteps := stepsOfNode (AppState.steps st) nodeId in
  let activeStepId :=
    if (0 <? length nodeSteps)%nat then
      match find (fun s => bool_decide (RuntimeStep.status s = failed)) nodeSteps with
      | Some failedStep => Some (RuntimeStep.id failedStep)
      | None => RuntimeStep.id <$> last nodeSteps
      end
    else None in
  {| AppState.steps := AppState.steps st;
     AppState.activeStepId := activeStepId;
     AppState.activeNodeId := Some nodeId |}.

(** ** Referential completeness of a payload *)

Definition nodeIds (nodes : list Node.t) : list string := map Node.id nodes.

Definition refComplete (nodes : list Node.t) (edges : list Edge.t)
    (problems : list Problem.t) : Prop :=
  Forall (λ e, Edge.source e ∈ nodeIds nodes ∧ Edge.target e ∈ nodeIds nodes) edges
  ∧ Forall (λ p, Problem.blockId p ∈ nodeIds nodes) problems.

#[global] Instance refComplete_dec nodes edges problems :
  Decision (refComplete nodes edges problems).
Proof. unfold refComplete. apply _. Defined.

(** ** [mockData.ts]: the two demo payloads

    The score-processing demo and the earlier character-counting demo. *)

Module MockScores.
Definition mockSteps : list RuntimeStep.t :=
  [
    RuntimeStep.mk "step-1" "block-entry" "Entry"
      "scores = [85, 92, -5, 78, 95]; total = 0; count = 0; threshold = 80" succeeded None;
    RuntimeStep.mk "step-2" "block-loop" "Loop"
      "for score in scores:" succeeded None;
    RuntimeStep.mk "step-3" "block-validate" "Validate"
      "if score < 0 or score > 100:" succeeded None;
    RuntimeStep.mk "step-4" "block-filter" "Filter"
      "if score >= threshold:" succeeded None;
    RuntimeStep.mk "step-5" "block-aggregate" "Aggregate"
      "total += score; count += 1" succeeded None;
    RuntimeStep.mk "step-6" "block-exit-check" "Exit Check"
      "if count >= 3:" succeeded None;
    RuntimeStep.mk "step-7" "block-loop" "Loop"
      "for score in scores:" succeeded None;
    RuntimeStep.mk "step-8" "block-validate" "Validate"
      "if score < 0 or score > 100:" succeeded None;
    RuntimeStep.mk "step-9" "block-filter" "Filter"
      "if score >= threshold:" succeeded None;
    RuntimeStep.mk "step-10" "block-aggregate" "Aggregate"
      "total += score; count += 1" succeeded None;
    RuntimeStep.mk "step-11" "block-exit-check" "Exit Check"
      "if count >= 3:" succeeded None;
    RuntimeStep.mk "step-12" "block-loop" "Loop"
      "for score in scores:" succeeded None;
    RuntimeStep.mk "step-13" "block-validate" "Validate"
      "if score < 0 or score > 100:" succeeded None;
    RuntimeStep.mk "step-14" "block-skip-invalid" "Skip Invalid"
      "continue" succeeded None;
    RuntimeStep.mk "step-15" "block-loop" "Loop"
      "for score in scores:" succeeded None;
    RuntimeStep.mk "step-16" "block-validate" "Validate"
      "if score < 0 or score > 100:" succeeded None;
    RuntimeStep.mk "step-17" "block-filter" "Filter"
      "if score >= threshold:" succeeded None;
    RuntimeStep.mk "step-18" "block-loop" "Loop"
      "for score in scores:" succeeded None;
    RuntimeStep.mk "step-19" "block-validate" "Validate"
      "if score < 0 or score > 100:" succeeded None;
    RuntimeStep.mk "step-20" "block-filter" "Filter"
      "if score >= threshold:" succeeded None;
    RuntimeStep.mk "step-21" "block-aggregate" "Aggregate"
      "total += score; count += 2" failed (Some "count increments by 2, should increment by 1");
    RuntimeStep.mk "step-22" "block-exit-check" "Exit Check"
      "if count >= 3:" succeeded None;
    RuntimeStep.mk "step-23" "block-early-exit" "Early Exit"
      "break" succeeded None;
    RuntimeStep.mk "step-24" "block-return" "Return"
      "return total / count if count > 0 else 0" succeeded None
  ].

Definition mockProblems : list Problem.t :=
  [
    Problem.mk "prob-1" "block-aggregate" "step-21"
      "count increments by 2, should increment by 1" error;
    Problem.mk "prob-2" "block-return" "step-24"
      "Average calculation incorrect: count is 4 but should be 3 (bug in aggregate)" warning
  ].

Definition initialNodes : list Node.t :=
  [
    Node.mk "block-entry" (Some "cfgNode") (400, 0)
      (CfgNodeData.mk "block-entry" "Entry"
         "scores = [85, 92, -5, 78, 95]; total = 0; count = 0; threshold = 80" succeeded
         (Defined "score_processor.py") (Defined 5) (Defined 5) (Defined 1));
    Node.mk "block-loop" (Some "cfgNode") (400, 120)
      (CfgNodeData.mk "block-loop" "Loop"
         "for score in scores:" succeeded
         (Defined "score_processor.py") (Defined 7) (Defined 7) (Defined 5));
    Node.mk "block-validate" (Some "cfgNode") (400, 240)
      (CfgNodeData.mk "block-validate" "Validate"
         "if score < 0 or score > 100:" succeeded
         (Defined "score_processor.py") (Defined 8) (Defined 8) (Defined 5));
    Node.mk "block-skip-invalid" (Some "cfgNode") (200, 360)
      (CfgNodeData.mk "block-skip-invalid" "Skip Invalid"
         "continue" succeeded
         (Defined "score_processor.py") (Defined 9) (Defined 9) (Defined 1));
    Node.mk "block-filter" (Some "cfgNode") (600, 360)
      (CfgNodeData.mk "block-filter" "Filter"
         "if score >= threshold:" succeeded
         (Defined "score_processor.py") (Defined 11) (Defined 11) (Defined 4));
    Node.mk "block-aggregate" (Some "cfgNode") (600, 480)
      (CfgNodeData.mk "block-aggregate" "Aggregate"
         "total += score; count += 2" failed
         (Defined "score_processor.py") (Defined 12) (Defined 13) (Defined 3));
    Node.mk "block-exit-check" (Some "cfgNode") (600, 600)
      (CfgNodeData.mk "block-exit-check" "Exit Check"
         "if count >= 3:" succeeded
         (Defined "score_processor.py") (Defined 14) (Defined 14) (Defined 3));
    Node.mk "block-early-exit" (Some "cfgNode") (800, 720)
      (CfgNodeData.mk "block-early-exit" "Early Exit"
         "break" succeeded
         (Defined "score_processor.py") (Defined 15) (Defined 15) (Defined 1));
    Node.mk "block-return" (Some "cfgNode") (400, 840)
      (CfgNodeData.mk "block-return" "Return"
         "return total / count if count > 0 else 0" succeeded
         (Defined "score_processor.py") (Defined 18) (Defined 18) (Defined 1))
  ].

Definition initialEdges : list Edge.t :=
  [
    Edge.mk "e-entry-loop" "block-entry" "block-loop" None None None;
    Edge.mk "e-loop-validate" "block-loop" "block-validate" None None None;
    Edge.mk "e-validate-skip" "block-validate" "block-skip-invalid" None None None;
    Edge.mk "e-skip-loop" "block-skip-invalid" "block-loop" None None None;
    Edge.mk "e-validate-filter" "block-validate" "block-filter" None None None;
    Edge.mk "e-filter-loop" "block-filter" "block-loop" None None None;
    Edge.mk "e-filter-aggregate" "block-filter" "block-aggregate" None None None;
    Edge.mk "e-aggregate-exit-check" "block-aggregate" "block-exit-check" None None None;
    Edge.mk "e-exit-check-loop" "block-exit-check" "block-loop" None None None;
    Edge.mk "e-exit-check-early" "block-exit-check" "block-early-exit" None None None;
    Edge.mk "e-early-return" "block-early-exit" "block-return" None None None;
    Edge.mk "e-loop-return" "block-loop" "block-return" None None None
  ].
End MockScores.

Module MockCounter.
Definition mockSteps : list RuntimeStep.t :=
  [
    RuntimeStep.mk "step-1" "block-A" "Block A"
      "cnt = 0; s = 'LLM'" succeeded None;
    RuntimeStep.mk "step-2" "block-B" "Block B"
      "for c in s:" succeeded None;
    RuntimeStep.mk "step-3" "block-C" "Block C"
      "cnt += 2" failed (Some "cnt increments by 2, should be 1");
    RuntimeStep.mk "step-4" "block-B" "Block B"
      "for c in s:" succeeded None;
    RuntimeStep.mk "step-5" "block-C" "Block C"
      "cnt += 2" failed (Some "cnt increments by 2, should be 1")
  ].

Definition mockProblems : list Problem.t :=
  [
    Problem.mk "prob-1" "block-C" "step-3"
      "cnt increments by 2, should be 1" error;
    Problem.mk "prob-2" "block-C" "step-5"
      "cnt increments by 2, should be 1" error
  ].

Definition initialNodes : list Node.t :=
  [
    Node.mk "block-A" (Some "cfgNode") (250, 0)
      (CfgNodeData.mk "block-A" "Block A"
         "cnt = 0; s = 'LLM'" succeeded
         (Defined "counter.py") (Defined 10) (Defined 10) Missing);
    Node.mk "block-B" (Some "cfgNode") (250, 150)
      (CfgNodeData.mk "block-B" "Block B"
         "for c in s:" succeeded
         (Defined "counter.py") (Defined 12) (Defined 12) Missing);
    Node.mk "block-C" (Some "cfgNode") (100, 300)
      (CfgNodeData.mk "block-C" "Block C"
         "cnt += 2" failed
         (Defined "counter.py") (Defined 13) (Defined 13) Missing);
    Node.mk "block-D" (Some "cfgNode") (400, 300)
      (CfgNodeData.mk "block-D" "Block D"
         "pass" pending
         (Defined "counter.py") (Defined 15) (Defined 15) Missing)
  ].

Definition initialEdges : list Edge.t :=
  [
    Edge.mk "e1-2" "block-A" "block-B" None None None;
    Edge.mk "e2-3" "block-B" "block-C" None None None;
    Edge.mk "e2-4" "block-B" "block-D" None None None;
    Edge.mk "e3-2" "block-C" "block-B" None None None
  ].
End MockCounter.

(** An analysis payload for the character-counting demo: new data for two
    of its blocks and one block the diagram did not have. *)
Module SampleAnalysis.
Definition nodes : list Node.t :=
[
  Node.mk "block-C" (Some "cfgNode") (0, 0)
    (CfgNodeData.mk "block-C" "Block C"
       "cnt += 2" failed
       Missing Missing Missing (Defined 2));
  Node.mk "block-D" (Some "cfgNode") (0, 0)
    (CfgNodeData.mk "block-D" "Block D"
       "pass" succeeded
       Undefined Missing Missing (Defined 1));
  Node.mk "block-E" (Some "cfgNode") (0, 0)
    (CfgNodeData.mk "block-E" "Block E"
       "return cnt" pending
       (Defined "counter.py") (Defined 17) (Defined 17) Missing)
].
End SampleAnalysis.

(** ** The analysis core: data model

    The failure locator and the slice extractor run on the server; the
    client only renders their payload.  Their data model and algorithms
    are written here from the design document. *)

(** Modelled from the spec: the kinds of a basic block. *)
Inductive BlockKind : Type :=
| KEntry | KLinear | KBranch | KLoopHeader | KExit | KUnreachable | KOpaque.

(** Modelled from the spec: the status of a trace event. *)
Inductive EventStatus : Type := EvOk | EvAborted | EvTruncated.

Module BasicBlock.
(** Modelled from the spec: the [BasicBlock] of the data model (id, owning
    file, inclusive line range, code text, kind). *)
Record t : Type := mk {
  id : string;
  file : string;
  lines : Z * Z;
  code : string;
  kind : BlockKind
}.
End BasicBlock.

Module ControlFlowEdge.
(** Modelled from the spec: the [ControlFlowEdge] of the data model
    (source, target, optional branch label, back-edge tag). *)
Record t : Type := mk {
  source : string;
  target : string;
  label : option string;
  back : bool
}.
End ControlFlowEdge.

Module ControlFlowGraph.
(** Modelled from the spec: the [ControlFlowGraph] of the data model. *)
Record t : Type := mk {
  blocks : list BasicBlock.t;
  edges : list ControlFlowEdge.t;
  entry : string;
  exits : list string
}.
End ControlFlowGraph.

Module TraceEvent.
(** Modelled from the spec: the [TraceEvent] of the data model; a snapshot
    binds variable names to serialized values. *)
Record t : Type := mk {
  block : string;
  occurrence : nat;
  snapshot : list (string * string);
  status : EventStatus
}.
End TraceEvent.

Module ExecutionTrace.
(** Modelled from the spec: the [ExecutionTrace] of the data model; the
    events are in execution order, [passed] is the oracle's verdict. *)
Record t : Type := mk {
  events : list TraceEvent.t;
  passed : bool;
  incomplete : bool
}.
End ExecutionTrace.

Module FailureNode.
(** Modelled from the spec: the [FailureNode] of the data model, one per
    divergent variable. *)
Record t : Type := mk {
  block : string;
  step : nat;
  variable : string;
  rank : nat
}.
End FailureNode.

Module FailureSlice.
(** Modelled from the spec: the [FailureSlice] of the data model. *)
Record t : Type := mk {
  blocks : list string;
  edges : list ControlFlowEdge.t;
  events : list TraceEvent.t
}.
End FailureSlice.

(** ** The analysis core: [FailureLocator] *)

Module FailureLocator.
Section Locator.

(** Modelled from the spec: the agreement check of one event of the
    failing trace, at its step index.  It returns the variables on which
    the event disagrees with the assertion recorded at that point or,
    absent one, with the comparison trace.  Section 4.4 leaves the
    comparison itself open, so it is a parameter. *)
Variable divergent : ExecutionTrace.t → nat → TraceEvent.t → list string.

(** Modelled from the spec: the check of the degraded mode, the
    disagreement of the terminal event with the oracle's expected value. *)
Variable terminalDivergent : TraceEvent.t → list string.

(** Modelled from the spec: the variable the failing oracle refers to. *)
Variable oracleVariable : string.

(** Modelled from the spec: "ranked with the variable referenced by the
    failing oracle first". *)
Definition ranked (variables : list string) : list string :=
  filter (λ v, v = oracleVariable) variables
  ++ filter (λ v, v ≠ oracleVariable) variables.

(** Modelled from the spec: "when several variables diverge at the same
    block, report all": the failure nodes of one step. *)
Definition nodesAt (step : nat) (event : TraceEvent.t) (variables : list string)
    : list FailureNode.t :=
  imap (λ rank v, {| FailureNode.block := TraceEvent.block event;
                     FailureNode.step := step;
                     FailureNode.variable := v;
                     FailureNode.rank := rank |})
       (ranked variables).

(** Modelled from the spec: "walk the failing trace in execution order";
    the walk stops at the first event whose check reports a divergence. *)
Fixpoint walk (passing : ExecutionTrace.t) (step : nat) (events : list TraceEvent.t)
    : list FailureNode.t :=
  match events with
  | [] => []
  | event :: rest =>
      match divergent passing step event with
      | [] => walk passing (S step) rest
      | variables => nodesAt step event variables
      end
  end.

(** Modelled from the spec: the [FailureLocator] of section 4.4, which is
    not part of the client sources.  With a passing comparison trace it
    reports the first divergence of the walk; without one it checks the
    terminal event only. *)
Definition locate (failing : ExecutionTrace.t) (passing : option ExecutionTrace.t)
    : list FailureNode.t :=
  match passing with
  | Some p => walk p 0 (ExecutionTrace.events failing)
  | None =>
      match last (ExecutionTrace.events failing) with
      | Some event =>
          nodesAt (length (ExecutionTrace.events failing) - 1) event
                  (terminalDivergent event)
      | None => []
      end
  end.

(** Modelled from the spec: the disagreement points of the failing
    trace, that is the steps at which the check reports a divergence, in
    execution order. *)
Fixpoint disagreementsFrom (passing : ExecutionTrace.t) (step : nat)
    (events : list TraceEvent.t) : list nat :=
  match events with
  | [] => []
  | event :: rest =>
      match divergent passing step event with
      | [] => disagreementsFrom passing (S step) rest
      | _ => step :: disagreementsFrom passing (S step) rest
      end
  end.

Definition disagreements (failing passing : ExecutionTrace.t) : list nat :=
  disagreementsFrom passing 0 (ExecutionTrace.events failing).

(** Modelled from the spec: the step of the final disagreement, if there
    is any. *)
Definition finalDisagreement (failing passing : ExecutionTrace.t) : option nat :=
  last (disagreements failing passing).

End Locator.
End FailureLocator.

(** ** The analysis core: [SliceExtractor] *)

Module SliceExtractor.
Section Extractor.

Variable cfg : ControlFlowGraph.t.
Variable trace : ExecutionTrace.t.
Variable failureNodes : list FailureNode.t.
Variable K : nat.

(** Modelled from the spec: the control-flow predecessors of a block, in
    edge order. *)
Definition predecessors (b : string) : list string :=
  ControlFlowEdge.source <$>
    filter (λ e, ControlFlowEdge.target e = b) (ControlFlowGraph.edges cfg).

(** Modelled from the spec: a branch of the traversal ends at the entry
    block. *)
Definition expand (b : string) : list string :=
  if decide (b = ControlFlowGraph.entry cfg) then [] else predecessors b.

(** Modelled from the spec: the steps at which a block executed in the
    failing trace. *)
Definition occurrences (b : string) : list nat :=
  fst <$> filter (λ p, TraceEvent.block p.2 = b)
                 (imap (λ i e, (i, e)) (ExecutionTrace.events trace)).

(** Modelled from the spec: the distance in trace order from a step to
    the closest failure node. *)
Definition stepDistance (i : nat) : option nat :=
  foldr (λ f best,
           let d := (Nat.max i (FailureNode.step f) - Nat.min i (FailureNode.step f))%nat in
           match best with Some m => Some (Nat.min d m) | None => Some d end)
        None failureNodes.

(** Modelled from the spec: "nearer a FailureNode in trace order".  The
    distance of a block is that of its closest occurrence; [None] for a
    block that never executed, or when there is no failure node. *)
Definition nearness (b : string) : option nat :=
  foldr (λ i best,
           match stepDistance i, best with
           | Some d, Some m => Some (Nat.min d m)
           | Some d, None => Some d
           | None, _ => best
           end)
        None (occurrences b).

(** Modelled from the spec: the eviction policy.  Executed blocks come
    before blocks that never executed; among executed blocks the one
    nearer a failure node in trace order comes first. *)
Definition evictCmp (a b : string) : Z :=
  match nearness a, nearness b with
  | Some x, Some y => Z.of_nat x - Z.of_nat y
  | Some _, None => -1
  | None, Some _ => 1
  | None, None => 0
  end.

(** Modelled from the spec: the next layer of the backward traversal, the
    unvisited predecessors of the frontier, each once, in eviction order. *)
Definition nextLayer (visited frontier : list string) : list string :=
  sortBy evictCmp
    (remove_dups (filter (λ b, b ∉ visited) (frontier ≫= expand))).

(** Modelled from the spec: "breadth-first backward traversal over
    control-flow predecessors ..., terminating per branch either at the
    entry block or when the K budget is exhausted". *)
Fixpoint traverse (fuel : nat) (visited frontier : list string) : list string :=
  if (K <=? length visited)%nat then take K visited
  else match fuel with
       | O => visited
       | S fuel' =>
           match nextLayer visited frontier with
           | [] => visited
           | layer => traverse fuel' (visited ++ layer) layer
           end
       end.

(** Modelled from the spec: the blocks that are the source of some edge,
    each once; only these can enter a layer. *)
Definition edgeSources : list string :=
  remove_dups (ControlFlowEdge.source <$> ControlFlowGraph.edges cfg).

(** Modelled from the spec: the traversal starts at the blocks of the
    failure nodes, each once, in rank order. *)
Definition seeds : list string := remove_dups (FailureNode.block <$> failureNodes).

(** Modelled from the spec: the blocks of the slice.  Every productive
    round visits a new source of some edge, so one round per edge, and one
    more, exhausts the graph. *)
Definition sliceBlocks : list string :=
  take K (traverse (S (length (ControlFlowGraph.edges cfg))) seeds seeds).

(** Modelled from the spec: the [SliceExtractor] of section 4.5, which is
    not part of the client sources.  The slice holds the traversed blocks
    up to the ceiling [K], the edges between them and the trace events
    that touch them. *)
Definition extractSlice : FailureSlice.t :=
  {| FailureSlice.blocks := sliceBlocks;
     FailureSlice.edges :=
       filter (λ e, ControlFlowEdge.source e ∈ sliceBlocks
                    ∧ ControlFlowEdge.target e ∈ sliceBlocks)
              (ControlFlowGraph.edges cfg);
     FailureSlice.events :=
       filter (λ e, TraceEvent.block e ∈ sliceBlocks) (ExecutionTrace.events trace) |}.

End Extractor.
End SliceExtractor.

Module SampleSession.
(** Modelled from the spec: the scenario of section 8.  The
    absolute-value function whose negation branch was mutated to
    [y = -y*2], run on [-3] (expected [3], actual [6]) and, for comparison,
    on [3]. *)

(** Modelled from the spec: the graph of [if y<0: y=-y; return y], with
    the mutated block [b1]. *)
Definition cfg : ControlFlowGraph.t :=
  {| ControlFlowGraph.blocks :=
       [ BasicBlock.mk "b0" "abs.py" (1, 1) "if y < 0:" KEntry;
         BasicBlock.mk "b1" "abs.py" (2, 2) "y = -y*2" KLinear;
         BasicBlock.mk "b2" "abs.py" (3, 3) "return y" KExit ];
     ControlFlowGraph.edges :=
       [ ControlFlowEdge.mk "b0" "b1" (Some "y < 0") false;
         ControlFlowEdge.mk "b0" "b2" (Some "y >= 0") false;
         ControlFlowEdge.mk "b1" "b2" None false ];
     ControlFlowGraph.entry := "b0";
     ControlFlowGraph.exits := ["b2"] |}.

(** Modelled from the spec: the failing run [f(-3)]. *)
Definition failing : ExecutionTrace.t :=
  {| ExecutionTrace.events :=
       [ TraceEvent.mk "b0" 0 [("y", "-3")] EvOk;
         TraceEvent.mk "b1" 0 [("y", "6")] EvOk;
         TraceEvent.mk "b2" 0 [("y", "6"); ("result", "6")] EvOk ];
     ExecutionTrace.passed := false;
     ExecutionTrace.incomplete := false |}.

(** Modelled from the spec: the passing run [f(3) = 3]. *)
Definition passing : ExecutionTrace.t :=
  {| ExecutionTrace.events :=
       [ TraceEvent.mk "b0" 0 [("y", "3")] EvOk;
         TraceEvent.mk "b2" 0 [("y", "3"); ("result", "3")] EvOk ];
     ExecutionTrace.passed := true;
     ExecutionTrace.incomplete := false |}.

(** Modelled from the spec: the assertions recorded along the failing
    run: at a step, the binding the oracle expects there. *)
Definition assertions : list (nat * (string * string)) :=
  [ (1%nat, ("y", "3")); (2%nat, ("result", "3")) ].

(** Modelled from the spec: the value a snapshot binds a variable to. *)
Definition binding (snapshot : list (string * string)) (v : string) : option string :=
  snd <$> find (λ p, String.eqb (fst p) v) snapshot.

(** Modelled from the spec: the check of this session, the asserted
    variables of the step whose binding is not the expected one. *)
Definition divergent (_ : ExecutionTrace.t) (step : nat) (event : TraceEvent.t)
    : list string :=
  (λ a, fst (snd a)) <$>
    filter (λ a, fst a = step
                 ∧ binding (TraceEvent.snapshot event) (fst (snd a)) ≠ Some (snd (snd a)))
           assertions.

(** Modelled from the spec: the terminal check of this session. *)
Definition terminalDivergent (event : TraceEvent.t) : list string :=
  if decide (binding (TraceEvent.snapshot event) "result" = Some "3") then []
  else ["result"].

(** Modelled from the spec: the failure nodes the locator reports for
    this session. *)
Definition failureNodes : list FailureNode.t :=
  FailureLocator.locate divergent terminalDivergent "result" failing (Some passing).

End SampleSession.

(** ** The two payload transforms over an explicit store

    [api.ts] builds its results by allocating arrays and a [Map] and
    pushing into them.  Here every array and the [Map] is a cell of a
    store; a reference is the index of its cell.  Node, edge and source
    objects are never written to after they are built, so they are values
    inside the cells.  The functions of this module follow the source
    statement by statement; the functions above are their values. *)

Module Store.

Inductive cell : Type :=
| CApiNodes (elements : list ApiNode.t)
| CApiEdges (elements : list ApiEdge.t)
| CNodes (elements : list Node.t)
| CEdges (elements : list Edge.t)
| CStrings (elements : list string)
| CSources (elements : list Source.t)
| CFileMap (entries : list (string * nat)).

Definition heap : Type := list cell.

(** A computation on the store that may get stuck (a [TypeError]). *)
Definition M (A : Type) : Type := heap → option (A * heap).

#[global] Instance M_ret : MRet M := λ A a h, Some (a, h).
#[global] Instance M_bind : MBind M := λ A B f m h,
  match m h with
  | Some (a, h') => f a h'
  | None => None
  end.

Definition stuck {A} : M A := λ _, None.

(** A new object: the store grows by one cell. *)
Definition alloc (c : cell) : M nat := λ h, Some (length h, h ++ [c]).

Definition load (l : nat) : M cell := λ h,
  match h !! l with
  | Some c => Some (c, h)
  | None => None
  end.

(** A write into an existing object. *)
Definition store (l : nat) (c : cell) : M unit := λ h,
  if decide (l < length h)%nat then Some ((), <[l := c]> h) else None.

Definition loadApiNodes (l : nat) : M (list ApiNode.t) :=
  c ← load l; match c with CApiNodes xs => mret xs | _ => stuck end.
Definition loadApiEdges (l : nat) : M (list ApiEdge.t) :=
  c ← load l; match c with CApiEdges xs => mret xs | _ => stuck end.
Definition loadNodes (l : nat) : M (list Node.t) :=
  c ← load l; match c with CNodes xs => mret xs | _ => stuck end.
Definition loadStrings (l : nat) : M (list string) :=
  c ← load l; match c with CStrings xs => mret xs | _ => stuck end.
Definition loadSources (l : nat) : M (list Source.t) :=
  c ← load l; match c with CSources xs => mret xs | _ => stuck end.
Definition loadFileMap (l : nat) : M (list (string * nat)) :=
  c ← load l; match c with CFileMap m => mret m | _ => stuck end.

(** [xs.forEach(f)]. *)
Fixpoint forEach {A} (f : A → M unit) (xs : list A) : M unit :=
  match xs with
  | [] => mret ()
  | x :: rest => _ ← f x; forEach f rest
  end.

(** References to the request and response objects. *)
Record ApiResponseRef : Type := {
  api_nodes : nat;
  api_edges : nat;
  api_task_description : option string
}.

Record ResponseRef : Type := {
  res_nodes : nat;
  res_edges : nat;
  res_task_description : option string
}.

(** [transformApiResponseToReactFlow]: each [.map] reads its array and
    allocates the array of the results. *)
Definition transformApiResponseToReactFlow (apiResponse : ApiResponseRef)
    : M ResponseRef :=
  apiNodes ← loadApiNodes (api_nodes apiResponse);
  nodes ← alloc (CNodes (map transformNode apiNodes));
  apiEdges ← loadApiEdges (api_edges apiResponse);
  edges ← alloc (CEdges (map transformEdge apiEdges));
  mret {| res_nodes := nodes;
          res_edges := edges;
          res_task_description := api_task_description apiResponse |}.

(** The body of the first [forEach] of [extractSourcesFromNodes]. *)
Definition groupNode (fileMap : nat) (node : Node.t) : M unit :=
  match read (CfgNodeData.file (Node.data node)) with
  | Some file =>
      if JS.truthy file then
        m ← loadFileMap fileMap;
        _ ← (if negb (JSMap.has m file) then
               fresh ← alloc (CNodes []);
               store fileMap (CFileMap (JSMap.set m file fresh))
             else mret ());
        m' ← loadFileMap fileMap;
        match JSMap.get m' file with
        | Some fileNodes =>
            xs ← loadNodes fileNodes;
            store fileNodes (CNodes (xs ++ [node]))
        | None => stuck
        end
      else mret ()
  | None => mret ()
  end.

(** The body of the second [forEach]: [[...fileNodes]] copies the array,
    [.sort] sorts the copy in place, [.map] and [.filter] allocate. *)
Definition pushSource (sources : nat) (entry : string * nat) : M unit :=
  let '(filePath, fileNodes) := entry in
  xs ← loadNodes fileNodes;
  sortedNodes ← alloc (CNodes xs);
  ys ← loadNodes sortedNodes;
  _ ← store sortedNodes (CNodes (sortBy byLineStart ys));
  zs ← loadNodes sortedNodes;
  mapped ← alloc (CStrings (map (λ node, CfgNodeData.codeSnippet (Node.data node)) zs));
  ss ← loadStrings mapped;
  codeSnippets ← alloc (CStrings (filter (λ code, Is_true (snippetFilter code)) ss));
  cs ← loadStrings codeSnippets;
  if (0 <? length cs)%nat then
    acc ← loadSources sources;
    store sources
          (CSources (acc ++ [ {| Source.file_path := filePath;
                                 Source.code := JS.join blankLine cs |} ]))
  else mret ().

Definition extractSourcesFromNodes (nodes : nat) : M nat :=
  fileMap ← alloc (CFileMap []);
  xs ← loadNodes nodes;
  _ ← forEach (groupNode fileMap) xs;
  sources ← alloc (CSources []);
  m ← loadFileMap fileMap;
  _ ← forEach (pushSource sources) m;
  mret sources.

(** The cells that hold a [Map] of arrays whose own cell sits at [base]:
    the [i]-th array was allocated [i] cells after the [Map]. *)
Definition arrayRefs (base : nat) (g : list (string * list Node.t))
    : list (string * nat) :=
  imap (λ i e, (e.1, (base + 1 + i)%nat)) g.

Definition mapCells (base : nat) (g : list (string * list Node.t)) : list cell :=
  CFileMap (arrayRefs base g) :: ((λ e, CNodes e.2) <$> g).

End Store.

(** * The rest of the client

    The functions of [api.ts], [App.tsx], [CfgCanvas.tsx], [CfgNode.tsx],
    [utils.ts], [FinalAnalysis.tsx] and [ProblemsList.tsx] that the
    definitions above call or are called from. *)

(** ** More JavaScript string primitives *)

Module JSString.

(** [s.startsWith(p)]. *)
Fixpoint startsWith (p s : string) : bool :=
  match p, s with
  | EmptyString, _ => true
  | String a p', String b s' => Ascii.eqb a b && startsWith p' s'
  | String _ _, EmptyString => false
  end.

(** [s.endsWith(suffix)]: some tail of [s] is the suffix. *)
Fixpoint endsWith (suffix s : string) : bool :=
  String.eqb s suffix
  || match s with
     | String _ r => endsWith suffix r
     | EmptyString => false
     end.

(** [s.slice(0, -1)]: all but the last code unit. *)
Fixpoint dropLast (s : string) : string :=
  match s with
  | EmptyString => EmptyString
  | String c EmptyString => EmptyString
  | String c r => String c (dropLast r)
  end.

(** [s.lastIndexOf(c)] for one code unit; [None] is [-1]. *)
Fixpoint lastIndexOf (c : ascii) (s : string) : option nat :=
  match s with
  | EmptyString => None
  | String c' r =>
      match lastIndexOf c r with
      | Some i => Some (S i)
      | None => if Ascii.eqb c' c then Some 0%nat else None
      end
  end.

(** [s.substring(start)]. *)
Fixpoint substring (start : nat) (s : string) : string :=
  match start, s with
  | O, _ => s
  | S n, String _ r => substring n r
  | S _, EmptyString => EmptyString
  end.

(** The lower-case mapping of one code unit below U+0100: A-Z, and the
    accented capitals U+00C0-U+00DE without the multiplication sign. *)
Definition toLowerUnit (c : ascii) : ascii :=
  let n := nat_of_ascii c in
  if ((65 <=? n) && (n <=? 90)
      || (192 <=? n) && (n <=? 222) && negb (n =? 215))%nat
  then ascii_of_nat (n + 32) else c.

(** [s.toLowerCase()]. *)
Fixpoint toLowerCase (s : string) : string :=
  match s with
  | EmptyString => EmptyString
  | String c r => String (toLowerUnit c) (toLowerCase r)
  end.

(** The decimal digits of a natural number below [2 ^ fuel], most
    significant first. *)
Fixpoint digitsOf (fuel : nat) (n : Z) : string :=
  match fuel with
  | O => String (ascii_of_nat (48 + Z.to_nat n)) EmptyString
  | S fuel' =>
      if n <? 10 then String (ascii_of_nat (48 + Z.to_nat n)) EmptyString
      else String.append (digitsOf fuel' (n / 10))
                         (String (ascii_of_nat (48 + Z.to_nat (n mod 10))) EmptyString)
  end.

(** [String(n)] for an integer that prints without an exponent, that is
    below 10^21 in absolute value. *)
Definition numberToString (n : Z) : string :=
  if n <? 0 then String "-" (digitsOf (Z.to_nat (Z.log2 (- n))) (- n))
  else digitsOf (Z.to_nat (Z.log2 n)) n.

End JSString.

(** ** [api.ts]: building the request URL *)

(** [normalizeBaseUrl]: no URL, or the empty one, gives the relative base;
    one trailing slash is removed. *)
Definition normalizeBaseUrl (url : option string) : string :=
  match url with
  | Some u =>
      if negb (JS.truthy u) then ""
      else if JSString.endsWith "/" u then JSString.dropLast u else u
  | None => ""
  end.

(** [path.startsWith('http://') || path.startsWith('https://')]. *)
Definition isAbsoluteUrl (path : string) : bool :=
  JSString.startsWith "http://" path || JSString.startsWith "https://" path.

(** [buildUrl], with the module constant [API_BASE_URL] as an argument. *)
Definition buildUrl (API_BASE_URL path : string) : string :=
  if isAbsoluteUrl path then path
  else
    let normalizedPath :=
      if JSString.startsWith "/" path then path else String.append "/" path in
    String.append API_BASE_URL normalizedPath.

(** ** [api.ts] and [App.tsx]: the analysis request *)

(** The block an API node stands for: its id and file, and the two
    numbers of its [line_range], for a node with a non-empty file and a
    range that gives both numbers; no block otherwise. *)
Definition apiBlock (apiNode : ApiNode.t) : option Block.t :=
  match ApiNode.filename apiNode, parseLineRange (ApiNode.line_range apiNode) with
  | Some file, (Some lineStart, Some lineEnd) =>
      if decide (file = "") then None
      else Some {| Block.block_id := ApiNode.id apiNode;
                   Block.file_path := file;
                   Block.start_line := lineStart;
                   Block.end_line := lineEnd |}
  | _, _ => None
  end.

(** A node without what a layout or React Flow adds to it: the id and
    the data are kept, the type and the position are reset. *)
Definition stripLayout (node : Node.t) : Node.t :=
  {| Node.id := Node.id node;
     Node.type := None;
     Node.position := (0, 0);
     Node.data := Node.data node |}.

(** A node reduced to its data. *)
Definition dataOnly (node : Node.t) : Node.t :=
  {| Node.id := "";
     Node.type := None;
     Node.position := (0, 0);
     Node.data := Node.data node |}.

(** A [Map] of node arrays with every node replaced by its image. *)
Definition mapArrays (g : Node.t → Node.t) (m : list (string * list Node.t))
    : list (string * list Node.t) :=
  map (λ entry, (entry.1, map g entry.2)) m.

Module ExecuteTestCasesRequest.
Record t : Type := mk {
  task_description : string;
  blocks : list Block.t;
  sources : list Source.t
}.
End ExecuteTestCasesRequest.

(** The body [runAnalysis] posts to [/execute_test_cases], from the
    [taskDescription] and [nodes] of the state. *)
Definition runAnalysisRequest (taskDescription : option string)
    (nodes : list Node.t) : ExecuteTestCasesRequest.t :=
  let blocks := convertNodesToBlocks nodes in
  let sources := extractSourcesFromNodes nodes in
  let task_description :=
    match taskDescription with
    | Some t => if JS.truthy t then t else "Investigate generated test failure"
    | None => "Investigate generated test failure"
    end in
  {| ExecuteTestCasesRequest.task_description := task_description;
     ExecuteTestCasesRequest.blocks := blocks;
     ExecuteTestCasesRequest.sources := sources |}.

(** ** [utils.ts]: [getFileIcon] *)

(** The icon components of [react-icons/di] that the table names. *)
Inductive Icon : Type :=
| DiPython
| DiJavascript
| DiReact
| DiJava
| DiGo
| DiRust
| DiHtml5
| DiCss3
| DiSass
| DiLess
| DiRuby
| DiPhp
| DiSwift
| DiScala
| DiClojure
| DiErlang
| DiHaskell
| DiCode
| DiPerl
| DiPostgresql
| DiMarkdown
| DiGit
| DiDocker.

(** [fileIconMap].  Its keys all start with a dot, and so does every
    extension looked up in it, so no inherited property of the object is
    ever found. *)
Definition fileIconMap : list (string * Icon) :=
[
  (".py", DiPython);
  (".pyw", DiPython);
  (".pyi", DiPython);
  (".pyx", DiPython);
  (".js", DiJavascript);
  (".jsx", DiReact);
  (".mjs", DiJavascript);
  (".cjs", DiJavascript);
  (".ts", DiJavascript);
  (".tsx", DiReact);
  (".java", DiJava);
  (".class", DiJava);
  (".jar", DiJava);
  (".go", DiGo);
  (".rs", DiRust);
  (".html", DiHtml5);
  (".htm", DiHtml5);
  (".css", DiCss3);
  (".scss", DiSass);
  (".sass", DiSass);
  (".less", DiLess);
  (".rb", DiRuby);
  (".rake", DiRuby);
  (".gemspec", DiRuby);
  (".php", DiPhp);
  (".phtml", DiPhp);
  (".swift", DiSwift);
  (".kt", DiJava);
  (".kts", DiJava);
  (".scala", DiScala);
  (".clj", DiClojure);
  (".cljs", DiClojure);
  (".cljc", DiClojure);
  (".erl", DiErlang);
  (".hrl", DiErlang);
  (".hs", DiHaskell);
  (".lhs", DiHaskell);
  (".lua", DiCode);
  (".pl", DiPerl);
  (".pm", DiPerl);
  (".sql", DiPostgresql);
  (".md", DiMarkdown);
  (".markdown", DiMarkdown);
  (".yml", DiCode);
  (".yaml", DiCode);
  (".json", DiCode);
  (".gitignore", DiGit);
  (".dockerfile", DiDocker);
  (".dockerignore", DiDocker)
].

Definition getFileIcon (fileName : option string) : Icon :=
  match fileName with
  | Some name =>
      if negb (JS.truthy name) then DiCode
      else
        match JSString.lastIndexOf "." name with
        | None => DiCode
        | Some lastDotIndex =>
            let extension :=
              JSString.toLowerCase (JSString.substring lastDotIndex name) in
            match JSMap.get fileIconMap extension with
            | Some icon => icon
            | None => DiCode
            end
        end
  | None => DiCode
  end.

(** ** [CfgNode.tsx]: the status pill and the metadata tooltip *)

#[global] Instance Severity_eq_dec : EqDecision Severity.
Proof. solve_decision. Defined.

Inductive Pill : Type := WarningPill | SucceededPill | FailedPill | PendingPill.

(** [problems.some(p => p.blockId === nodeData.blockId && p.severity === 'warning')]. *)
Definition hasWarning (problems : list Problem.t) (nodeData : CfgNodeData.t) : bool :=
  existsb (λ p, String.eqb (Problem.blockId p) (CfgNodeData.blockId nodeData)
                && bool_decide (Problem.severity p = warning)) problems.

Definition StatusPill (status : NodeStatus) (hasWarning : bool) : Pill :=
  if hasWarning && negb (bool_decide (status = failed)) then WarningPill
  else match status with
       | succeeded => SucceededPill
       | failed => FailedPill
       | pending => PendingPill
       end.

(** The pill in the header of a node. *)
Definition nodePill (problems : list Problem.t) (nodeData : CfgNodeData.t) : Pill :=
  StatusPill (CfgNodeData.status nodeData) (hasWarning problems nodeData).

(** The text of [L{nodeData.lineStart}-{nodeData.lineEnd}], rendered when
    both bounds are defined. *)
Definition lineLabel (nodeData : CfgNodeData.t) : option string :=
  match read (CfgNodeData.lineStart nodeData), read (CfgNodeData.lineEnd nodeData) with
  | Some lineStart, Some lineEnd =>
      Some (String "L" (String.append (JSString.numberToString lineStart)
                          (String "-" (JSString.numberToString lineEnd))))
  | _, _ => None
  end.

Module Tooltip.
Record t : Type := mk {
  icon : Icon;
  file : string;
  lines : option string
}.
End Tooltip.

(** The tooltip [showMetadata && nodeData.file && (...)]: nothing is
    rendered without a non-empty file. *)
Definition metadataTooltip (showMetadata : bool) (nodeData : CfgNodeData.t)
    : option Tooltip.t :=
  if showMetadata then
    match read (CfgNodeData.file nodeData) with
    | Some file =>
        if JS.truthy file then
          Some {| Tooltip.icon := getFileIcon (Some file);
                  Tooltip.file := file;
                  Tooltip.lines := lineLabel nodeData |}
        else None
    | None => None
    end
  else None.

(** ** [App.tsx]: [handleStepSelect] and the two selection effects *)

Definition handleStepSelect (st : AppState.t) (stepId : string) : AppState.t :=
  let step := find (λ s, String.eqb (RuntimeStep.id s) stepId) (AppState.steps st) in
  {| AppState.steps := AppState.steps st;
     AppState.activeStepId := Some stepId;
     AppState.activeNodeId :=
       match step with
       | Some step => Some (RuntimeStep.blockId step)
       | None => AppState.activeNodeId st
       end |}.

(** The effect on [[activeNodeId, nodes]]: the value of [activeNodeId]
    after it ran; [nodes[0]?.id ?? null] is the id of the first node. *)
Definition activeNodeEffect (nodes : list Node.t) (activeNodeId : option string)
    : option string :=
  match activeNodeId with
  | Some a =>
      if JS.truthy a && forallb (λ node, negb (String.eqb (Node.id node) a)) nodes
      then Node.id <$> head nodes
      else activeNodeId
  | None => None
  end.

(** The effect on [[activeStepId, steps]]. *)
Definition activeStepEffect (steps : list RuntimeStep.t) (activeStepId : option string)
    : option string :=
  match steps with
  | [] => None
  | step0 :: _ =>
      match activeStepId with
      | Some a =>
          if JS.truthy a && forallb (λ step, negb (String.eqb (RuntimeStep.id step) a)) steps
          then Some (RuntimeStep.id step0)
          else activeStepId
      | None => None
      end
  end.

(** ** [App.tsx]: [handleAnalysisSuccess] *)

(** The fields of [DebuggerPayload] that the handler reads with a guard;
    [suite], [test_case], [analysis] and [attempts] are stored as they
    come and read by no function modelled here. *)
Module DebuggerPayload.
Record t : Type := mk {
  nodes : option (list Node.t);
  edges : option (list Edge.t);
  steps : option (list RuntimeStep.t);
  problems : option (list Problem.t)
}.
End DebuggerPayload.

(** The state of [App] that the handler writes. *)
Module AppData.
Record t : Type := mk {
  steps : list RuntimeStep.t;
  problems : list Problem.t;
  nodes : list Node.t;
  edges : list Edge.t;
  activeStepId : option string;
  activeNodeId : option string
}.
End AppData.

(** [s || null]. *)
Definition orNull (s : string) : option string :=
  if JS.truthy s then Some s else None.

Definition handleAnalysisSuccess (st : AppData.t) (payload : DebuggerPayload.t)
    : AppData.t :=
  let steps := default [] (DebuggerPayload.steps payload) in
  let problems := default [] (DebuggerPayload.problems payload) in
  let nodes := mergeNodesWithAnalysis (AppData.nodes st) (DebuggerPayload.nodes payload) in
  let edges :=
    match DebuggerPayload.edges payload with
    | Some (e :: es) => e :: es
    | _ => AppData.edges st
    end in
  let '(activeNodeId, activeStepId) :=
    match DebuggerPayload.problems payload with
    | Some (firstProblem :: _) =>
        (orNull (Problem.blockId firstProblem), orNull (Problem.stepId firstProblem))
    | _ =>
        match DebuggerPayload.steps payload with
        | Some (step :: rest) =>
            let lastStep := List.last rest step in
            (Some (RuntimeStep.blockId lastStep), Some (RuntimeStep.id lastStep))
        | _ =>
            match DebuggerPayload.nodes payload with
            | Some (node :: _) => (Some (Node.id node), None)
            | _ => (AppData.activeNodeId st, AppData.activeStepId st)
            end
        end
    end in
  {| AppData.steps := steps;
     AppData.problems := problems;
     AppData.nodes := nodes;
     AppData.edges := edges;
     AppData.activeStepId := activeStepId;
     AppData.activeNodeId := activeNodeId |}.

(** The two selection effects, run on the state of [App]. *)
Definition runEffects (st : AppData.t) : AppData.t :=
  {| AppData.steps := AppData.steps st;
     AppData.problems := AppData.problems st;
     AppData.nodes := AppData.nodes st;
     AppData.edges := AppData.edges st;
     AppData.activeStepId := activeStepEffect (AppData.steps st) (AppData.activeStepId st);
     AppData.activeNodeId := activeNodeEffect (AppData.nodes st) (AppData.activeNodeId st) |}.

(** The active step, when there is one, is a step of the run and belongs
    to the active node. *)
Definition selectionConsistent (steps : list RuntimeStep.t)
    (activeStepId activeNodeId : option string) : Prop :=
  match activeStepId with
  | Some stepId =>
      ∃ step, step ∈ steps ∧ RuntimeStep.id step = stepId
              ∧ activeNodeId = Some (RuntimeStep.blockId step)
  | None => True
  end.

(** ** [CfgCanvas.tsx]: merging the graph of the canvas *)

(** [edge.id ?? ...]: the id of an [Edge] is a string, never nullish. *)
Definition buildEdgeKey (edge : Edge.t) : string := Edge.id edge.

(** [new Map(entries)]: the entries are set one after the other. *)
Definition mapOf {V} (key : V → string) (l : list V) : list (string * V) :=
  fold_left (λ m v, JSMap.set m (key v) v) l [].

(** Every value of the [Map] is filed under its own key. *)
Definition keyed {V} (key : V → string) (m : list (string * V)) : Prop :=
  ∀ k v, (k, v) ∈ m → key v = k.

(** [{...existing, ...node, data: {...existing.data, ...node.data}}].
    [id] and [position] are keys of every node; a node without a [type]
    is a node without that key. *)
Definition spreadNode (existing node : Node.t) : Node.t :=
  {| Node.id := Node.id node;
     Node.type := match Node.type node with
                  | Some t => Some t
                  | None => Node.type existing
                  end;
     Node.position := Node.position node;
     Node.data := CfgNodeData.spread (Node.data existing) (Node.data node) |}.

(** The callback of [incoming.forEach] in [mergeNodesById]. *)
Definition mergeNodeStep (m : list (string * Node.t)) (node : Node.t)
    : list (string * Node.t) :=
  match JSMap.get m (Node.id node) with
  | Some existing => JSMap.set m (Node.id node) (spreadNode existing node)
  | None => JSMap.set m (Node.id node) node
  end.

Definition mergeNodesById (current incoming : list Node.t) : list Node.t :=
  match incoming with
  | [] => current
  | _ => (fold_left mergeNodeStep incoming (mapOf Node.id current)).*2
  end.

(** What the merge makes of an entry of the [Map] when the incoming
    nodes have distinct ids: the entry is spread with the incoming node
    of its key, if there is one. *)
Definition mergedEntry (incoming : list Node.t) (entry : string * Node.t)
    : string * Node.t :=
  (entry.1,
   match find (λ u, String.eqb (Node.id u) entry.1) incoming with
   | Some u => spreadNode entry.2 u
   | None => entry.2
   end).

Definition mergeEdgesById (current incoming : list Edge.t) : list Edge.t :=
  match incoming with
  | [] => current
  | _ =>
      (fold_left (λ m edge, JSMap.set m (buildEdgeKey edge) edge) incoming
                 (mapOf buildEdgeKey current)).*2
  end.

(** The effect on [[initialNodes, initialEdges]]: the new contents of
    [graphNodesRef] and [graphEdgesRef], before the layout. *)
Definition syncGraph (graph : list Node.t * list Edge.t)
    (initialNodes : list Node.t) (initialEdges : list Edge.t)
    : list Node.t * list Edge.t :=
  let prevNodes := graph.1 in
  let prevIds : gset string := list_to_set (map Node.id prevNodes) in
  let sharesIds :=
    (0 <? length prevNodes)%nat && (0 <? length initialNodes)%nat
    && existsb (λ node, bool_decide (Node.id node ∈ prevIds)) initialNodes in
  let shouldReplaceGraph :=
    (length prevNodes =? 0)%nat || (length initialNodes =? 0)%nat || negb sharesIds in
  if shouldReplaceGraph then (initialNodes, initialEdges)
  else (mergeNodesById graph.1 initialNodes, mergeEdgesById graph.2 initialEdges).

(** The edges of a graph name nodes of the graph. *)
Definition graphComplete (graph : list Node.t * list Edge.t) : Prop :=
  refComplete graph.1 graph.2 [].

(** ** [FinalAnalysis.tsx]: the lines of the analysis text *)

Inductive Element : Type :=
| H1 (text : string)
| H2 (text : string)
| H3 (text : string)
| Bullet (text : string)
| Br
| Div (text : string).

(** The callback of [finalAnalysis.split('\n').map]. *)
Definition renderLine (line : string) : Element :=
  if JSString.startsWith "# " line then H1 (JSString.substring 2 line)
  else if JSString.startsWith "## " line then H2 (JSString.substring 3 line)
  else if JSString.startsWith "### " line then H3 (JSString.substring 4 line)
  else if JSString.startsWith "- " line || JSString.startsWith "* " line
       then Bullet (JSString.substring 2 line)
  else if String.eqb (JS.trim line) "" then Br
  else Div line.

(** The content block: [None] is the note that no analysis is available. *)
Definition renderAnalysis (finalAnalysis : option string) : option (list Element) :=
  match finalAnalysis with
  | Some text =>
      if JS.truthy text then Some (map renderLine (JS.split "010" text)) else None
  | None => None
  end.

(** The line an element was rendered from, up to the choice of the bullet
    marker and the whitespace of a blank line. *)
Definition lineOf (e : Element) : string :=
  match e with
  | H1 t => String.append "# " t
  | H2 t => String.append "## " t
  | H3 t => String.append "### " t
  | Bullet t => String.append "- " t
  | Br => ""
  | Div t => t
  end.

(** ** [ProblemsList.tsx]: the two counters of the header *)

Definition errorCount (problems : list Problem.t) : nat :=
  length (filter (λ p, Problem.severity p = error) problems).

Definition warningCount (problems : list Problem.t) : nat :=
  length (filter (λ p, Problem.severity p = warning) problems).

(** ** Insertion order

    The keys of a [Map] and the elements of a [Set] are kept in the order
    in which they were first added. *)
Definition firstOccurrences (l : list string) : list string :=
  fold_left (λ s x, if bool_decide (x ∈ s) then s else s ++ [x]) l [].

(** ** [mergeNodesWithAnalysis] over the store

    The function again, statement by statement, on the store of the
    module above.  [merged] and [existingIds] are written to by the
    closing loop, so each is a cell; a [Set] of strings is the array of
    its elements in insertion order, and [new Set(ids)] holds the ids in
    the order of their first occurrence.  The [Map] of the updates is built
    once and then only read, so it is a value; the two arrays that [.map]
    builds for the constructors are dropped at once and are left out. *)

Module StoreApp.
Import Store.

(** The callback of [updates.forEach]. *)
Definition appendNode (merged existingIds : nat) (node : Node.t) : M unit :=
  ids ← loadStrings existingIds;
  if bool_decide (Node.id node ∈ ids) then mret ()
  else
    xs ← loadNodes merged;
    _ ← store merged (CNodes (xs ++ [node]));
    ids' ← loadStrings existingIds;
    store existingIds (CStrings (ids' ++ [Node.id node])).

Definition mergeNodesWithAnalysis (current : nat) (updates : option nat) : M nat :=
  match updates with
  | None => mret current
  | Some updates =>
      us ← loadNodes updates;
      if (length us =? 0)%nat then mret current
      else
        cs ← loadNodes current;
        existingIds ← alloc (CStrings (firstOccurrences (map Node.id cs)));
        cs' ← loadNodes current;
        merged ← alloc (CNodes (map (mergedNode us) cs'));
        us' ← loadNodes updates;
        _ ← forEach (appendNode merged existingIds) us';
        mret merged
  end.

End StoreApp.

(** * Properties *)

(** ** Lists and strings *)

Lemma lookup_map {A B} (f : A → B) (l : list A) (i : nat) :
  map f l !! i = f <$> (l !! i).
Proof. revert i. induction l as [|x l IH]; intros [|i]; simpl; auto. Qed.

Lemma elem_of_map {A B} (f : A → B) (l : list A) (y : B) :
  y ∈ map f l ↔ ∃ x, y = f x ∧ x ∈ l.
Proof. change (map f l) with (f <$> l). apply list_elem_of_fmap. Qed.

(** The sort rearranges its input, whatever the comparator. *)
Lemma sortInsert_perm {A} (cmp : A → A → Z) (x : A) (l : list A) :
  sortInsert cmp x l ≡ₚ x :: l.
Proof.
  induction l as [|y l IH]; simpl; [done|].
  destruct (_ <=? 0); [done|]. rewrite IH. apply perm_swap.
Qed.

Lemma sortBy_perm {A} (cmp : A → A → Z) (l : list A) : sortBy cmp l ≡ₚ l.
Proof.
  induction l as [|x l IH]; simpl; [done|].
  by rewrite sortInsert_perm, IH.
Qed.

Lemma split_nonempty (sep : ascii) (s : string) : JS.split sep s ≠ [].
Proof.
  destruct s as [|c r]; simpl; [discriminate|].
  destruct (Ascii.eqb c sep); [discriminate|].
  destruct (JS.split sep r); discriminate.
Qed.

Lemma split_without_sep (sep : ascii) (s : string) :
  JS.includes sep s = false → JS.split sep s = [s].
Proof.
  induction s as [|c r IH]; simpl; [reflexivity|].
  intros H. apply orb_false_iff in H as [Hc Hr].
  rewrite Hc, (IH Hr). reflexivity.
Qed.

(** A string [a ++ sep ++ b] whose halves hold no separator splits into
    exactly those halves. *)
Lemma split_two (sep : ascii) (a b : string) :
  JS.includes sep a = false → JS.includes sep b = false →
  JS.split sep (String.append a (String sep b)) = [a; b].
Proof.
  intros Ha Hb. induction a as [|c r IH]; simpl.
  - rewrite Ascii.eqb_refl, (split_without_sep _ _ Hb). reflexivity.
  - simpl in Ha. apply orb_false_iff in Ha as [Hc Hr].
    rewrite Hc, (IH Hr). reflexivity.
Qed.

Lemma split_truthy (sep : ascii) (r p0 p1 : string) :
  JS.split sep r = [p0; p1] → JS.truthy r = true.
Proof. destruct r; [discriminate | reflexivity]. Qed.

(** ** [transformApiResponseToReactFlow] *)

Lemma parseLineRange_two (r p0 p1 : string) :
  JS.split "-" r = [p0; p1] →
  parseLineRange (Some r) = (JS.parseInt p0, JS.parseInt p1).
Proof.
  intros H. unfold parseLineRange.
  rewrite (split_truthy _ _ _ _ H), H. reflexivity.
Qed.

Lemma parseLineRange_not_two (r : string) :
  length (JS.split "-" r) ≠ 2%nat → parseLineRange (Some r) = (None, None).
Proof.
  intros H. unfold parseLineRange.
  destruct (JS.truthy r); [|reflexivity].
  destruct (JS.split "-" r) as [|p0 [|p1 [|p2 ps]]]; try reflexivity.
  contradiction H; reflexivity.
Qed.

Lemma transformNode_lines (apiNode : ApiNode.t) :
  (read (CfgNodeData.lineStart (Node.data (transformNode apiNode))),
   read (CfgNodeData.lineEnd (Node.data (transformNode apiNode))))
  = parseLineRange (ApiNode.line_range apiNode).
Proof.
  unfold transformNode.
  destruct (parseLineRange (ApiNode.line_range apiNode)) as [[a|] [b|]]; reflexivity.
Qed.

(** C1: the transform emits one client node per API node, in order and
    under the same id; every emitted node has status [pending]; and the
    emitted list is empty exactly when the API node list is. *)
Theorem transform_nodes_complete (apiResponse : ApiControlFlowResponse.t) :
  let out := ControlFlowResponse.nodes (transformApiResponseToReactFlow apiResponse) in
  length out = length (ApiControlFlowResponse.nodes apiResponse)
  ∧ map Node.id out = map ApiNode.id (ApiControlFlowResponse.nodes apiResponse)
  ∧ Forall (λ node, CfgNodeData.status (Node.data node) = pending) out
  ∧ (out = [] ↔ ApiControlFlowResponse.nodes apiResponse = []).
Proof.
  destruct apiResponse as [nodes edges td]. simpl.
  repeat split.
  - apply length_map.
  - induction nodes as [|n ns IH]; simpl; [reflexivity|].
    f_equal; [|exact IH].
    unfold transformNode. destruct (parseLineRange _). reflexivity.
  - induction nodes as [|n ns IH]; simpl; constructor; [|exact IH].
    unfold transformNode. destruct (parseLineRange _). reflexivity.
  - destruct nodes; [reflexivity | discriminate].
  - intros ->. reflexivity.
Qed.

(** C5: the line bounds of an emitted node.  A [line_range] made of two
    dash-free halves that both parse gives those two integers; an absent
    [line_range], or one that does not split on the dash into exactly two
    parts, leaves both bounds undefined; a [line_range] that splits into
    two parts gives, for each bound, the integer parse of its part, which
    is undefined when the parse fails. *)
Theorem transform_line_range (apiResponse : ApiControlFlowResponse.t)
    (i : nat) (apiNode : ApiNode.t) :
  ApiControlFlowResponse.nodes apiResponse !! i = Some apiNode →
  ∃ node,
    ControlFlowResponse.nodes (transformApiResponseToReactFlow apiResponse) !! i = Some node
    ∧ let lineStart := read (CfgNodeData.lineStart (Node.data node)) in
      let lineEnd := read (CfgNodeData.lineEnd (Node.data node)) in
      (∀ pa pb a b,
          ApiNode.line_range apiNode = Some (String.append pa (String "-" pb)) →
          JS.includes "-" pa = false → JS.includes "-" pb = false →
          JS.parseInt pa = Some a → JS.parseInt pb = Some b →
          lineStart = Some a ∧ lineEnd = Some b)
      ∧ (ApiNode.line_range apiNode = None → lineStart = None ∧ lineEnd = None)
      ∧ (∀ r, ApiNode.line_range apiNode = Some r →
              length (JS.split "-" r) ≠ 2%nat →
              lineStart = None ∧ lineEnd = None)
      ∧ (∀ r p0 p1, ApiNode.line_range apiNode = Some r →
                    JS.split "-" r = [p0; p1] →
                    lineStart = JS.parseInt p0 ∧ lineEnd = JS.parseInt p1).
Proof.
  intros Hi. exists (transformNode apiNode). split.
  - simpl. rewrite lookup_map, Hi. reflexivity.
  - pose proof (transformNode_lines apiNode) as L. cbv zeta.
    split; [|split; [|split]].
    + intros pa pb a b Hr Ha Hb Pa Pb.
      rewrite Hr, (parseLineRange_two _ pa pb (split_two _ _ _ Ha Hb)), Pa, Pb in L.
      by inversion L.
    + intros Hr. rewrite Hr in L. by inversion L.
    + intros r Hr Hn. rewrite Hr, (parseLineRange_not_two _ Hn) in L. by inversion L.
    + intros r p0 p1 Hr Hs. rewrite Hr, (parseLineRange_two _ _ _ Hs) in L.
      by inversion L.
Qed.

Lemma transform_line_range_witness :
  ∃ node,
    ControlFlowResponse.nodes
      (transformApiResponseToReactFlow
         (ApiControlFlowResponse.mk
            [ApiNode.mk "n1" "x = 1" None None (Some "a.py") (Some "15-24")] [] None))
      !! 0%nat = Some node
    ∧ read (CfgNodeData.lineStart (Node.data node)) = Some 15
    ∧ read (CfgNodeData.lineEnd (Node.data node)) = Some 24.
Proof.
  destruct (transform_line_range
              (ApiControlFlowResponse.mk
                 [ApiNode.mk "n1" "x = 1" None None (Some "a.py") (Some "15-24")] [] None)
              0 (ApiNode.mk "n1" "x = 1" None None (Some "a.py") (Some "15-24"))
              eq_refl) as [node [Hn [H _]]].
  exists node. split; [exact Hn|].
  apply (H "15" "24" 15 24); reflexivity.
Defined.

(** C6: the transform emits one edge per API edge, in order, with the
    same id, [source] the API edge's [from_node], [target] its [to_node]
    and [label] its [relationship_type], undefined when the API edge has
    none. *)
Theorem transform_edges_shape (apiResponse : ApiControlFlowResponse.t) :
  let out := ControlFlowResponse.edges (transformApiResponseToReactFlow apiResponse) in
  length out = length (ApiControlFlowResponse.edges apiResponse)
  ∧ map (λ e, (Edge.id e, Edge.source e, Edge.target e, Edge.label e)) out
    = map (λ a, (ApiEdge.id a, ApiEdge.from_node a, ApiEdge.to_node a,
                 ApiEdge.relationship_type a))
          (ApiControlFlowResponse.edges apiResponse).
Proof.
  destruct apiResponse as [nodes edges td]. simpl. split.
  - apply length_map.
  - induction edges as [|e es IH]; simpl; [reflexivity|]. by rewrite IH.
Qed.

(** ** [convertNodesToBlocks] *)

Lemma truthy_nonempty (s : string) : JS.truthy s = true ↔ s ≠ "".
Proof. destruct s; simpl; split; congruence. Qed.

Lemma orZero_Some (z : Z) : orZero (Some z) = z.
Proof. unfold orZero. destruct (Z.eqb_spec z 0); congruence. Qed.

Lemma blockFilter_eligible (node : Node.t) :
  match eligibleBlock node with
  | Some b => blockFilter node = true ∧ blockOf node = b
  | None => blockFilter node = false
  end.
Proof.
  unfold eligibleBlock, blockFilter, blockOf, hasFile.
  destruct (read (CfgNodeData.file _)) as [f|]; [|reflexivity].
  destruct (read (CfgNodeData.lineStart _)) as [ls|],
           (read (CfgNodeData.lineEnd _)) as [le|];
    cbn [isDefined]; rewrite ?andb_false_r, ?andb_true_r; try reflexivity.
  destruct (decide (f = "")) as [->|Hf]; [reflexivity|].
  apply truthy_nonempty in Hf. unfold orEmpty. rewrite Hf, !orZero_Some. by split.
Qed.

(** C9: [convertNodesToBlocks] returns, in input order, the block of every
    node that has a truthy file and both line bounds defined, built from
    the node's id, file and bounds; it drops every other node, and so
    returns no more blocks than it was given nodes. *)
Theorem convertNodesToBlocks_exact (nodes : list Node.t) :
  convertNodesToBlocks nodes = omap eligibleBlock nodes
  ∧ (length (convertNodesToBlocks nodes) ≤ length nodes)%nat.
Proof.
  assert (E : convertNodesToBlocks nodes = omap eligibleBlock nodes).
  { unfold convertNodesToBlocks.
    induction nodes as [|n ns IH]; [reflexivity|].
    rewrite filter_cons. simpl omap.
    pose proof (blockFilter_eligible n) as H.
    destruct (eligibleBlock n) as [b|].
    - destruct H as [Hf Hb]. case_decide as D.
      + simpl. by rewrite Hb, IH.
      + rewrite Hf in D. exfalso. by apply D.
    - case_decide as D; [|exact IH]. rewrite H in D. destruct D. }
  split; [exact E|].
  unfold convertNodesToBlocks. rewrite length_map. apply length_filter.
Qed.

(** ** [mergeNodesWithAnalysis] *)

Lemma buildUpdateMap_fold_notin (l : list Node.t) (m : gmap string Node.t) (k : string) :
  k ∉ nodeIds l →
  fold_left (λ m node, <[Node.id node := node]> m) l m !! k = m !! k.
Proof.
  revert m. induction l as [|x l IH]; intros m Hk; [reflexivity|].
  simpl in *. apply not_elem_of_cons in Hk as [Hx Hl].
  rewrite (IH _ Hl). by apply lookup_insert_ne.
Qed.

Lemma buildUpdateMap_fold_in (l : list Node.t) (m : gmap string Node.t) (u : Node.t) :
  NoDup (nodeIds l) → u ∈ l →
  fold_left (λ m node, <[Node.id node := node]> m) l m !! Node.id u = Some u.
Proof.
  revert m. induction l as [|x l IH]; intros m Hnd Hu.
  - by apply elem_of_nil in Hu.
  - simpl in *. apply NoDup_cons in Hnd as [Hx Hnd].
    apply elem_of_cons in Hu as [->|Hu].
    + rewrite (buildUpdateMap_fold_notin _ _ _ Hx). apply lookup_insert_eq.
    + by apply IH.
Qed.

Lemma elem_of_nodeIds (l : list Node.t) (n : Node.t) : n ∈ l → Node.id n ∈ nodeIds l.
Proof. intros H. apply elem_of_map. eauto. Qed.

(** The update that [updateMap.get] finds for a current node. *)
Lemma updateMap_lookup (updates : list Node.t) (k : string) :
  NoDup (nodeIds updates) →
  buildUpdateMap updates !! k = list_find (λ u, Node.id u = k) updates ≫= (λ p, Some p.2).
Proof.
  intros Hnd. unfold buildUpdateMap.
  destruct (list_find _ updates) as [[i u]|] eqn:F; simpl.
  - apply list_find_Some in F as (Hi & <- & _).
    apply buildUpdateMap_fold_in; [done|]. by eapply list_elem_of_lookup_2.
  - rewrite buildUpdateMap_fold_notin; [apply lookup_empty|].
    intros Hk. apply elem_of_map in Hk as (u & -> & Hu).
    eapply list_find_None in F. rewrite Forall_forall in F. by apply (F u).
Qed.

Lemma filter_ext_elem {A} (P Q : A → Prop) `{∀ x, Decision (P x)} `{∀ x, Decision (Q x)}
    (l : list A) :
  (∀ x, x ∈ l → P x ↔ Q x) → filter P l = filter Q l.
Proof.
  induction l as [|x l IH]; intros E; [reflexivity|].
  rewrite !filter_cons.
  assert (Hx : P x ↔ Q x) by (apply E; left).
  rewrite IH by (intros y Hy; apply E; by right).
  destruct (decide (P x)), (decide (Q x)); tauto.
Qed.

Lemma appendStep_fold (l acc : list Node.t) (S : gset string) :
  NoDup (nodeIds l) →
  (fold_left appendStep l (acc, S)).1 = acc ++ filter (λ u, Node.id u ∉ S) l.
Proof.
  revert acc S. induction l as [|x l IH]; intros acc S Hnd; simpl.
  - by rewrite app_nil_r.
  - simpl in Hnd. apply NoDup_cons in Hnd as [Hx Hnd].
    rewrite filter_cons. destruct (decide (Node.id x ∈ S)) as [Hin|Hin].
    + rewrite decide_False by (intros H; by apply H). by apply IH.
    + rewrite decide_True by done. rewrite (IH _ _ Hnd), <- app_assoc. simpl.
      do 2 f_equal. apply filter_ext_elem.
      intros u Hu. split; [set_solver|].
      intros HS Hin'. apply elem_of_union in Hin' as [Heq|?]; [|done].
      apply elem_of_singleton in Heq. apply Hx. rewrite <- Heq.
      by apply elem_of_nodeIds.
Qed.

Lemma mergedNode_id (updates : list Node.t) (node : Node.t) :
  Node.id (mergedNode updates node) = Node.id node.
Proof. unfold mergedNode. by destruct (_ !! _). Qed.

Lemma mergeNodesWithAnalysis_shape (current updates : list Node.t) :
  NoDup (nodeIds updates) →
  mergeNodesWithAnalysis current (Some updates)
  = map (mergedNode updates) current
    ++ filter (λ u, Node.id u ∉ nodeIds current) updates.
Proof.
  intros Hnd. destruct updates as [|u us].
  - simpl. rewrite app_nil_r. unfold mergedNode, buildUpdateMap. simpl.
    induction current as [|n ns IH]; simpl; [done|].
    by rewrite lookup_empty, <- IH.
  - unfold mergeNodesWithAnalysis. rewrite (appendStep_fold _ _ _ Hnd).
    f_equal. apply list_filter_iff. intros x.
    by rewrite elem_of_list_to_set.
Qed.

Lemma nodeIds_merged (updates current : list Node.t) :
  nodeIds (map (mergedNode updates) current) = nodeIds current.
Proof.
  unfold nodeIds. induction current as [|n ns IH]; simpl; [done|].
  by rewrite mergedNode_id, IH.
Qed.

Lemma nodeIds_app (l k : list Node.t) : nodeIds (l ++ k) = nodeIds l ++ nodeIds k.
Proof. apply map_app. Qed.

Lemma elem_of_nodeIds_filter (P : Node.t → Prop) `{∀ x, Decision (P x)}
    (l : list Node.t) (k : string) :
  k ∈ nodeIds (filter P l) ↔ ∃ u, u ∈ l ∧ P u ∧ Node.id u = k.
Proof.
  unfold nodeIds. rewrite elem_of_map. split.
  - intros (u & -> & Hu). apply list_elem_of_filter in Hu as [? ?]. eauto.
  - intros (u & Hu & HP & <-). exists u. split; [done|].
    apply list_elem_of_filter. eauto.
Qed.

Lemma NoDup_nodeIds_filter (P : Node.t → Prop) `{∀ x, Decision (P x)} (l : list Node.t) :
  NoDup (nodeIds l) → NoDup (nodeIds (filter P l)).
Proof.
  unfold nodeIds. induction l as [|x l IH]; intros Hnd; [constructor|].
  simpl in Hnd. apply NoDup_cons in Hnd as [Hx Hnd].
  rewrite filter_cons. destruct (decide (P x)); [|by apply IH].
  simpl. apply NoDup_cons. split; [|by apply IH].
  intros Hin. apply Hx. apply elem_of_map in Hin as (u & -> & Hu).
  apply list_elem_of_filter in Hu as [_ Hu]. apply elem_of_map. eauto.
Qed.

(** Every id of [current] and of [updates] is an id of the merged list,
    whatever the lists hold. *)
Lemma mergeNodesWithAnalysis_ids_current (current : list Node.t)
    (updates : option (list Node.t)) (k : string) :
  k ∈ nodeIds current → k ∈ nodeIds (mergeNodesWithAnalysis current updates).
Proof.
  intros Hk. destruct updates as [[|u us]|]; try done.
  unfold mergeNodesWithAnalysis.
  set (merged := map _ current).
  assert (Hm : k ∈ nodeIds merged).
  { subst merged. by rewrite nodeIds_merged. }
  clearbody merged. generalize (list_to_set (map Node.id current) : gset string).
  revert merged Hm. generalize (u :: us). intros l.
  induction l as [|x l IH]; intros merged Hm S; [done|].
  simpl. unfold appendStep at 1. destruct (decide (Node.id x ∈ S)); [by apply IH|].
  apply IH. rewrite nodeIds_app. apply elem_of_app. by left.
Qed.

(** ** Referential completeness *)

Lemma refComplete_mono (nodes nodes' : list Node.t) (edges : list Edge.t)
    (problems : list Problem.t) :
  (∀ k, k ∈ nodeIds nodes → k ∈ nodeIds nodes') →
  refComplete nodes edges problems → refComplete nodes' edges problems.
Proof.
  intros Hsub [He Hp]. split.
  - eapply Forall_impl; [exact He|]. intros e [? ?]. split; by apply Hsub.
  - eapply Forall_impl; [exact Hp|]. intros p ?. by apply Hsub.
Qed.



(** C8: [mergeNodesWithAnalysis] on lists with pairwise-distinct ids.
    Without updates the current list comes back as it is.  Otherwise every
    id of either list occurs once in the result; a current node without an
    update stays at its position unchanged; a current node with an update
    stays at its position with its own id, type and position, and its data
    is settled key by key: the four keys every data object has take the
    update's value, and each optional key takes the update's entry when
    the update has that key (also when the entry is [undefined]) and the
    current entry when the update lacks the key; the result lists the
    current ids in order, followed by the update-only nodes in the order
    of the updates. *)
Theorem mergeNodesWithAnalysis_spec :
  (∀ current, mergeNodesWithAnalysis current None = current
              ∧ mergeNodesWithAnalysis current (Some []) = current)
  ∧ (∀ current updates,
        NoDup (nodeIds current) → NoDup (nodeIds updates) →
        let merged := mergeNodesWithAnalysis current (Some updates) in
        NoDup (nodeIds merged)
        ∧ (∀ k, k ∈ nodeIds merged ↔ k ∈ nodeIds current ∨ k ∈ nodeIds updates)
        ∧ (∀ i node, current !! i = Some node →
                     Node.id node ∉ nodeIds updates →
                     merged !! i = Some node)
        ∧ (∀ i node update,
              current !! i = Some node → update ∈ updates →
              Node.id update = Node.id node →
              ∃ m, merged !! i = Some m
                ∧ Node.id m = Node.id node
                ∧ Node.type m = Node.type node
                ∧ Node.position m = Node.position node
                ∧ CfgNodeData.blockId (Node.data m)
                  = CfgNodeData.blockId (Node.data update)
                ∧ CfgNodeData.blockName (Node.data m)
                  = CfgNodeData.blockName (Node.data update)
                ∧ CfgNodeData.codeSnippet (Node.data m)
                  = CfgNodeData.codeSnippet (Node.data update)
                ∧ CfgNodeData.status (Node.data m)
                  = CfgNodeData.status (Node.data update)
                ∧ (CfgNodeData.file (Node.data update) ≠ Missing →
                   CfgNodeData.file (Node.data m) = CfgNodeData.file (Node.data update))
                ∧ (CfgNodeData.file (Node.data update) = Missing →
                   CfgNodeData.file (Node.data m) = CfgNodeData.file (Node.data node))
                ∧ (CfgNodeData.lineStart (Node.data update) ≠ Missing →
                   CfgNodeData.lineStart (Node.data m)
                   = CfgNodeData.lineStart (Node.data update))
                ∧ (CfgNodeData.lineStart (Node.data update) = Missing →
                   CfgNodeData.lineStart (Node.data m)
                   = CfgNodeData.lineStart (Node.data node))
                ∧ (CfgNodeData.lineEnd (Node.data update) ≠ Missing →
                   CfgNodeData.lineEnd (Node.data m)
                   = CfgNodeData.lineEnd (Node.data update))
                ∧ (CfgNodeData.lineEnd (Node.data update) = Missing →
                   CfgNodeData.lineEnd (Node.data m)
                   = CfgNodeData.lineEnd (Node.data node))
                ∧ (CfgNodeData.executionCount (Node.data update) ≠ Missing →
                   CfgNodeData.executionCount (Node.data m)
                   = CfgNodeData.executionCount (Node.data update))
                ∧ (CfgNodeData.executionCount (Node.data update) = Missing →
                   CfgNodeData.executionCount (Node.data m)
                   = CfgNodeData.executionCount (Node.data node)))
        ∧ nodeIds (take (length current) merged) = nodeIds current
        ∧ drop (length current) merged
          = filter (λ u, Node.id u ∉ nodeIds current) updates).
Proof.
  split; [done|].
  intros current updates Hc Hu merged.
  assert (E : merged = map (mergedNode updates) current
                       ++ filter (λ u, Node.id u ∉ nodeIds current) updates)
    by (by apply mergeNodesWithAnalysis_shape).
  assert (L : length (map (mergedNode updates) current) = length current)
    by apply length_map.
  clearbody merged. subst merged.
  split; [|split; [|split; [|split; [|split]]]].
  - rewrite nodeIds_app, nodeIds_merged. apply NoDup_app. split; [done|].
    split; [|by apply NoDup_nodeIds_filter].
    intros k Hk Hk'. apply elem_of_nodeIds_filter in Hk' as (u & _ & Hn & <-). done.
  - intros k. rewrite nodeIds_app, nodeIds_merged, elem_of_app, elem_of_nodeIds_filter.
    split.
    + intros [?|(u & Hin & _ & <-)]; [by left|]. right. by apply elem_of_nodeIds.
    + intros [?|Hk]; [by left|].
      destruct (decide (k ∈ nodeIds current)); [by left|]. right.
      apply elem_of_map in Hk as (u & -> & Hin). eauto.
  - intros i node Hi Hn.
    rewrite lookup_app_l by (rewrite L; by eapply lookup_lt_Some).
    rewrite lookup_map, Hi. simpl. f_equal. unfold mergedNode.
    rewrite updateMap_lookup by done.
    destruct (list_find _ updates) as [[j u]|] eqn:F; [|done].
    apply list_find_Some in F as (Hj & Hid & _). exfalso. apply Hn.
    rewrite <- Hid. apply elem_of_nodeIds. by eapply list_elem_of_lookup_2.
  - intros i node update Hi Hin Hid.
    exists (mergedNode updates node). split.
    { rewrite lookup_app_l by (rewrite L; by eapply lookup_lt_Some).
      by rewrite lookup_map, Hi. }
    unfold mergedNode.
    rewrite <- Hid, (buildUpdateMap_fold_in updates ∅ update Hu Hin : buildUpdateMap _ !! _ = _).
    rewrite Hid. cbn [applyUpdate CfgNodeData.spread Node.id Node.type Node.position
                      Node.data CfgNodeData.blockId CfgNodeData.blockName
                      CfgNodeData.codeSnippet CfgNodeData.status CfgNodeData.file
                      CfgNodeData.lineStart CfgNodeData.lineEnd
                      CfgNodeData.executionCount].
    repeat (split; [reflexivity|]).
    destruct (CfgNodeData.file (Node.data update)),
             (CfgNodeData.lineStart (Node.data update)),
             (CfgNodeData.lineEnd (Node.data update)),
             (CfgNodeData.executionCount (Node.data update));
      cbn [spreadKey]; repeat split; intros; congruence.
  - rewrite <- L, take_app_length. apply nodeIds_merged.
  - by rewrite <- L, drop_app_length.
Qed.

Lemma mergeNodesWithAnalysis_spec_witness :
  NoDup (nodeIds (mergeNodesWithAnalysis MockCounter.initialNodes
                                         (Some SampleAnalysis.nodes)))
  ∧ drop (length MockCounter.initialNodes)
         (mergeNodesWithAnalysis MockCounter.initialNodes (Some SampleAnalysis.nodes))
    = filter (λ u, Node.id u ∉ nodeIds MockCounter.initialNodes) SampleAnalysis.nodes
  ∧ (∃ m, mergeNodesWithAnalysis MockCounter.initialNodes (Some SampleAnalysis.nodes)
            !! 2%nat = Some m
          ∧ Node.position m = (100, 300)
          ∧ CfgNodeData.status (Node.data m) = failed
          ∧ CfgNodeData.file (Node.data m) = Defined "counter.py"
          ∧ CfgNodeData.lineStart (Node.data m) = Defined 13
          ∧ CfgNodeData.executionCount (Node.data m) = Defined 2)
  ∧ (∃ m, mergeNodesWithAnalysis MockCounter.initialNodes (Some SampleAnalysis.nodes)
            !! 3%nat = Some m
          ∧ Node.position m = (400, 300)
          ∧ CfgNodeData.status (Node.data m) = succeeded
          ∧ CfgNodeData.file (Node.data m) = Undefined
          ∧ CfgNodeData.lineEnd (Node.data m) = Defined 15
          ∧ CfgNodeData.executionCount (Node.data m) = Defined 1).
Proof.
  assert (Hc : NoDup (nodeIds MockCounter.initialNodes))
    by compute_done.
  assert (Hu : NoDup (nodeIds SampleAnalysis.nodes))
    by compute_done.
  destruct (proj2 mergeNodesWithAnalysis_spec
              MockCounter.initialNodes SampleAnalysis.nodes Hc Hu)
    as (H1 & _ & _ & H4 & _ & H6).
  split; [exact H1|]. split; [exact H6|]. split.
  - destruct (H4 2%nat
                (Node.mk "block-C" (Some "cfgNode") (100, 300)
                   (CfgNodeData.mk "block-C" "Block C" "cnt += 2" failed
                      (Defined "counter.py") (Defined 13) (Defined 13) Missing))
                (Node.mk "block-C" (Some "cfgNode") (0, 0)
                   (CfgNodeData.mk "block-C" "Block C" "cnt += 2" failed
                      Missing Missing Missing (Defined 2))))
      as (m & Hm & _ & _ & Hpos & _ & _ & _ & Hst & _ & Hfile & _ & Hls & _ & _ & Hec & _);
      [reflexivity | left | reflexivity |].
    exists m. split; [exact Hm|]. split; [exact Hpos|]. split; [exact Hst|].
    split; [by apply Hfile|]. split; [by apply Hls | by apply Hec].
  - destruct (H4 3%nat
                (Node.mk "block-D" (Some "cfgNode") (400, 300)
                   (CfgNodeData.mk "block-D" "Block D" "pass" pending
                      (Defined "counter.py") (Defined 15) (Defined 15) Missing))
                (Node.mk "block-D" (Some "cfgNode") (0, 0)
                   (CfgNodeData.mk "block-D" "Block D" "pass" succeeded
                      Undefined Missing Missing (Defined 1))))
      as (m & Hm & _ & _ & Hpos & _ & _ & _ & Hst & Hfile & _ & _ & _ & _ & Hle & Hec & _);
      [reflexivity | right; left | reflexivity |].
    exists m. split; [exact Hm|]. split; [exact Hpos|]. split; [exact Hst|].
    split; [by apply Hfile|]. split; [by apply Hle | by apply Hec].
Defined.

(** ** [handleNodeClick] *)

(** [find] returns the first element that passes, with only failing
    elements in front of it. *)
Lemma find_first {A} (f : A → bool) (l : list A) (x : A) :
  find f l = Some x →
  ∃ pre post, l = pre ++ x :: post ∧ f x = true ∧ Forall (λ y, f y = false) pre.
Proof.
  induction l as [|y l IH]; simpl; [discriminate|].
  destruct (f y) eqn:Fy.
  - intros [= ->]. exists [], l. by repeat split.
  - intros H. destruct (IH H) as (pre & post & -> & Fx & Hpre).
    exists (y :: pre), post. repeat split; [done|]. by constructor.
Qed.

Lemma find_exists {A} (f : A → bool) (l : list A) (x : A) :
  x ∈ l → f x = true → ∃ y, find f l = Some y.
Proof.
  induction l as [|z l IH]; intros Hin Fx; [by apply elem_of_nil in Hin|].
  simpl. destruct (f z) eqn:Fz; [eauto|].
  apply elem_of_cons in Hin as [->|Hin]; [congruence | by apply IH].
Qed.

Lemma find_filter {A} (P : A → Prop) `{∀ x, Decision (P x)} (f : A → bool) (l : list A) :
  find f (filter P l) = find (λ x, bool_decide (P x) && f x) l.
Proof.
  induction l as [|x l IH]; [reflexivity|].
  rewrite filter_cons. simpl. destruct (decide (P x)) as [HP|HP].
  - rewrite (bool_decide_eq_true_2 _ HP). simpl. by rewrite IH.
  - by rewrite (bool_decide_eq_false_2 _ HP).
Qed.

Lemma handleNodeClick_first_failed (st : AppState.t) (nodeId : string) :
  (∃ s, s ∈ AppState.steps st
        ∧ RuntimeStep.blockId s = nodeId ∧ RuntimeStep.status s = failed) →
  ∃ pre s post,
    AppState.steps st = pre ++ s :: post
    ∧ RuntimeStep.blockId s = nodeId ∧ RuntimeStep.status s = failed
    ∧ Forall (λ s', ¬ (RuntimeStep.blockId s' = nodeId ∧ RuntimeStep.status s' = failed)) pre
    ∧ AppState.activeStepId (handleNodeClick st nodeId) = Some (RuntimeStep.id s)
    ∧ AppState.activeNodeId (handleNodeClick st nodeId) = Some nodeId.
Proof.
  intros (s0 & Hin & Hb & Hs).
  set (f := λ s, bool_decide (RuntimeStep.blockId s = nodeId)
                 && bool_decide (RuntimeStep.status s = failed)).
  destruct (find_exists f (AppState.steps st) s0 Hin) as [s Fs].
  { unfold f. by rewrite !bool_decide_eq_true_2. }
  destruct (find_first _ _ _ Fs) as (pre & post & E & Hf & Hpre).
  unfold f in Hf. apply andb_true_iff in Hf as [Hf1 Hf2].
  apply bool_decide_eq_true in Hf1, Hf2.
  exists pre, s, post. repeat split; try done.
  - eapply Forall_impl; [exact Hpre|]. intros s' Hs' [H1 H2].
    unfold f in Hs'. by rewrite !bool_decide_eq_true_2 in Hs'.
  - unfold handleNodeClick, stepsOfNode. simpl.
    rewrite find_filter. fold f. rewrite Fs.
    assert (Hne : s ∈ filter (λ s, RuntimeStep.blockId s = nodeId) (AppState.steps st)).
    { apply list_elem_of_filter. split; [done|]. rewrite E. set_solver. }
    destruct (filter _ _); [by apply elem_of_nil in Hne | reflexivity].
Qed.

(** ** [FailureLocator] *)

Section LocatorFacts.
Variable divergent : ExecutionTrace.t → nat → TraceEvent.t → list string.
Variable terminalDivergent : TraceEvent.t → list string.
Variable oracleVariable : string.

#[local] Abbreviation walk := (FailureLocator.walk divergent oracleVariable).
#[local] Abbreviation disagreementsFrom := (FailureLocator.disagreementsFrom divergent).

Lemma ranked_nil (vs : list string) :
  FailureLocator.ranked oracleVariable vs = [] → vs = [].
Proof.
  unfold FailureLocator.ranked. destruct vs as [|v vs]; [done|].
  rewrite !filter_cons. destruct (decide (v = oracleVariable)).
  - rewrite decide_False by tauto. discriminate.
  - rewrite decide_True by done. intros H. apply app_eq_nil in H as [_ H]. discriminate.
Qed.

Lemma nodesAt_step (i : nat) (e : TraceEvent.t) (vs : list string) (fn : FailureNode.t) :
  fn ∈ FailureLocator.nodesAt oracleVariable i e vs →
  FailureNode.step fn = i ∧ FailureNode.block fn = TraceEvent.block e.
Proof.
  unfold FailureLocator.nodesAt. intros H.
  apply list_elem_of_lookup in H as [r H].
  rewrite list_lookup_imap in H.
  destruct (_ !! r); simpl in H; [|discriminate]. by inversion H.
Qed.

Lemma nodesAt_nil (i : nat) (e : TraceEvent.t) (vs : list string) :
  FailureLocator.nodesAt oracleVariable i e vs = [] → vs = [].
Proof.
  unfold FailureLocator.nodesAt. intros H. apply ranked_nil.
  destruct (FailureLocator.ranked _ _); [done | discriminate].
Qed.

Lemma disagreementsFrom_ge (p : ExecutionTrace.t) (i k : nat) (evs : list TraceEvent.t) :
  k ∈ disagreementsFrom p i evs → (i ≤ k)%nat.
Proof.
  revert i. induction evs as [|e evs IH]; intros i H; [by apply elem_of_nil in H|].
  simpl in H. destruct (divergent p i e).
  - apply IH in H. lia.
  - apply elem_of_cons in H as [->|H]; [lia|]. apply IH in H. lia.
Qed.

(** The walk reports the first disagreement: its step is a disagreement,
    and no disagreement comes before it. *)
Lemma walk_earliest (p : ExecutionTrace.t) (i : nat) (evs : list TraceEvent.t)
    (fn : FailureNode.t) :
  fn ∈ walk p i evs →
  FailureNode.step fn ∈ disagreementsFrom p i evs
  ∧ ∀ k, k ∈ disagreementsFrom p i evs → (FailureNode.step fn ≤ k)%nat.
Proof.
  revert i. induction evs as [|e evs IH]; intros i H; [by apply elem_of_nil in H|].
  simpl in *. destruct (divergent p i e) as [|v vs] eqn:D.
  - by apply IH.
  - apply nodesAt_step in H as [-> _]. split; [by left|].
    intros k Hk. apply elem_of_cons in Hk as [->|Hk]; [lia|].
    apply disagreementsFrom_ge in Hk. lia.
Qed.

(** Where there is a disagreement, the walk reports a failure node. *)
Lemma walk_reports (p : ExecutionTrace.t) (i : nat) (evs : list TraceEvent.t) :
  disagreementsFrom p i evs ≠ [] → walk p i evs ≠ [].
Proof.
  revert i. induction evs as [|e evs IH]; intros i H; [done|].
  simpl in *. destruct (divergent p i e) as [|v vs] eqn:D; [by apply IH|].
  intros N. by apply nodesAt_nil in N.
Qed.

Lemma locate_earliest (failing passing : ExecutionTrace.t) (j : nat) :
  FailureLocator.finalDisagreement divergent failing passing = Some j →
  let reported :=
    FailureLocator.locate divergent terminalDivergent oracleVariable
                          failing (Some passing) in
  reported ≠ []
  ∧ ∀ fn, fn ∈ reported →
      FailureNode.step fn ∈ FailureLocator.disagreements divergent failing passing
      ∧ (∀ k, k ∈ FailureLocator.disagreements divergent failing passing →
              (FailureNode.step fn ≤ k)%nat)
      ∧ (FailureNode.step fn ≤ j)%nat.
Proof.
  unfold FailureLocator.finalDisagreement, FailureLocator.disagreements,
    FailureLocator.locate.
  intros Hj. simpl. split.
  - apply walk_reports. intros N. by rewrite N in Hj.
  - intros fn Hfn. destruct (walk_earliest _ _ _ _ Hfn) as [H1 H2].
    repeat split; [done..|]. apply H2.
    apply last_Some in Hj as [l' ->]. set_solver.
Qed.

End LocatorFacts.

(** C3: the reported failure point is the earliest disagreement.  With a
    passing comparison trace, every failure node the locator reports sits
    at a disagreeing step that no disagreement precedes, so its step is at
    most that of the final disagreement, and a node is reported whenever
    there is a disagreement.  On the client, clicking a node that has a
    failed step activates the first failed step of that node in execution
    order. *)
Theorem earliest_failure_first :
  (∀ divergent terminalDivergent oracleVariable failing passing j,
      FailureLocator.finalDisagreement divergent failing passing = Some j →
      let reported :=
        FailureLocator.locate divergent terminalDivergent oracleVariable
                              failing (Some passing) in
      reported ≠ []
      ∧ ∀ fn, fn ∈ reported →
          FailureNode.step fn ∈ FailureLocator.disagreements divergent failing passing
          ∧ (∀ k, k ∈ FailureLocator.disagreements divergent failing passing →
                  (FailureNode.step fn ≤ k)%nat)
          ∧ (FailureNode.step fn ≤ j)%nat)
  ∧ (∀ st nodeId,
        (∃ s, s ∈ AppState.steps st
              ∧ RuntimeStep.blockId s = nodeId ∧ RuntimeStep.status s = failed) →
        ∃ pre s post,
          AppState.steps st = pre ++ s :: post
          ∧ RuntimeStep.blockId s = nodeId ∧ RuntimeStep.status s = failed
          ∧ Forall (λ s', ¬ (RuntimeStep.blockId s' = nodeId
                             ∧ RuntimeStep.status s' = failed)) pre
          ∧ AppState.activeStepId (handleNodeClick st nodeId) = Some (RuntimeStep.id s)
          ∧ AppState.activeNodeId (handleNodeClick st nodeId) = Some nodeId).
Proof.
  split.
  - intros. by apply locate_earliest.
  - apply handleNodeClick_first_failed.
Qed.

Lemma earliest_failure_first_witness :
  (FailureNode.step (FailureNode.mk "b1" 1 "y" 0) ≤ 2)%nat
  ∧ ∃ pre s post,
      MockCounter.mockSteps = pre ++ s :: post
      ∧ RuntimeStep.blockId s = "block-C" ∧ RuntimeStep.status s = failed
      ∧ Forall (λ s', ¬ (RuntimeStep.blockId s' = "block-C"
                         ∧ RuntimeStep.status s' = failed)) pre
      ∧ AppState.activeStepId
          (handleNodeClick (AppState.mk MockCounter.mockSteps None None) "block-C")
        = Some (RuntimeStep.id s)
      ∧ AppState.activeNodeId
          (handleNodeClick (AppState.mk MockCounter.mockSteps None None) "block-C")
        = Some "block-C".
Proof.
  split.
  - destruct (proj1 earliest_failure_first
                SampleSession.divergent SampleSession.terminalDivergent "result"
                SampleSession.failing SampleSession.passing 2%nat eq_refl)
      as [_ H].
    apply (H (FailureNode.mk "b1" 1 "y" 0)). vm_compute. left.
  - apply (proj2 earliest_failure_first
             (AppState.mk MockCounter.mockSteps None None) "block-C").
    exists (RuntimeStep.mk "step-5" "block-C" "Block C" "cnt += 2" failed
              (Some "cnt increments by 2, should be 1")).
    split; [|by split]. simpl. set_solver.
Defined.

(** ** [SliceExtractor] *)

Lemma length_remove_dups {A} `{EqDecision A} (l : list A) :
  (length (remove_dups l) ≤ length l)%nat.
Proof.
  induction l as [|x l IH]; simpl; [lia|].
  destruct (decide_rel elem_of x l); simpl; lia.
Qed.

Section ExtractorFacts.
Variable cfg : ControlFlowGraph.t.
Variable trace : ExecutionTrace.t.
Variable failureNodes : list FailureNode.t.
Variable K : nat.

#[local] Abbreviation traverse := (SliceExtractor.traverse cfg trace failureNodes K).

(** The traversal only appends: what it had visited within the budget
    stays in front. *)
Lemma traverse_keeps_visited (fuel : nat) (visited frontier : list string) :
  take K visited `prefix_of` take K (traverse fuel visited frontier).
Proof.
  revert visited frontier. induction fuel as [|fuel IH]; intros visited frontier.
  - simpl. destruct (K <=? length visited)%nat; [|done].
    by rewrite take_take, Nat.min_id.
  - simpl. destruct (K <=? length visited)%nat.
    { by rewrite take_take, Nat.min_id. }
    destruct (SliceExtractor.nextLayer _ _ _ _ _) as [|b layer]; [done|].
    etrans; [|apply IH]. rewrite take_app. by apply prefix_app_r.
Qed.

Lemma sliceBlocks_bounded :
  (length (SliceExtractor.sliceBlocks cfg trace failureNodes K) ≤ K)%nat.
Proof. unfold SliceExtractor.sliceBlocks. rewrite length_take. lia. Qed.

Lemma sliceBlocks_seeds :
  (length (SliceExtractor.seeds failureNodes) ≤ K)%nat →
  SliceExtractor.seeds failureNodes
    `prefix_of` SliceExtractor.sliceBlocks cfg trace failureNodes K.
Proof.
  intros H. unfold SliceExtractor.sliceBlocks.
  rewrite <- (take_ge (SliceExtractor.seeds failureNodes) K H) at 1.
  apply traverse_keeps_visited.
Qed.

Lemma sliceBlocks_covering (fn : FailureNode.t) :
  (length (SliceExtractor.seeds failureNodes) ≤ K)%nat →
  fn ∈ failureNodes →
  FailureNode.block fn ∈ SliceExtractor.sliceBlocks cfg trace failureNodes K.
Proof.
  intros H Hfn. destruct (sliceBlocks_seeds H) as [rest ->].
  apply elem_of_app. left. unfold SliceExtractor.seeds.
  apply elem_of_remove_dups, list_elem_of_fmap. eauto.
Qed.

#[local] Abbreviation expand := (SliceExtractor.expand cfg).
#[local] Abbreviation nextLayer := (SliceExtractor.nextLayer cfg trace failureNodes).
#[local] Abbreviation edgeSources := (SliceExtractor.edgeSources cfg).

Lemma expand_source (b p : string) : p ∈ expand b → p ∈ edgeSources.
Proof.
  unfold SliceExtractor.expand, SliceExtractor.edgeSources.
  destruct (decide _); [by intros ?%elem_of_nil|].
  unfold SliceExtractor.predecessors. intros Hp.
  apply elem_of_remove_dups. apply list_elem_of_fmap in Hp as (e & -> & He).
  apply list_elem_of_filter in He as [_ He]. apply list_elem_of_fmap. eauto.
Qed.

(** A layer holds exactly the unvisited predecessors of the frontier. *)
Lemma elem_of_nextLayer (visited frontier : list string) (p : string) :
  p ∈ nextLayer visited frontier
  ↔ (p ∉ visited) ∧ ∃ b, b ∈ frontier ∧ p ∈ expand b.
Proof.
  unfold SliceExtractor.nextLayer.
  rewrite sortBy_perm, elem_of_remove_dups, list_elem_of_filter, list_elem_of_bind.
  split.
  - intros [Hv (b & Hp & Hb)]. eauto.
  - intros [Hv (b & Hb & Hp)]. eauto.
Qed.

(** A round that finds a layer leaves fewer edge sources unvisited. *)
Lemma unvisited_decreases (visited frontier : list string) :
  nextLayer visited frontier ≠ [] →
  (length (filter (λ s, s ∉ visited ++ nextLayer visited frontier) edgeSources)
   < length (filter (λ s, s ∉ visited) edgeSources))%nat.
Proof.
  intros Hne. destruct (nextLayer visited frontier) as [|p layer] eqn:L; [done|].
  assert (Hp : p ∈ nextLayer visited frontier) by (rewrite L; left).
  apply elem_of_nextLayer in Hp as (Hv & b & _ & Hb).
  rewrite (list_filter_iff _ (λ s, (s ∉ p :: layer) ∧ (s ∉ visited)))
    by (intros s; rewrite elem_of_app; tauto).
  rewrite <- list_filter_filter.
  apply (length_filter_lt _ _ p).
  - apply list_elem_of_filter. split; [done|]. by eapply expand_source.
  - intros Hn. apply Hn. left.
Qed.

(** With budget to spare the traversal stops only when every visited
    block has its predecessors visited. *)
Lemma traverse_closed (fuel : nat) (visited frontier : list string) :
  (length (filter (λ s, s ∉ visited) edgeSources) < fuel)%nat →
  (∀ b, b ∈ visited → b ∉ frontier → ∀ p, p ∈ expand b → p ∈ visited) →
  (length (traverse fuel visited frontier) < K)%nat →
  ∀ b, b ∈ traverse fuel visited frontier →
       ∀ p, p ∈ expand b → p ∈ traverse fuel visited frontier.
Proof.
  revert visited frontier. induction fuel as [|fuel IH];
    intros visited frontier Hfuel Hinv; [lia|].
  simpl. destruct (Nat.leb_spec K (length visited)) as [HK|HK].
  { rewrite length_take. lia. }
  destruct (nextLayer visited frontier) as [|q layer] eqn:L.
  - intros _ b Hb p Hp. destruct (decide (b ∈ frontier)) as [Hf|Hf]; [|by eapply Hinv].
    destruct (decide (p ∈ visited)) as [|Hn]; [done|].
    assert (Hin : p ∈ nextLayer visited frontier) by (apply elem_of_nextLayer; eauto).
    rewrite L in Hin. by apply elem_of_nil in Hin.
  - rewrite <- L. apply IH.
    + pose proof (unvisited_decreases visited frontier) as Hd.
      rewrite L in Hd at 1. specialize (Hd ltac:(done)). lia.
    + intros b Hb Hnl p Hp. apply elem_of_app.
      apply elem_of_app in Hb as [Hb|Hb]; [|done].
      destruct (decide (b ∈ frontier)) as [Hf|Hf]; [|left; by eapply Hinv].
      destruct (decide (p ∈ visited)) as [|Hn]; [by left|].
      right. apply elem_of_nextLayer. eauto.
Qed.

Lemma sliceBlocks_closed :
  (length (SliceExtractor.sliceBlocks cfg trace failureNodes K) < K)%nat →
  ∀ b, b ∈ SliceExtractor.sliceBlocks cfg trace failureNodes K →
       ∀ p, p ∈ expand b → p ∈ SliceExtractor.sliceBlocks cfg trace failureNodes K.
Proof.
  unfold SliceExtractor.sliceBlocks. intros Hlen.
  rewrite length_take in Hlen.
  rewrite take_ge by lia. apply traverse_closed; [| |lia].
  - eapply Nat.le_lt_trans; [apply length_filter|].
    unfold SliceExtractor.edgeSources.
    eapply Nat.le_lt_trans; [apply length_remove_dups|].
    rewrite length_fmap. lia.
  - intros b Hb Hn. done.
Qed.

End ExtractorFacts.

(** A list that repeats one element has at most one distinct element. *)
Lemma remove_dups_constant {A} `{EqDecision A} (l : list A) (b : A) :
  Forall (λ x, x = b) l → (length (remove_dups l) ≤ 1)%nat.
Proof.
  induction l as [|x l IH]; intros H; [simpl; lia|].
  apply Forall_cons in H as [-> H]. simpl.
  destruct (decide_rel elem_of b l) as [|Hn]; [by apply IH|].
  destruct l as [|y l]; [simpl; lia|].
  apply Forall_cons in H as [-> _]. exfalso. apply Hn. by left.
Qed.

(** The failure nodes the locator reports share one block. *)
Lemma locate_one_block divergent terminalDivergent oracleVariable failing passing :
  (length (SliceExtractor.seeds
             (FailureLocator.locate divergent terminalDivergent oracleVariable
                                    failing passing)) ≤ 1)%nat.
Proof.
  assert (W : ∀ p i evs, ∃ b,
             Forall (λ fn, FailureNode.block fn = b)
                    (FailureLocator.walk divergent oracleVariable p i evs)).
  { intros p i evs. revert i. induction evs as [|e evs IH]; intros i.
    - exists "". constructor.
    - simpl. destruct (divergent p i e) eqn:D; [apply IH|].
      exists (TraceEvent.block e). apply Forall_forall. intros fn Hfn.
      by apply nodesAt_step in Hfn as [_ ?]. }
  assert (∃ b, Forall (λ fn, FailureNode.block fn = b)
                 (FailureLocator.locate divergent terminalDivergent oracleVariable
                                        failing passing)) as [b Hb].
  { destruct passing as [p|]; simpl; [apply W|].
    destruct (last _) as [e|]; [|exists ""; constructor].
    exists (TraceEvent.block e). apply Forall_forall. intros fn Hfn.
    by apply nodesAt_step in Hfn as [_ ?]. }
  unfold SliceExtractor.seeds. apply (remove_dups_constant _ b).
  by apply Forall_fmap.
Qed.

(** No list of blocks within the ceiling holds the blocks of failure
    nodes that sit in more distinct blocks than the ceiling allows,
    whatever extractor produced it. *)
Lemma no_slice_covers_beyond_budget (blocks : list string)
    (failureNodes : list FailureNode.t) (K : nat) :
  (K < length (SliceExtractor.seeds failureNodes))%nat →
  ¬ ((length blocks ≤ K)%nat
     ∧ ∀ fn, fn ∈ failureNodes → FailureNode.block fn ∈ blocks).
Proof.
  intros HK [Hlen Hcov].
  assert (Hsub : SliceExtractor.seeds failureNodes ⊆+ blocks).
  { apply NoDup_submseteq; [apply NoDup_remove_dups|].
    intros b Hb. unfold SliceExtractor.seeds in Hb.
    apply elem_of_remove_dups, list_elem_of_fmap in Hb as (fn & -> & Hfn).
    by apply Hcov. }
  apply submseteq_length in Hsub. lia.
Qed.

(** No list of one block that holds the target of an edge between two
    different blocks is closed under predecessors, whatever extractor
    produced it. *)
Lemma no_closed_slice_at_ceiling (cfg : ControlFlowGraph.t) (blocks : list string)
    (e : ControlFlowEdge.t) :
  e ∈ ControlFlowGraph.edges cfg →
  ControlFlowEdge.source e ≠ ControlFlowEdge.target e →
  ControlFlowEdge.target e ≠ ControlFlowGraph.entry cfg →
  (length blocks ≤ 1)%nat → ControlFlowEdge.target e ∈ blocks →
  ¬ (∀ e', e' ∈ ControlFlowGraph.edges cfg →
           ControlFlowEdge.target e' ∈ blocks →
           ControlFlowEdge.target e' ≠ ControlFlowGraph.entry cfg →
           ControlFlowEdge.source e' ∈ blocks).
Proof.
  intros He Hne Hentry Hlen Ht Hclosed.
  pose proof (Hclosed e He Ht Hentry) as Hs.
  destruct blocks as [|b [|b' rest]]; [by apply elem_of_nil in Ht| |cbn in Hlen; lia].
  apply list_elem_of_singleton in Ht, Hs. congruence.
Qed.




(** ** [extractSourcesFromNodes]: strings, the [Map] and the sort *)

Lemma hasNonWhiteSpace_trimStart (s : string) :
  JS.hasNonWhiteSpace (JS.trimStart s) = JS.hasNonWhiteSpace s.
Proof.
  induction s as [|c r IH]; [reflexivity|].
  simpl. destruct (JS.isWhiteSpace c) eqn:W; simpl; [exact IH|].
  by rewrite W.
Qed.

Lemma trimEnd_length (s : string) :
  (0 <? String.length (JS.trimEnd s))%nat = JS.hasNonWhiteSpace s.
Proof.
  destruct s as [|c r]; [reflexivity|].
  unfold JS.trimEnd; fold JS.trimEnd.
  by destruct (JS.hasNonWhiteSpace (String c r)).
Qed.

(** The filter of the snippets keeps the strings that hold something
    other than whitespace. *)
Lemma snippetFilter_content (code : string) :
  snippetFilter code = JS.hasNonWhiteSpace code.
Proof.
  unfold snippetFilter, JS.trim.
  rewrite trimEnd_length, hasNonWhiteSpace_trimStart.
  destruct code; [reflexivity|]. reflexivity.
Qed.

Section MapFacts.
Context {V : Type}.
Implicit Types (m : list (string * V)) (k : string) (v : V).

Lemma get_set_eq m k v : JSMap.get (JSMap.set m k v) k = Some v.
Proof.
  induction m as [|[k' v'] m IH]; simpl.
  - by rewrite String.eqb_refl.
  - destruct (String.eqb_spec k' k) as [->|Hne]; simpl.
    + by rewrite String.eqb_refl.
    + destruct (String.eqb_spec k' k); [done | exact IH].
Qed.

Lemma get_set_ne m k k' v : k ≠ k' → JSMap.get (JSMap.set m k v) k' = JSMap.get m k'.
Proof.
  intros Hne. induction m as [|[k0 v0] m IH]; simpl.
  - destruct (String.eqb_spec k k'); [done | reflexivity].
  - destruct (String.eqb_spec k0 k) as [->|H0]; simpl.
    + destruct (String.eqb_spec k k'); [done | reflexivity].
    + destruct (String.eqb_spec k0 k'); [reflexivity | exact IH].
Qed.

Lemma get_None_keys m k : JSMap.get m k = None ↔ k ∉ m.*1.
Proof.
  induction m as [|[k' v'] m IH]; csimpl.
  - split; [intros _; apply not_elem_of_nil | done].
  - destruct (String.eqb_spec k' k) as [->|Hne].
    + split; [done|]. intros H. exfalso. apply H. by left.
    + rewrite IH, not_elem_of_cons. split; [by split | by intros [_ ?]].
Qed.

Lemma get_Some_elem m k v : JSMap.get m k = Some v → (k, v) ∈ m.
Proof.
  induction m as [|[k' v'] m IH]; simpl; [done|].
  destruct (String.eqb_spec k' k) as [->|Hne].
  - intros [= ->]. by left.
  - intros H. right. by apply IH.
Qed.

Lemma elem_get m k v : NoDup m.*1 → (k, v) ∈ m → JSMap.get m k = Some v.
Proof.
  induction m as [|[k' v'] m IH]; csimpl; intros Hnd Hin.
  - by apply elem_of_nil in Hin.
  - apply NoDup_cons in Hnd as [Hk' Hnd].
    apply elem_of_cons in Hin as [[= <- <-]|Hin].
    + by rewrite String.eqb_refl.
    + destruct (String.eqb_spec k' k) as [->|Hne]; [|by apply IH].
      exfalso. apply Hk'. apply list_elem_of_fmap. by exists (k, v).
Qed.

Lemma keys_set_new m k v : JSMap.get m k = None → (JSMap.set m k v).*1 = m.*1 ++ [k].
Proof.
  induction m as [|[k' v'] m IH]; csimpl; [done|].
  destruct (String.eqb_spec k' k) as [->|Hne]; [done|].
  intros H. csimpl. by rewrite IH.
Qed.

Lemma keys_set_old m k v : JSMap.get m k ≠ None → (JSMap.set m k v).*1 = m.*1.
Proof.
  induction m as [|[k' v'] m IH]; csimpl; [done|].
  destruct (String.eqb_spec k' k) as [->|Hne]; [done|].
  intros H. csimpl. by rewrite IH.
Qed.

End MapFacts.

Section SortFacts.
Context {A : Type} (key : A → Z).

#[local] Abbreviation cmp := (λ a b : A, key a - key b).
#[local] Abbreviation le := (λ a b : A, key a ≤ key b).

Lemma sortInsert_sorted (x : A) (l : list A) :
  StronglySorted le l → StronglySorted le (sortInsert cmp x l).
Proof.
  induction l as [|y l IH]; simpl; intros Hs.
  - repeat constructor.
  - apply StronglySorted_inv in Hs as [Hl Hy].
    destruct (Z.leb_spec (key x - key y) 0) as [Hle|Hgt].
    + constructor; [by constructor|]. constructor; [lia|].
      eapply Forall_impl; [exact Hy|]. simpl. intros z ?. lia.
    + constructor; [by apply IH|].
      rewrite sortInsert_perm. constructor; [lia | exact Hy].
Qed.

Lemma sortBy_sorted (l : list A) : StronglySorted le (sortBy cmp l).
Proof.
  induction l as [|x l IH]; simpl; [constructor | by apply sortInsert_sorted].
Qed.

End SortFacts.

Lemma StronglySorted_filter {A} (R : relation A) (P : A → Prop) `{∀ x, Decision (P x)}
    (l : list A) :
  StronglySorted R l → StronglySorted R (filter P l).
Proof.
  induction 1 as [|x l Hs IH Hx]; [constructor|].
  rewrite filter_cons. destruct (decide (P x)); [|exact IH].
  constructor; [exact IH|].
  apply Forall_forall. intros y Hy. apply list_elem_of_filter in Hy as [_ Hy].
  rewrite Forall_forall in Hx. by apply Hx.
Qed.

Lemma StronglySorted_impl {A} (R R' : relation A) (l : list A) :
  (∀ a b, R a b → R' a b) → StronglySorted R l → StronglySorted R' l.
Proof.
  intros HR. induction 1 as [|x l Hs IH Hx]; constructor; [exact IH|].
  eapply Forall_impl; [exact Hx|]. intros y. apply HR.
Qed.

Lemma lineStartKey_orZero (node : Node.t) : lineStartKey node = lineStartOrZero node.
Proof.
  unfold lineStartKey, lineStartOrZero.
  destruct (read _) as [z|]; [apply orZero_Some | reflexivity].
Qed.

(** ** [extractSourcesFromNodes]: the grouping *)

Lemma set_set {V} (m : list (string * V)) (k : string) (v v' : V) :
  JSMap.set (JSMap.set m k v) k v' = JSMap.set m k v'.
Proof.
  induction m as [|[k0 v0] m IH]; simpl.
  - by rewrite String.eqb_refl.
  - destruct (String.eqb_spec k0 k) as [->|Hne]; simpl.
    + by rewrite String.eqb_refl.
    + destruct (String.eqb_spec k0 k); [done|]. by rewrite IH.
Qed.

Lemma fileOf_read (node : Node.t) (f : string) :
  fileOf node = Some f
  ↔ read (CfgNodeData.file (Node.data node)) = Some f ∧ f ≠ "".
Proof.
  unfold fileOf. destruct (read _) as [g|].
  - destruct (decide (g = "")) as [->|Hg].
    + split; [discriminate|]. intros [[= <-] Hne]. by destruct Hne.
    + split; [intros [= <-]; by split | by intros [[= <-] _]].
  - split; [discriminate | by intros [? _]].
Qed.

Lemma groupStep_no_file (m : list (string * list Node.t)) (node : Node.t) :
  fileOf node = None → groupStep m node = m.
Proof.
  unfold fileOf, groupStep. destruct (read _) as [g|]; [|done].
  destruct (decide (g = "")) as [->|]; [done | discriminate].
Qed.

Lemma groupStep_file (m : list (string * list Node.t)) (node : Node.t) (f : string) :
  fileOf node = Some f →
  groupStep m node = JSMap.set m f (default [] (JSMap.get m f) ++ [node]).
Proof.
  intros Hf. apply fileOf_read in Hf as [Hr Hne].
  unfold groupStep. rewrite Hr. apply truthy_nonempty in Hne. rewrite Hne.
  unfold JSMap.has. destruct (JSMap.get m f) as [ns|] eqn:G; simpl.
  - by rewrite G.
  - by rewrite get_set_eq, set_set.
Qed.

Lemma nodesOfFile_snoc (f : string) (nodes : list Node.t) (node : Node.t) :
  nodesOfFile f (nodes ++ [node])
  = nodesOfFile f nodes ++ (if decide (fileOf node = Some f) then [node] else []).
Proof.
  unfold nodesOfFile. by rewrite filter_app.
Qed.

Lemma groupStep_grouped (nodes : list Node.t) (m : list (string * list Node.t))
    (node : Node.t) :
  grouped nodes m → grouped (nodes ++ [node]) (groupStep m node).
Proof.
  intros [Hnd Hget]. destruct (fileOf node) as [g|] eqn:Fg.
  - rewrite (groupStep_file _ _ _ Fg).
    assert (Hg : default [] (JSMap.get m g) = nodesOfFile g nodes).
    { rewrite Hget. by destruct (nodesOfFile g nodes). }
    rewrite Hg. split.
    + destruct (JSMap.get m g) eqn:G.
      * rewrite keys_set_old by congruence. done.
      * rewrite keys_set_new by done. apply NoDup_app. split; [done|].
        split; [|apply NoDup_singleton].
        intros k Hk Hk'. apply list_elem_of_singleton in Hk' as ->.
        by apply get_None_keys in G.
    + intros f. rewrite nodesOfFile_snoc. destruct (decide (g = f)) as [<-|Hne].
      * rewrite get_set_eq, decide_True by done.
        by destruct (nodesOfFile g nodes).
      * rewrite get_set_ne by done. rewrite decide_False by congruence.
        by rewrite app_nil_r.
  - rewrite (groupStep_no_file _ _ Fg). split; [done|].
    intros f. rewrite nodesOfFile_snoc, decide_False by congruence.
    by rewrite app_nil_r.
Qed.

Lemma groupByFile_grouped (nodes : list Node.t) : grouped nodes (groupByFile nodes).
Proof.
  unfold groupByFile. induction nodes as [|node nodes IH] using rev_ind.
  - split; [constructor | done].
  - rewrite fold_left_app. simpl. by apply groupStep_grouped.
Qed.

Lemma groupByFile_entry (nodes : list Node.t) (f : string) (ns : list Node.t) :
  (f, ns) ∈ groupByFile nodes → ns = nodesOfFile f nodes ∧ ns ≠ [].
Proof.
  intros Hin. destruct (groupByFile_grouped nodes) as [Hnd Hget].
  apply (elem_get _ _ _ Hnd) in Hin. rewrite Hget in Hin.
  destruct (nodesOfFile f nodes); [done|]. by inversion Hin.
Qed.

Lemma groupByFile_has (nodes : list Node.t) (f : string) :
  nodesOfFile f nodes ≠ [] → (f, nodesOfFile f nodes) ∈ groupByFile nodes.
Proof.
  intros Hne. destruct (groupByFile_grouped nodes) as [_ Hget].
  apply get_Some_elem. rewrite Hget. by destruct (nodesOfFile f nodes).
Qed.

(** Nodes without a file leave the [Map] as it is. *)
Lemma groupByFile_filter (nodes : list Node.t) :
  groupByFile (filter (λ node, is_Some (fileOf node)) nodes) = groupByFile nodes.
Proof.
  unfold groupByFile. generalize (@nil (string * list Node.t)).
  induction nodes as [|node nodes IH]; intros m; [done|].
  rewrite filter_cons. destruct (decide (is_Some (fileOf node))) as [Hs|Hn].
  - simpl. apply IH.
  - simpl. rewrite groupStep_no_file; [apply IH|].
    destruct (fileOf node); [|done]. exfalso. apply Hn. eauto.
Qed.

(** ** [extractSourcesFromNodes]: the source entries *)

Lemma filter_snippets (l : list Node.t) :
  filter (λ code, Is_true (snippetFilter code))
         (map (λ node, CfgNodeData.codeSnippet (Node.data node)) l)
  = map (λ node, CfgNodeData.codeSnippet (Node.data node)) (filter hasContent l).
Proof.
  induction l as [|n l IH]; [done|].
  simpl map. rewrite !filter_cons, IH, snippetFilter_content.
  destruct (decide (hasContent n)) as [Hc|Hc]; unfold hasContent in Hc.
  - by rewrite Hc.
  - apply not_true_is_false in Hc. by rewrite Hc.
Qed.

(** One step of the second loop appends the entry of the file, if the
    file has content. *)
Lemma sourceStep_contentOf (sources : list Source.t) (f : string) (ns : list Node.t) :
  sourceStep sources (f, ns)
  = sources
    ++ match contentOf ns with
       | [] => []
       | L => [ {| Source.file_path := f;
                   Source.code :=
                     JS.join blankLine
                       (map (λ node, CfgNodeData.codeSnippet (Node.data node)) L) |} ]
       end.
Proof.
  unfold sourceStep. rewrite filter_snippets. fold (contentOf ns).
  destruct (contentOf ns); simpl; [by rewrite app_nil_r | done].
Qed.

Lemma sourceOf_contentOf (f : string) (ns : list Node.t) :
  sourceOf (f, ns)
  = match contentOf ns with
    | [] => None
    | L => Some {| Source.file_path := f;
                   Source.code :=
                     JS.join blankLine
                       (map (λ node, CfgNodeData.codeSnippet (Node.data node)) L) |}
    end.
Proof.
  unfold sourceOf. rewrite sourceStep_contentOf. by destruct (contentOf ns).
Qed.

Lemma sourceStep_fold (m : list (string * list Node.t)) (sources : list Source.t) :
  fold_left sourceStep m sources = sources ++ omap sourceOf m.
Proof.
  revert sources. induction m as [|[f ns] m IH]; intros sources.
  - simpl. by rewrite app_nil_r.
  - change (fold_left sourceStep ((f, ns) :: m) sources)
      with (fold_left sourceStep m (sourceStep sources (f, ns))).
    change (omap sourceOf ((f, ns) :: m))
      with (match sourceOf (f, ns) with
            | Some s => s :: omap sourceOf m
            | None => omap sourceOf m
            end).
    rewrite IH, sourceOf_contentOf, sourceStep_contentOf.
    destruct (contentOf ns); simpl; by rewrite <- app_assoc.
Qed.

Lemma extractSourcesFromNodes_omap (nodes : list Node.t) :
  extractSourcesFromNodes nodes = omap sourceOf (groupByFile nodes).
Proof. unfold extractSourcesFromNodes. by rewrite sourceStep_fold. Qed.

Lemma sourceOf_path (entry : string * list Node.t) (src : Source.t) :
  sourceOf entry = Some src → Source.file_path src = entry.1.
Proof.
  destruct entry as [f ns]. rewrite sourceOf_contentOf.
  destruct (contentOf ns); [done|]. by intros [= <-].
Qed.

Lemma paths_sublist (m : list (string * list Node.t)) :
  (Source.file_path <$> omap sourceOf m) `sublist_of` m.*1.
Proof.
  induction m as [|e m IH]; csimpl; [done|].
  destruct (sourceOf e) as [src|] eqn:S; csimpl.
  - rewrite (sourceOf_path _ _ S). by apply sublist_skip.
  - by apply sublist_cons.
Qed.

Lemma contentOf_perm (ns : list Node.t) : contentOf ns ≡ₚ filter hasContent ns.
Proof.
  unfold contentOf. by rewrite (sortBy_perm byLineStart ns).
Qed.

Lemma contentOf_sorted (ns : list Node.t) :
  StronglySorted (λ a b, lineStartOrZero a ≤ lineStartOrZero b) (contentOf ns).
Proof.
  unfold contentOf. apply StronglySorted_filter.
  eapply StronglySorted_impl; [|apply (sortBy_sorted lineStartKey ns)].
  intros a b. simpl. by rewrite !lineStartKey_orZero.
Qed.

Lemma source_of_entry (nodes : list Node.t) (src : Source.t) :
  src ∈ extractSourcesFromNodes nodes →
  let f := Source.file_path src in
  contentOf (nodesOfFile f nodes) ≠ []
  ∧ Source.code src
    = JS.join blankLine
        (map (λ node, CfgNodeData.codeSnippet (Node.data node))
             (contentOf (nodesOfFile f nodes))).
Proof.
  rewrite extractSourcesFromNodes_omap. intros Hin. cbv zeta.
  apply list_elem_of_omap in Hin as ([f ns] & Hin & Hsrc).
  pose proof (sourceOf_path _ _ Hsrc) as Hp. simpl in Hp. rewrite Hp.
  apply groupByFile_entry in Hin as [-> _].
  rewrite sourceOf_contentOf in Hsrc.
  destruct (contentOf (nodesOfFile f nodes)) as [|n L] eqn:C; [done|].
  inversion Hsrc; subst src; clear Hsrc. simpl. by split.
Qed.

Lemma entry_of_content (nodes : list Node.t) (node : Node.t) (f : string) :
  node ∈ nodes → fileOf node = Some f → hasContent node →
  f ∈ Source.file_path <$> extractSourcesFromNodes nodes.
Proof.
  intros Hin Hf Hc.
  assert (Hn : node ∈ nodesOfFile f nodes) by (by apply list_elem_of_filter).
  assert (Hne : nodesOfFile f nodes ≠ []) by (intros E; rewrite E in Hn; by apply elem_of_nil in Hn).
  assert (Hcn : node ∈ contentOf (nodesOfFile f nodes)).
  { rewrite contentOf_perm. by apply list_elem_of_filter. }
  pose proof (groupByFile_has nodes f Hne) as Hm.
  pose proof (sourceOf_contentOf f (nodesOfFile f nodes)) as Hs.
  destruct (contentOf (nodesOfFile f nodes)) as [|n L] eqn:C;
    [by apply elem_of_nil in Hcn|].
  rewrite extractSourcesFromNodes_omap. apply list_elem_of_fmap.
  eexists. split; [|apply list_elem_of_omap; eexists; split; [exact Hm | exact Hs]].
  reflexivity.
Qed.

(** [Array.prototype.join] is the concatenation with the separator
    between neighbours, as the library defines it. *)
Lemma join_concat (sep : string) (parts : list string) :
  JS.join sep parts = String.concat sep parts.
Proof.
  induction parts as [|p rest IH]; [reflexivity|].
  cbn [JS.join String.concat]. destruct rest as [|q rest']; [reflexivity|].
  by rewrite IH.
Qed.

(** C10: the sources extracted from a node list.  The output has at most
    one entry per file; a file has an entry exactly when one of its nodes
    has a snippet with content; the code of an entry is the concatenation
    of the snippets of the file's nodes with content, with two line feeds
    (one blank line) between neighbours and nothing before the first or
    after the last, in ascending order of [lineStart] with [undefined]
    counted as 0; and the nodes without a file change nothing. *)
Theorem extractSourcesFromNodes_spec (nodes : list Node.t) :
  let out := extractSourcesFromNodes nodes in
  NoDup (Source.file_path <$> out)
  ∧ (∀ f, f ∈ Source.file_path <$> out
          ↔ ∃ node, node ∈ nodes ∧ fileOf node = Some f ∧ hasContent node)
  ∧ (∀ src, src ∈ out →
       ∃ L, L ≡ₚ filter (λ node, fileOf node = Some (Source.file_path src)
                                 ∧ hasContent node) nodes
            ∧ StronglySorted (λ a b, lineStartOrZero a ≤ lineStartOrZero b) L
            ∧ Source.code src
              = String.concat (String "010" (String "010" EmptyString))
                  (map (λ node, CfgNodeData.codeSnippet (Node.data node)) L))
  ∧ out = extractSourcesFromNodes (filter (λ node, is_Some (fileOf node)) nodes).
Proof.
  cbv zeta. split; [|split; [|split]].
  - rewrite extractSourcesFromNodes_omap.
    eapply sublist_NoDup; [|apply paths_sublist].
    apply groupByFile_grouped.
  - intros f. split.
    + intros Hf. apply list_elem_of_fmap in Hf as (src & -> & Hsrc).
      apply source_of_entry in Hsrc as [Hne _].
      destruct (contentOf _) as [|n L] eqn:C; [done|].
      assert (Hn : n ∈ contentOf (nodesOfFile (Source.file_path src) nodes))
        by (rewrite C; left).
      rewrite contentOf_perm in Hn.
      apply list_elem_of_filter in Hn as [Hc Hn].
      apply list_elem_of_filter in Hn as [Hfile Hn]. eauto.
    + intros (node & Hin & Hf & Hc). by eapply entry_of_content.
  - intros src Hsrc. apply source_of_entry in Hsrc as [_ Hcode].
    exists (contentOf (nodesOfFile (Source.file_path src) nodes)).
    split; [|split; [apply contentOf_sorted|]].
    + rewrite contentOf_perm. unfold nodesOfFile. rewrite list_filter_filter.
      erewrite list_filter_iff; [reflexivity|]. intros x. simpl. tauto.
    + rewrite Hcode. apply join_concat.
  - unfold extractSourcesFromNodes. by rewrite groupByFile_filter.
Qed.

Lemma extractSourcesFromNodes_spec_witness :
  ∃ L, L ≡ₚ filter (λ node, fileOf node = Some "counter.py" ∧ hasContent node)
                   MockCounter.initialNodes
       ∧ StronglySorted (λ a b, lineStartOrZero a ≤ lineStartOrZero b) L
       ∧ String.append "cnt = 0; s = 'LLM'"
           (String "010" (String "010"
              (String.append "for c in s:"
                 (String "010" (String "010"
                    (String.append "cnt += 2"
                       (String "010" (String "010" "pass"))))))))
         = String.concat (String "010" (String "010" EmptyString))
             (map (λ node, CfgNodeData.codeSnippet (Node.data node)) L).
Proof.
  apply (proj1 (proj2 (proj2 (extractSourcesFromNodes_spec MockCounter.initialNodes)))
           {| Source.file_path := "counter.py";
              Source.code :=
                String.append "cnt = 0; s = 'LLM'"
                  (String "010" (String "010"
                     (String.append "for c in s:"
                        (String "010" (String "010"
                           (String.append "cnt += 2"
                              (String "010" (String "010" "pass")))))))) |}).
  vm_compute. left.
Defined.

(** ** The transforms over the store *)

Section IndexFacts.
Context {V : Type}.
Implicit Types (m : list (string * V)) (k : string) (v : V).

Lemma indexOf_None m k : JSMap.indexOf m k = None → JSMap.get m k = None.
Proof.
  induction m as [|[k' v'] m IH]; simpl; [done|].
  destruct (String.eqb k' k); [done|].
  destruct (JSMap.indexOf m k); [done | auto].
Qed.

Lemma indexOf_Some m k i :
  JSMap.indexOf m k = Some i → ∃ v, m !! i = Some (k, v) ∧ JSMap.get m k = Some v.
Proof.
  revert i. induction m as [|[k' v'] m IH]; intros i; simpl; [done|].
  destruct (String.eqb_spec k' k) as [->|Hne].
  - intros [= <-]. eauto.
  - destruct (JSMap.indexOf m k) as [j|]; [|done].
    intros [= <-]. destruct (IH j eq_refl) as (v & ? & ?). eauto.
Qed.

Lemma set_indexOf_None m k v : JSMap.indexOf m k = None → JSMap.set m k v = m ++ [(k, v)].
Proof.
  induction m as [|[k' v'] m IH]; simpl; [done|].
  destruct (String.eqb k' k); [done|].
  destruct (JSMap.indexOf m k); [done|]. intros _. by rewrite IH.
Qed.

Lemma set_indexOf_Some m k v i :
  JSMap.indexOf m k = Some i → JSMap.set m k v = <[i := (k, v)]> m.
Proof.
  revert i. induction m as [|[k' v'] m IH]; intros i; simpl; [done|].
  destruct (String.eqb_spec k' k) as [->|Hne].
  - by intros [= <-].
  - destruct (JSMap.indexOf m k) as [j|]; [|done].
    intros [= <-]. simpl. by rewrite (IH j).
Qed.

Lemma indexOf_snoc m k v :
  JSMap.indexOf m k = None → JSMap.indexOf (m ++ [(k, v)]) k = Some (length m).
Proof.
  induction m as [|[k' v'] m IH]; simpl.
  - by rewrite String.eqb_refl.
  - destruct (String.eqb k' k); [done|].
    destruct (JSMap.indexOf m k); [done|]. intros _. by rewrite IH.
Qed.

End IndexFacts.

Lemma indexOf_refs (F : nat → nat) (g : list (string * list Node.t)) (k : string) :
  JSMap.indexOf (imap (λ i e, (e.1, F i)) g) k = JSMap.indexOf g k
  ∧ JSMap.get (imap (λ i e, (e.1, F i)) g) k = F <$> JSMap.indexOf g k.
Proof.
  revert F. induction g as [|[k' ns] g IH]; intros F; [done|].
  rewrite imap_cons. simpl.
  destruct (String.eqb k' k); [done|].
  destruct (IH (F ∘ S)) as [H1 H2].
  unfold compose in *. cbv beta in *. rewrite H1, H2.
  split; [done|]. by destruct (JSMap.indexOf g k).
Qed.

Lemma arrayRefs_get (base : nat) (g : list (string * list Node.t)) (k : string) :
  JSMap.get (Store.arrayRefs base g) k = (λ i, (base + 1 + i)%nat) <$> JSMap.indexOf g k.
Proof. apply (indexOf_refs (λ i, (base + 1 + i)%nat)). Qed.

Lemma arrayRefs_indexOf (base : nat) (g : list (string * list Node.t)) (k : string) :
  JSMap.indexOf (Store.arrayRefs base g) k = JSMap.indexOf g k.
Proof. apply (indexOf_refs (λ i, (base + 1 + i)%nat)). Qed.

Lemma arrayRefs_snoc (base : nat) (g : list (string * list Node.t)) (k : string)
    (ns : list Node.t) :
  Store.arrayRefs base (g ++ [(k, ns)])
  = Store.arrayRefs base g ++ [(k, (base + 1 + length g)%nat)].
Proof. unfold Store.arrayRefs. rewrite imap_app. simpl. by rewrite Nat.add_0_r. Qed.

Lemma arrayRefs_insert (base : nat) (g : list (string * list Node.t)) (i : nat)
    (k : string) (ns ns' : list Node.t) :
  g !! i = Some (k, ns) →
  Store.arrayRefs base (<[i := (k, ns')]> g) = Store.arrayRefs base g.
Proof.
  intros Hi. apply list_eq. intros j. unfold Store.arrayRefs.
  rewrite !list_lookup_imap. destruct (decide (i = j)) as [<-|Hne].
  - rewrite list_lookup_insert_eq by (by eapply lookup_lt_Some). by rewrite Hi.
  - by rewrite list_lookup_insert_ne.
Qed.

Section RunFacts.
Import Store.

Lemma bind_run {A B} (m : M A) (f : A → M B) (h h' : heap) (a : A) :
  m h = Some (a, h') → (m ≫= f) h = f a h'.
Proof. intros H. unfold mbind, M_bind. by rewrite H. Qed.

Lemma alloc_run (c : cell) (h : heap) : alloc c h = Some (length h, h ++ [c]).
Proof. reflexivity. Qed.

Lemma load_run (l : nat) (c : cell) (h : heap) :
  h !! l = Some c → load l h = Some (c, h).
Proof. intros H. unfold load. by rewrite H. Qed.

Lemma loadApiNodes_run (l : nat) xs (h : heap) :
  h !! l = Some (CApiNodes xs) → loadApiNodes l h = Some (xs, h).
Proof. intros H. unfold loadApiNodes. by rewrite (bind_run _ _ _ _ _ (load_run _ _ _ H)). Qed.

Lemma loadApiEdges_run (l : nat) xs (h : heap) :
  h !! l = Some (CApiEdges xs) → loadApiEdges l h = Some (xs, h).
Proof. intros H. unfold loadApiEdges. by rewrite (bind_run _ _ _ _ _ (load_run _ _ _ H)). Qed.

Lemma loadNodes_run (l : nat) xs (h : heap) :
  h !! l = Some (CNodes xs) → loadNodes l h = Some (xs, h).
Proof. intros H. unfold loadNodes. by rewrite (bind_run _ _ _ _ _ (load_run _ _ _ H)). Qed.

Lemma loadStrings_run (l : nat) xs (h : heap) :
  h !! l = Some (CStrings xs) → loadStrings l h = Some (xs, h).
Proof. intros H. unfold loadStrings. by rewrite (bind_run _ _ _ _ _ (load_run _ _ _ H)). Qed.

Lemma loadSources_run (l : nat) xs (h : heap) :
  h !! l = Some (CSources xs) → loadSources l h = Some (xs, h).
Proof. intros H. unfold loadSources. by rewrite (bind_run _ _ _ _ _ (load_run _ _ _ H)). Qed.

Lemma loadFileMap_run (l : nat) m (h : heap) :
  h !! l = Some (CFileMap m) → loadFileMap l h = Some (m, h).
Proof. intros H. unfold loadFileMap. by rewrite (bind_run _ _ _ _ _ (load_run _ _ _ H)). Qed.

Lemma store_run (l : nat) (c : cell) (h : heap) :
  (l < length h)%nat → store l c h = Some ((), <[l := c]> h).
Proof. intros H. unfold store. by rewrite decide_True. Qed.

(** [transformApiResponseToReactFlow] allocates two arrays and writes
    nowhere else. *)
Lemma transform_run (h : heap) (r : ApiResponseRef) apiNodes apiEdges :
  h !! api_nodes r = Some (CApiNodes apiNodes) →
  h !! api_edges r = Some (CApiEdges apiEdges) →
  Store.transformApiResponseToReactFlow r h
  = Some ({| res_nodes := length h;
             res_edges := S (length h);
             res_task_description := api_task_description r |},
          h ++ [CNodes (map transformNode apiNodes);
                CEdges (map transformEdge apiEdges)]).
Proof.
  intros Hn He. unfold Store.transformApiResponseToReactFlow.
  rewrite (bind_run _ _ _ _ _ (loadApiNodes_run _ _ _ Hn)).
  rewrite (bind_run _ _ _ _ _ (alloc_run _ _)).
  erewrite bind_run; [|apply loadApiEdges_run; by apply lookup_app_l_Some].
  rewrite (bind_run _ _ _ _ _ (alloc_run _ _)).
  unfold mret, M_ret.
  rewrite length_app, <- app_assoc. simpl. by rewrite Nat.add_1_r.
Qed.

End RunFacts.

Section GroupFacts.
Import Store.
Variable h : heap.

#[local] Abbreviation base := (length h).

Lemma mapCells_map (g : list (string * list Node.t)) :
  (h ++ mapCells base g) !! base = Some (CFileMap (arrayRefs base g)).
Proof. by apply list_lookup_middle. Qed.

Lemma mapCells_array (g : list (string * list Node.t)) (i : nat) (k : string)
    (ns : list Node.t) :
  g !! i = Some (k, ns) → (h ++ mapCells base g) !! (base + 1 + i)%nat = Some (CNodes ns).
Proof.
  intros Hi. rewrite lookup_app_r by lia.
  replace (base + 1 + i - base)%nat with (S i) by lia.
  unfold mapCells. simpl. by rewrite list_lookup_fmap, Hi.
Qed.

Lemma mapCells_length (g : list (string * list Node.t)) :
  length (h ++ mapCells base g) = (base + 1 + length g)%nat.
Proof. rewrite length_app. unfold mapCells. simpl. rewrite length_fmap. lia. Qed.

Lemma mapCells_insert (g : list (string * list Node.t)) (i : nat) (k : string)
    (ns ns' : list Node.t) :
  g !! i = Some (k, ns) →
  <[(base + 1 + i)%nat := CNodes ns']> (h ++ mapCells base g)
  = h ++ mapCells base (<[i := (k, ns')]> g).
Proof.
  intros Hi. replace (base + 1 + i)%nat with (base + S i)%nat by lia.
  rewrite insert_app_r. unfold mapCells. simpl.
  by rewrite (arrayRefs_insert _ _ _ _ _ _ Hi), list_fmap_insert.
Qed.

Lemma mapCells_snoc (g : list (string * list Node.t)) (k : string) :
  <[base := CFileMap (arrayRefs base g ++ [(k, (base + 1 + length g)%nat)])]>
    ((h ++ mapCells base g) ++ [CNodes []])
  = h ++ mapCells base (g ++ [(k, [])]).
Proof.
  rewrite <- app_assoc. replace base with (base + 0)%nat at 1 by lia.
  rewrite insert_app_r. unfold mapCells. simpl.
  by rewrite arrayRefs_snoc, fmap_app.
Qed.

(** [fileMap.get(file)!.push(node)] on a [Map] that has the file. *)
Lemma push_run (g : list (string * list Node.t)) (file : string) (node : Node.t)
    (i : nat) (ns : list Node.t) :
  JSMap.indexOf g file = Some i → g !! i = Some (file, ns) →
  (m' ← loadFileMap base;
   match JSMap.get m' file with
   | Some fileNodes => xs ← loadNodes fileNodes; store fileNodes (CNodes (xs ++ [node]))
   | None => stuck
   end) (h ++ mapCells base g)
  = Some ((), h ++ mapCells base (JSMap.set g file (ns ++ [node]))).
Proof.
  intros I Hi.
  rewrite (bind_run _ _ _ _ _ (loadFileMap_run _ _ _ (mapCells_map g))).
  rewrite arrayRefs_get, I. simpl.
  rewrite (bind_run _ _ _ _ _ (loadNodes_run _ _ _ (mapCells_array _ _ _ _ Hi))).
  rewrite store_run.
  - by rewrite (mapCells_insert _ _ _ _ _ Hi), (set_indexOf_Some _ _ _ _ I).
  - rewrite mapCells_length. apply lookup_lt_Some in Hi. lia.
Qed.

(** One round of the first loop does to the store what [groupStep] does
    to the [Map]. *)
Lemma groupNode_run (g : list (string * list Node.t)) (node : Node.t) :
  groupNode base node (h ++ mapCells base g)
  = Some ((), h ++ mapCells base (groupStep g node)).
Proof.
  unfold groupNode, groupStep.
  destruct (read (CfgNodeData.file (Node.data node))) as [file|]; [|done].
  destruct (JS.truthy file); [|done].
  rewrite (bind_run _ _ _ _ _ (loadFileMap_run _ _ _ (mapCells_map g))).
  unfold JSMap.has. rewrite arrayRefs_get.
  destruct (JSMap.indexOf g file) as [i|] eqn:I; simpl.
  - destruct (indexOf_Some _ _ _ I) as (ns & Hi & Hg). rewrite Hg. simpl.
    rewrite (bind_run _ _ (h ++ mapCells base g) (h ++ mapCells base g) ()) by done.
    rewrite Hg. by apply (push_run g file node i ns).
  - rewrite (indexOf_None _ _ I). simpl.
    assert (E : (fresh ← alloc (CNodes []);
                 store base (CFileMap (JSMap.set (arrayRefs base g) file fresh)))
                  (h ++ mapCells base g)
                = Some ((), h ++ mapCells base (g ++ [(file, [])]))).
    { rewrite (bind_run _ _ _ _ _ (alloc_run _ _)).
      rewrite store_run by (rewrite !length_app; simpl; lia).
      rewrite set_indexOf_None by (by rewrite arrayRefs_indexOf).
      by rewrite mapCells_length, mapCells_snoc. }
    rewrite (bind_run _ _ _ _ _ E).
    rewrite (set_indexOf_None _ _ _ I).
    assert (I' := indexOf_snoc g file ([] : list Node.t) I).
    destruct (indexOf_Some _ _ _ I') as (ns & Hi & Hg). rewrite Hg.
    assert (ns = []) as ->.
    { rewrite lookup_app_r, Nat.sub_diag in Hi by done. by inversion Hi. }
    by apply (push_run _ file node (length g) []).
Qed.

Lemma forEach_groupNode (xs : list Node.t) (g : list (string * list Node.t)) :
  forEach (groupNode base) xs (h ++ mapCells base g)
  = Some ((), h ++ mapCells base (fold_left groupStep xs g)).
Proof.
  revert g. induction xs as [|x xs IH]; intros g; [done|].
  simpl. rewrite (bind_run _ _ _ _ _ (groupNode_run g x)). apply IH.
Qed.

End GroupFacts.

Section SourceFacts.
Import Store.

(** One round of the second loop: the array [fileNodes] is only read; the
    copy is sorted in place; the round appends at most one entry to
    [sources] and leaves three new cells behind. *)
Lemma pushSource_run (h0 : heap) (acc : list Source.t) (temps : list cell)
    (f : string) (fileNodes : nat) (ns : list Node.t) :
  h0 !! fileNodes = Some (CNodes ns) →
  ∃ temps',
    pushSource (length h0) (f, fileNodes) (h0 ++ CSources acc :: temps)
    = Some ((), h0 ++ CSources (sourceStep acc (f, ns)) :: temps').
Proof.
  intros Hns. unfold pushSource, sourceStep.
  set (H := h0 ++ CSources acc :: temps).
  set (sorted := sortBy byLineStart ns).
  set (mapped := map (λ node, CfgNodeData.codeSnippet (Node.data node)) sorted).
  set (cs := filter (λ code, Is_true (snippetFilter code)) mapped).
  erewrite bind_run; [|apply loadNodes_run; by apply lookup_app_l_Some].
  rewrite (bind_run _ _ _ _ _ (alloc_run _ _)).
  erewrite bind_run; [|apply loadNodes_run; by apply list_lookup_middle].
  erewrite bind_run; [|apply store_run; rewrite length_app; simpl; lia].
  replace (<[length H := CNodes (sortBy byLineStart ns)]> (H ++ [CNodes ns]))
    with (H ++ [CNodes sorted]).
  2:{ replace (length H) with (length H + 0)%nat at 1 by lia. by rewrite insert_app_r. }
  erewrite bind_run; [|apply loadNodes_run; by apply list_lookup_middle].
  rewrite (bind_run _ _ _ _ _ (alloc_run _ _)).
  erewrite bind_run; [|apply loadStrings_run; by apply list_lookup_middle].
  rewrite (bind_run _ _ _ _ _ (alloc_run _ _)).
  erewrite bind_run; [|apply loadStrings_run; by apply list_lookup_middle].
  fold mapped. fold cs.
  destruct (0 <? length cs)%nat.
  - exists (temps ++ [CNodes sorted; CStrings mapped; CStrings cs]).
    subst H. rewrite <- !app_assoc. simpl.
    erewrite bind_run; [|apply loadSources_run; by apply list_lookup_middle].
    rewrite store_run by (rewrite length_app; simpl; lia).
    replace (length h0) with (length h0 + 0)%nat at 1 by lia.
    do 2 f_equal. etrans; [apply (insert_app_r h0 (CSources acc :: _) 0)|done].
  - exists (temps ++ [CNodes sorted; CStrings mapped; CStrings cs]).
    subst H. by rewrite <- !app_assoc.
Qed.

Lemma forEach_pushSource (h0 : heap) (refs : list (string * nat))
    (g : list (string * list Node.t)) :
  Forall2 (λ r e, r.1 = e.1 ∧ h0 !! r.2 = Some (CNodes e.2)) refs g →
  ∀ acc temps, ∃ temps',
    forEach (pushSource (length h0)) refs (h0 ++ CSources acc :: temps)
    = Some ((), h0 ++ CSources (fold_left sourceStep g acc) :: temps').
Proof.
  induction 1 as [|[f loc] [f' ns] refs g [Hf Hloc] _ IH]; intros acc temps.
  - by exists temps.
  - simpl in Hf, Hloc. subst f'.
    destruct (pushSource_run h0 acc temps f loc ns Hloc) as [temps1 E1].
    destruct (IH (sourceStep acc (f, ns)) temps1) as [temps2 E2].
    exists temps2. simpl. by rewrite (bind_run _ _ _ _ _ E1).
Qed.

Lemma arrayRefs_point (h : heap) (g : list (string * list Node.t)) :
  Forall2 (λ r e, r.1 = e.1
                  ∧ (h ++ mapCells (length h) g) !! r.2 = Some (CNodes e.2))
          (arrayRefs (length h) g) g.
Proof.
  apply Forall2_same_length_lookup_2; [apply length_imap|].
  intros i [f loc] [f' ns] Hr Hg. unfold arrayRefs in Hr.
  rewrite list_lookup_imap, Hg in Hr. simpl in Hr. inversion Hr; subst.
  split; [done|]. simpl. by eapply mapCells_array.
Qed.

End SourceFacts.

(** [extractSourcesFromNodes] over the store: it ends, every cell it
    finds stays as it was, and the array it returns holds the value of the
    function on the content of the input array. *)
Lemma extract_run (h : Store.heap) (nodes : nat) (xs : list Node.t) :
  h !! nodes = Some (Store.CNodes xs) →
  ∃ out h',
    Store.extractSourcesFromNodes nodes h = Some (out, h ++ h')
    ∧ (h ++ h') !! out = Some (Store.CSources (extractSourcesFromNodes xs)).
Proof.
  intros Hxs. unfold Store.extractSourcesFromNodes.
  rewrite (bind_run _ _ _ _ _ (alloc_run _ _)).
  change (h ++ [Store.CFileMap []]) with (h ++ Store.mapCells (length h) []).
  erewrite bind_run; [|apply loadNodes_run; by apply lookup_app_l_Some].
  rewrite (bind_run _ _ _ _ _ (forEach_groupNode h xs [])).
  fold (groupByFile xs). set (g := groupByFile xs).
  rewrite (bind_run _ _ _ _ _ (alloc_run _ _)).
  erewrite bind_run;
    [|apply loadFileMap_run; apply lookup_app_l_Some; apply mapCells_map].
  destruct (forEach_pushSource _ _ _ (arrayRefs_point h g) [] []) as [temps E].
  rewrite (bind_run _ _ _ _ _ E).
  exists (length (h ++ Store.mapCells (length h) g)),
         (Store.mapCells (length h) g ++ Store.CSources (fold_left sourceStep g []) :: temps).
  rewrite app_assoc. split; [done|]. by apply list_lookup_middle.
Qed.

(** C7: the two payload transforms are pure.  Run on a store, each of
    them ends with the store it started from followed by the cells it
    allocated, so no object that existed before the call is changed, the
    input least of all; and the arrays it returns hold the value of a
    function of the content of the input arrays alone, so two calls on equal
    inputs return equal outputs. *)
Theorem payload_transforms_pure :
  (∀ (h : Store.heap) (r : Store.ApiResponseRef) apiNodes apiEdges,
      h !! Store.api_nodes r = Some (Store.CApiNodes apiNodes) →
      h !! Store.api_edges r = Some (Store.CApiEdges apiEdges) →
      ∃ out h',
        Store.transformApiResponseToReactFlow r h = Some (out, h ++ h')
        ∧ let value :=
            transformApiResponseToReactFlow
              {| ApiControlFlowResponse.nodes := apiNodes;
                 ApiControlFlowResponse.edges := apiEdges;
                 ApiControlFlowResponse.task_description :=
                   Store.api_task_description r |} in
          (h ++ h') !! Store.res_nodes out
            = Some (Store.CNodes (ControlFlowResponse.nodes value))
          ∧ (h ++ h') !! Store.res_edges out
            = Some (Store.CEdges (ControlFlowResponse.edges value))
          ∧ Store.res_task_description out
            = ControlFlowResponse.task_description value)
  ∧ (∀ (h : Store.heap) (nodes : nat) (xs : list Node.t),
        h !! nodes = Some (Store.CNodes xs) →
        ∃ out h',
          Store.extractSourcesFromNodes nodes h = Some (out, h ++ h')
          ∧ (h ++ h') !! out = Some (Store.CSources (extractSourcesFromNodes xs))).
Proof.
  split.
  - intros h r apiNodes apiEdges Hn He.
    eexists _, _. split; [by apply transform_run|].
    simpl. split; [by apply list_lookup_middle|]. split; [|done].
    change (h ++ [Store.CNodes (map transformNode apiNodes);
                  Store.CEdges (map transformEdge apiEdges)])
      with (h ++ [Store.CNodes (map transformNode apiNodes)]
              ++ [Store.CEdges (map transformEdge apiEdges)]).
    rewrite app_assoc. apply list_lookup_middle. rewrite length_app. simpl. lia.
  - apply extract_run.
Qed.

Lemma payload_transforms_pure_witness :
  (∃ out h',
      Store.transformApiResponseToReactFlow
        (Store.Build_ApiResponseRef 0 1 (Some "count the letters"))
        [Store.CApiNodes [ApiNode.mk "n1" "cnt = 0" None None (Some "counter.py") (Some "10-10")];
         Store.CApiEdges [ApiEdge.mk "e1" "n1" "n1" None]]
      = Some (out,
              [Store.CApiNodes [ApiNode.mk "n1" "cnt = 0" None None (Some "counter.py") (Some "10-10")];
               Store.CApiEdges [ApiEdge.mk "e1" "n1" "n1" None]] ++ h')
      ∧ Store.res_task_description out = Some "count the letters")
  ∧ (∃ out h',
        Store.extractSourcesFromNodes 0 [Store.CNodes MockCounter.initialNodes]
        = Some (out, [Store.CNodes MockCounter.initialNodes] ++ h')
        ∧ ([Store.CNodes MockCounter.initialNodes] ++ h') !! out
          = Some (Store.CSources (extractSourcesFromNodes MockCounter.initialNodes))).
Proof.
  split.
  - destruct (proj1 payload_transforms_pure
                [Store.CApiNodes [ApiNode.mk "n1" "cnt = 0" None None (Some "counter.py") (Some "10-10")];
                 Store.CApiEdges [ApiEdge.mk "e1" "n1" "n1" None]]
                (Store.Build_ApiResponseRef 0 1 (Some "count the letters"))
                _ _ eq_refl eq_refl) as (out & h' & E & _ & _ & Htd).
    exists out, h'. split; [exact E | exact Htd].
  - apply (proj2 payload_transforms_pure
             [Store.CNodes MockCounter.initialNodes] 0%nat MockCounter.initialNodes eq_refl).
Defined.

(** * Properties of the rest of the client *)

(** ** [normalizeBaseUrl] and [buildUrl] *)

Lemma endsWith_refl (s : string) : JSString.endsWith s s = true.
Proof. destruct s; cbn [JSString.endsWith]; by rewrite String.eqb_refl. Qed.

Lemma endsWith_app (b suffix : string) :
  JSString.endsWith suffix (String.append b suffix) = true.
Proof.
  induction b as [|c r IH]; [apply endsWith_refl|].
  change (String c r +:+ suffix) with (String c (r +:+ suffix)).
  cbn [JSString.endsWith]. rewrite IH. apply orb_true_r.
Qed.

Lemma dropLast_app (b : string) (c : ascii) :
  JSString.dropLast (String.append b (String c EmptyString)) = b.
Proof.
  induction b as [|a r IH]; [reflexivity|].
  destruct r as [|a' r']; [reflexivity|].
  change (JSString.dropLast (String a (String a' r') +:+ String c ""))
    with (String a (JSString.dropLast (String a' r' +:+ String c ""))).
  by rewrite IH.
Qed.

Lemma truthy_app_r (b : string) (c : ascii) (r : string) :
  JS.truthy (String.append b (String c r)) = true.
Proof. by destruct b. Qed.

(** One trailing slash is removed, and only one. *)
Lemma normalizeBaseUrl_slash (b : string) :
  normalizeBaseUrl (Some (String.append b "/")) = b.
Proof.
  unfold normalizeBaseUrl.
  by rewrite truthy_app_r, (endsWith_app b "/"), dropLast_app.
Qed.

Lemma normalizeBaseUrl_plain (b : string) :
  JSString.endsWith "/" b = false → normalizeBaseUrl (Some b) = b.
Proof.
  intros H. unfold normalizeBaseUrl. rewrite H. by destruct b.
Qed.

Lemma buildUrl_relative (base q : string) :
  JSString.startsWith "/" q = false → isAbsoluteUrl q = false →
  buildUrl base q = String.append base (String "/" q)
  ∧ buildUrl base (String "/" q) = String.append base (String "/" q).
Proof.
  intros Hs Ha. unfold buildUrl. rewrite Ha, Hs. split; reflexivity.
Qed.

(** X1: the request URL.  An absolute [http://] or [https://] path is used
    as it is.  Any other path is put behind the base URL with exactly one
    slash between them, whether or not the configured URL ends in a slash
    and whether or not the path starts with one; a missing or empty
    configured URL gives a URL relative to the host. *)
Theorem buildUrl_join :
  (∀ base path, isAbsoluteUrl path = true → buildUrl base path = path)
  ∧ (∀ b q,
        JSString.endsWith "/" b = false →
        JSString.startsWith "/" q = false → isAbsoluteUrl q = false →
        let url := String.append b (String "/" q) in
        buildUrl (normalizeBaseUrl (Some b)) q = url
        ∧ buildUrl (normalizeBaseUrl (Some b)) (String "/" q) = url
        ∧ buildUrl (normalizeBaseUrl (Some (String.append b "/"))) q = url
        ∧ buildUrl (normalizeBaseUrl (Some (String.append b "/"))) (String "/" q) = url)
  ∧ (∀ q, JSString.startsWith "/" q = false → isAbsoluteUrl q = false →
          buildUrl (normalizeBaseUrl None) q = String "/" q
          ∧ buildUrl (normalizeBaseUrl (Some "")) q = String "/" q).
Proof.
  split; [|split].
  - intros base path H. unfold buildUrl. by rewrite H.
  - intros b q Hb Hq Ha url.
    rewrite normalizeBaseUrl_slash, (normalizeBaseUrl_plain b Hb).
    destruct (buildUrl_relative b q Hq Ha) as [-> ->]. done.
  - intros q Hq Ha. simpl. by destruct (buildUrl_relative "" q Hq Ha) as [-> _].
Qed.

Lemma buildUrl_join_witness :
  buildUrl (normalizeBaseUrl (Some "http://localhost:8000")) "get_control_flow_diagram"
    = "http://localhost:8000/get_control_flow_diagram"
  ∧ buildUrl (normalizeBaseUrl (Some "http://localhost:8000/")) "/get_control_flow_diagram"
    = "http://localhost:8000/get_control_flow_diagram".
Proof.
  destruct (proj1 (proj2 buildUrl_join)
              "http://localhost:8000" "get_control_flow_diagram"
              eq_refl eq_refl eq_refl) as (H1 & _ & _ & H4).
  split; [exact H1 | exact H4].
Defined.

(** ** Line bounds of transformed nodes *)

Lemma split_parts_no_sep (sep : ascii) (s : string) :
  Forall (λ p, JS.includes sep p = false) (JS.split sep s).
Proof.
  induction s as [|c r IH]; cbn [JS.split].
  - by repeat constructor.
  - destruct (Ascii.eqb c sep) eqn:E.
    + constructor; [reflexivity | done].
    + destruct (JS.split sep r) as [|h t]; inversion IH; subst.
      * repeat constructor. cbn [JS.includes]. by rewrite E.
      * constructor; [|done]. cbn [JS.includes]. by rewrite E.
Qed.

Lemma includes_trimStart (c : ascii) (s : string) :
  JS.includes c s = false → JS.includes c (JS.trimStart s) = false.
Proof.
  induction s as [|a r IH]; [done|]. cbn [JS.trimStart JS.includes].
  intros [Ha Hr]%orb_false_iff.
  destruct (JS.isWhiteSpace a); [by apply IH|].
  cbn [JS.includes]. by rewrite Ha, Hr.
Qed.

Lemma digitValue_range (c : ascii) :
  JS.isDigit c = true → 0 ≤ JS.digitValue c ≤ 9.
Proof.
  unfold JS.isDigit, JS.digitValue.
  intros [H1 H2]%andb_true_iff.
  apply Nat.leb_le in H1, H2. lia.
Qed.

Lemma digitsPrefix_range (s : string) :
  Forall (λ d, 0 ≤ d ≤ 9) (JS.digitsPrefix s).
Proof.
  induction s as [|c r IH]; cbn [JS.digitsPrefix]; [constructor|].
  destruct (JS.isDigit c) eqn:E; constructor; [by apply digitValue_range | done].
Qed.

Lemma fold_digits_nonneg (ds : list Z) (acc : Z) :
  Forall (λ d, 0 ≤ d ≤ 9) ds → 0 ≤ acc →
  0 ≤ fold_left (λ acc d, 10 * acc + d) ds acc.
Proof.
  revert acc. induction ds as [|d ds IH]; intros acc Hds Hacc; cbn [fold_left]; [done|].
  inversion Hds; subst. apply IH; [done | lia].
Qed.

Lemma parseInt_nonneg (s : string) (z : Z) :
  JS.includes "-" s = false → JS.parseInt s = Some z → 0 ≤ z.
Proof.
  intros Hs%includes_trimStart. unfold JS.parseInt.
  assert (Hnn : ∀ body, 0 ≤ JS.digitsToZ (JS.digitsPrefix body)).
  { intros body. apply fold_digits_nonneg; [apply digitsPrefix_range | done]. }
  destruct (JS.trimStart s) as [|c r] eqn:Et.
  - cbn. discriminate.
  - assert (Hc : c ≠ "-"%char).
    { intros ->. cbn in Hs. discriminate. }
    assert (Hcase : ∃ body, (let '(sign, body) :=
                match String c r with
                | String "-" r => (-1, r)
                | String "+" r => (1, r)
                | _ => (1, String c r)
                end in
              match JS.digitsPrefix body with
              | [] => None
              | ds => Some (sign * JS.digitsToZ ds)
              end)
             = match JS.digitsPrefix body with
               | [] => None
               | ds => Some (1 * JS.digitsToZ ds)
               end).
    { destruct (decide (c = "+"%char)) as [->|Hp].
      - by exists r.
      - exists (String c r).
        destruct c as [[] [] [] [] [] [] [] []]; try reflexivity; congruence. }
    destruct Hcase as [body ->].
    specialize (Hnn body).
    destruct (JS.digitsPrefix body); [discriminate|].
    intros [= <-]. lia.
Qed.

Lemma parseLineRange_nonneg (line_range : option string) :
  let '(lineStart, lineEnd) := parseLineRange line_range in
  (∀ z, lineStart = Some z → 0 ≤ z) ∧ (∀ z, lineEnd = Some z → 0 ≤ z).
Proof.
  unfold parseLineRange.
  destruct line_range as [r|]; [|done].
  destruct (JS.truthy r); [|done].
  pose proof (split_parts_no_sep "-" r) as Hparts.
  destruct (JS.split "-" r) as [|p0 [|p1 [|p2 ps]]]; try done.
  inversion Hparts as [|? ? H0 Hrest]; subst.
  inversion Hrest as [|? ? H1 _]; subst.
  split; intros z Hz; [apply (parseInt_nonneg p0) | apply (parseInt_nonneg p1)]; done.
Qed.

(** X2: line bounds of transformed nodes.  A line bound that
    [transformApiResponseToReactFlow] gives a node is never negative: the
    range is split at every dash, so no part that reaches [parseInt] holds
    a minus sign. *)
Theorem transform_bounds_nonneg (apiResponse : ApiControlFlowResponse.t)
    (node : Node.t) (z : Z) :
  node ∈ ControlFlowResponse.nodes (transformApiResponseToReactFlow apiResponse) →
  read (CfgNodeData.lineStart (Node.data node)) = Some z
  ∨ read (CfgNodeData.lineEnd (Node.data node)) = Some z →
  0 ≤ z.
Proof.
  cbn [transformApiResponseToReactFlow ControlFlowResponse.nodes].
  intros (apiNode & -> & _)%elem_of_map Hz.
  pose proof (transformNode_lines apiNode) as Hl.
  pose proof (parseLineRange_nonneg (ApiNode.line_range apiNode)) as Hnn.
  destruct (parseLineRange (ApiNode.line_range apiNode)) as [a b].
  injection Hl as Ha Hb. rewrite Ha, Hb in Hz.
  destruct Hnn as [Hs He]. destruct Hz; [by apply Hs | by apply He].
Qed.

Lemma transform_bounds_nonneg_witness :
  0 ≤ 24.
Proof.
  apply (transform_bounds_nonneg
           (ApiControlFlowResponse.mk
              [ApiNode.mk "n1" "x = 1" None None (Some "a.py") (Some "15-24")] [] None)
           (transformNode (ApiNode.mk "n1" "x = 1" None None (Some "a.py") (Some "15-24")))).
  - cbn. left.
  - right. reflexivity.
Defined.

(** ** The request of [runAnalysis] *)

Lemma convertNodesToBlocks_omap (nodes : list Node.t) :
  convertNodesToBlocks nodes = omap eligibleBlock nodes.
Proof.
  unfold convertNodesToBlocks.
  induction nodes as [|node nodes IH]; [reflexivity|].
  pose proof (blockFilter_eligible node) as H.
  rewrite filter_cons. csimpl.
  destruct (eligibleBlock node) as [b|].
  - destruct H as [Hf Hb]. case_decide as Hd.
    + cbn [map]. by rewrite Hb, IH.
    + exfalso. apply Hd. by rewrite Hf.
  - case_decide as Hd; [by rewrite H in Hd | exact IH].
Qed.

Section Relabel.
Context (g : Node.t → Node.t).
Hypothesis g_data : ∀ node, Node.data (g node) = Node.data node.

Lemma get_mapArrays (m : list (string * list Node.t)) (k : string) :
  JSMap.get (mapArrays g m) k = map g <$> JSMap.get m k.
Proof.
  induction m as [|[k' v] m IH]; [reflexivity|].
  cbn. destruct (String.eqb k' k); [reflexivity | exact IH].
Qed.

Lemma set_mapArrays (m : list (string * list Node.t)) (k : string) (v : list Node.t) :
  JSMap.set (mapArrays g m) k (map g v) = mapArrays g (JSMap.set m k v).
Proof.
  induction m as [|[k' v'] m IH]; [reflexivity|].
  cbn. destruct (String.eqb k' k); [reflexivity|].
  cbn. f_equal. exact IH.
Qed.

Lemma groupStep_mapArrays (m : list (string * list Node.t)) (node : Node.t) :
  groupStep (mapArrays g m) (g node) = mapArrays g (groupStep m node).
Proof.
  unfold groupStep. rewrite g_data.
  destruct (read (CfgNodeData.file (Node.data node))) as [file|]; [|reflexivity].
  destruct (JS.truthy file); [|reflexivity].
  unfold JSMap.has. rewrite get_mapArrays.
  destruct (JSMap.get m file) as [fileNodes|] eqn:E; cbn [fmap option_fmap option_map negb].
  - rewrite get_mapArrays, E. cbn [fmap option_fmap option_map].
    rewrite <- set_mapArrays. by rewrite map_app.
  - rewrite !get_set_eq, !set_set. rewrite <- set_mapArrays. reflexivity.
Qed.

Lemma groupByFile_mapArrays (nodes : list Node.t) :
  groupByFile (map g nodes) = mapArrays g (groupByFile nodes).
Proof.
  unfold groupByFile.
  change (@nil (string * list Node.t)) with (mapArrays g []) at 1.
  generalize (@nil (string * list Node.t)) as m.
  induction nodes as [|node nodes IH]; intros m; [reflexivity|].
  cbn [map fold_left]. rewrite groupStep_mapArrays. apply IH.
Qed.

Lemma byLineStart_relabel (a b : Node.t) : byLineStart (g a) (g b) = byLineStart a b.
Proof. unfold byLineStart, lineStartKey. by rewrite !g_data. Qed.

Lemma sortInsert_relabel (x : Node.t) (l : list Node.t) :
  sortInsert byLineStart (g x) (map g l) = map g (sortInsert byLineStart x l).
Proof.
  induction l as [|y l IH]; [reflexivity|].
  cbn [map sortInsert]. rewrite byLineStart_relabel.
  destruct (byLineStart x y <=? 0); [reflexivity|].
  cbn [map]. by rewrite IH.
Qed.

Lemma sortBy_relabel (l : list Node.t) :
  sortBy byLineStart (map g l) = map g (sortBy byLineStart l).
Proof.
  induction l as [|x l IH]; [reflexivity|].
  cbn [map sortBy]. by rewrite IH, sortInsert_relabel.
Qed.

Lemma sourceStep_relabel (sources : list Source.t) (f : string) (ns : list Node.t) :
  sourceStep sources (f, map g ns) = sourceStep sources (f, ns).
Proof.
  unfold sourceStep. rewrite sortBy_relabel, map_map.
  by rewrite (map_ext _ (λ node, CfgNodeData.codeSnippet (Node.data node)))
    by (intros; by rewrite g_data).
Qed.

Lemma extractSourcesFromNodes_relabel (nodes : list Node.t) :
  extractSourcesFromNodes (map g nodes) = extractSourcesFromNodes nodes.
Proof.
  unfold extractSourcesFromNodes. rewrite groupByFile_mapArrays.
  generalize (@nil Source.t) as sources. generalize (groupByFile nodes) as m.
  induction m as [|[f ns] m IH]; intros sources; [reflexivity|].
  cbn [mapArrays map fold_left fst snd].
  rewrite sourceStep_relabel. apply IH.
Qed.

End Relabel.

Lemma stripLayout_agree (nodes nodes' : list Node.t) :
  map Node.id nodes = map Node.id nodes' →
  map Node.data nodes = map Node.data nodes' →
  map stripLayout nodes = map stripLayout nodes'.
Proof.
  revert nodes'. induction nodes as [|n ns IH]; intros [|n' ns']; try discriminate; [done|].
  cbn [map]. intros [= Hi His] [= Hd Hds].
  f_equal; [|by apply IH]. unfold stripLayout. by rewrite Hi, Hd.
Qed.

Lemma dataOnly_agree (nodes nodes' : list Node.t) :
  map Node.data nodes = map Node.data nodes' →
  map dataOnly nodes = map dataOnly nodes'.
Proof.
  revert nodes'. induction nodes as [|n ns IH]; intros [|n' ns']; try discriminate; [done|].
  cbn [map]. intros [= Hd Hds].
  f_equal; [|by apply IH]. unfold dataOnly. by rewrite Hd.
Qed.

Lemma eligibleBlock_stripLayout (node : Node.t) :
  eligibleBlock (stripLayout node) = eligibleBlock node.
Proof. reflexivity. Qed.

Lemma convertNodesToBlocks_stripLayout (nodes : list Node.t) :
  convertNodesToBlocks (map stripLayout nodes) = convertNodesToBlocks nodes.
Proof.
  rewrite !convertNodesToBlocks_omap.
  induction nodes as [|n ns IH]; [reflexivity|].
  cbn [map]. csimpl. rewrite eligibleBlock_stripLayout. by rewrite IH.
Qed.

Lemma convertNodesToBlocks_agree (nodes nodes' : list Node.t) :
  map Node.id nodes = map Node.id nodes' →
  map Node.data nodes = map Node.data nodes' →
  convertNodesToBlocks nodes = convertNodesToBlocks nodes'.
Proof.
  intros Hi Hd.
  rewrite <- (convertNodesToBlocks_stripLayout nodes),
          <- (convertNodesToBlocks_stripLayout nodes').
  by rewrite (stripLayout_agree nodes nodes').
Qed.

Lemma extractSourcesFromNodes_agree (nodes nodes' : list Node.t) :
  map Node.data nodes = map Node.data nodes' →
  extractSourcesFromNodes nodes = extractSourcesFromNodes nodes'.
Proof.
  intros Hd.
  rewrite <- (extractSourcesFromNodes_relabel dataOnly (λ _, eq_refl) nodes),
          <- (extractSourcesFromNodes_relabel dataOnly (λ _, eq_refl) nodes').
  by rewrite (dataOnly_agree nodes nodes').
Qed.

(** X3: the request does not depend on the layout.  The sources are a
    function of the nodes' data alone, and the blocks of the nodes' ids
    and data: positions, types and whatever else a layout changes have no
    influence on what is sent. *)
Theorem request_ignores_layout (taskDescription : option string)
    (nodes nodes' : list Node.t) :
  map Node.data nodes = map Node.data nodes' →
  extractSourcesFromNodes nodes = extractSourcesFromNodes nodes'
  ∧ (map Node.id nodes = map Node.id nodes' →
     convertNodesToBlocks nodes = convertNodesToBlocks nodes'
     ∧ runAnalysisRequest taskDescription nodes
       = runAnalysisRequest taskDescription nodes').
Proof.
  intros Hd. split; [by apply extractSourcesFromNodes_agree|].
  intros Hi. split; [by apply convertNodesToBlocks_agree|].
  unfold runAnalysisRequest.
  by rewrite (convertNodesToBlocks_agree nodes nodes'),
             (extractSourcesFromNodes_agree nodes nodes').
Qed.

Lemma request_ignores_layout_witness :
  runAnalysisRequest None MockCounter.initialNodes
  = runAnalysisRequest None
      (map (λ node, Node.mk (Node.id node) None (7, 7) (Node.data node))
           MockCounter.initialNodes).
Proof.
  apply (request_ignores_layout None MockCounter.initialNodes
           (map (λ node, Node.mk (Node.id node) None (7, 7) (Node.data node))
                MockCounter.initialNodes)); reflexivity.
Defined.

Lemma eligibleBlock_transformNode (apiNode : ApiNode.t) :
  eligibleBlock (transformNode apiNode) = apiBlock apiNode.
Proof.
  unfold eligibleBlock, apiBlock, transformNode.
  destruct (parseLineRange (ApiNode.line_range apiNode)) as [[a|] [b|]];
    destruct (ApiNode.filename apiNode) as [f|]; reflexivity.
Qed.

Lemma omap_transformNode (apiNodes : list ApiNode.t) :
  omap eligibleBlock (map transformNode apiNodes) = omap apiBlock apiNodes.
Proof.
  induction apiNodes as [|x l IH]; [reflexivity|].
  cbn [map]. csimpl. by rewrite IH, eligibleBlock_transformNode.
Qed.

(** X4: the blocks of a fetched diagram.  Whatever the layout does to the
    nodes that [transformApiResponseToReactFlow] returns, the blocks sent
    back are those of the API nodes that have a non-empty file name and a
    range with two numbers, in the order of the response; the fallbacks
    [|| ''] and [|| 0] of [convertNodesToBlocks] change nothing. *)
Theorem blocks_of_api_nodes (apiResponse : ApiControlFlowResponse.t)
    (nodes : list Node.t) :
  let fetched := ControlFlowResponse.nodes (transformApiResponseToReactFlow apiResponse) in
  map Node.id nodes = map Node.id fetched →
  map Node.data nodes = map Node.data fetched →
  convertNodesToBlocks nodes = omap apiBlock (ApiControlFlowResponse.nodes apiResponse).
Proof.
  intros fetched Hi Hd.
  rewrite (convertNodesToBlocks_agree nodes fetched Hi Hd).
  rewrite convertNodesToBlocks_omap. unfold fetched.
  cbn [transformApiResponseToReactFlow ControlFlowResponse.nodes].
  apply omap_transformNode.
Qed.

Lemma blocks_of_api_nodes_witness :
  convertNodesToBlocks
    [Node.mk "n1" (Some "cfgNode") (120, 40)
       (CfgNodeData.mk "n1" "n1" "x = 1" pending
          (Defined "a.py") (Defined 15) (Defined 24) Missing);
     Node.mk "n2" (Some "cfgNode") (120, 260)
       (CfgNodeData.mk "n2" "n2" "y = 2" pending
          (Defined "a.py") Undefined Undefined Missing)]
  = [Block.mk "n1" "a.py" 15 24].
Proof.
  apply (blocks_of_api_nodes
           (ApiControlFlowResponse.mk
              [ApiNode.mk "n1" "x = 1" None None (Some "a.py") (Some "15-24");
               ApiNode.mk "n2" "y = 2" None None (Some "a.py") (Some "-3-7")] [] None));
    reflexivity.
Defined.

Lemma elem_of_omap_1 {A B} (f : A → option B) (l : list A) (x : A) (y : B) :
  x ∈ l → f x = Some y → y ∈ omap f l.
Proof. intros Hx Hy. apply list_elem_of_omap. eauto. Qed.

Lemma eligibleBlock_file (node : Node.t) (b : Block.t) :
  eligibleBlock node = Some b →
  fileOf node = Some (Block.file_path b) ∧ Block.file_path b ≠ "".
Proof.
  unfold eligibleBlock, fileOf.
  destruct (read (CfgNodeData.file (Node.data node))) as [f|]; [|done].
  destruct (read (CfgNodeData.lineStart (Node.data node))); [|done].
  destruct (read (CfgNodeData.lineEnd (Node.data node))); [|done].
  destruct (decide (f = "")); [done|]. by intros [= <-].
Qed.

(** X5: the request of [runAnalysis].  Its task description is never
    empty; every node that has a non-empty file and both bounds is sent as
    a block, and when its snippet is not blank the file of that block is
    among the sources; no block and no source has an empty file path. *)
Theorem runAnalysisRequest_consistent (taskDescription : option string)
    (nodes : list Node.t) :
  let req := runAnalysisRequest taskDescription nodes in
  ExecuteTestCasesRequest.task_description req ≠ ""
  ∧ (∀ t, taskDescription = Some t → t ≠ "" →
          ExecuteTestCasesRequest.task_description req = t)
  ∧ (∀ node b, node ∈ nodes → eligibleBlock node = Some b →
        b ∈ ExecuteTestCasesRequest.blocks req
        ∧ (hasContent node →
           Block.file_path b
             ∈ Source.file_path <$> ExecuteTestCasesRequest.sources req))
  ∧ (∀ b, b ∈ ExecuteTestCasesRequest.blocks req → Block.file_path b ≠ "")
  ∧ (∀ src, src ∈ ExecuteTestCasesRequest.sources req → Source.file_path src ≠ "").
Proof.
  cbn [runAnalysisRequest ExecuteTestCasesRequest.task_description
       ExecuteTestCasesRequest.blocks ExecuteTestCasesRequest.sources].
  split; [|split; [|split; [|split]]].
  - destruct taskDescription as [[|c t]|]; done.
  - intros t -> Ht. by destruct t.
  - intros node b Hnode Hb. split.
    + rewrite convertNodesToBlocks_omap. by apply (elem_of_omap_1 _ _ node).
    + intros Hc. apply (entry_of_content nodes node); [done| |done].
      by apply eligibleBlock_file.
  - intros b. rewrite convertNodesToBlocks_omap.
    intros (node & _ & Hb)%list_elem_of_omap.
    by apply eligibleBlock_file in Hb as [_ ?].
  - intros src Hsrc. rewrite extractSourcesFromNodes_omap in Hsrc.
    apply list_elem_of_omap in Hsrc as ([f ns] & Hentry & Hsrc).
    apply sourceOf_path in Hsrc. cbn in Hsrc. rewrite Hsrc.
    apply groupByFile_entry in Hentry as [-> Hne].
    intros ->. apply Hne. unfold nodesOfFile.
    destruct (filter (λ node, fileOf node = Some "") nodes) as [|node l] eqn:E; [done|].
    assert (Hin : node ∈ filter (λ node, fileOf node = Some "") nodes)
      by (rewrite E; left).
    apply list_elem_of_filter in Hin as [Hf _].
    by apply fileOf_read in Hf as [_ Hf].
Qed.

Lemma runAnalysisRequest_consistent_witness :
  Block.mk "block-A" "counter.py" 10 10
    ∈ ExecuteTestCasesRequest.blocks (runAnalysisRequest None MockCounter.initialNodes)
  ∧ "counter.py"
    ∈ Source.file_path
        <$> ExecuteTestCasesRequest.sources (runAnalysisRequest None MockCounter.initialNodes).
Proof.
  destruct (runAnalysisRequest_consistent None MockCounter.initialNodes)
    as (_ & _ & H & _).
  destruct (H (Node.mk "block-A" (Some "cfgNode") (250, 0)
                 (CfgNodeData.mk "block-A" "Block A" "cnt = 0; s = 'LLM'" succeeded
                    (Defined "counter.py") (Defined 10) (Defined 10) Missing))
              (Block.mk "block-A" "counter.py" 10 10)) as [Hb Hs].
  - left.
  - reflexivity.
  - split; [exact Hb | apply Hs; reflexivity].
Defined.

(** ** Printing and parsing line numbers *)

Lemma digitsToZ_snoc (ds : list Z) (d : Z) :
  JS.digitsToZ (ds ++ [d]) = 10 * JS.digitsToZ ds + d.
Proof. unfold JS.digitsToZ. by rewrite fold_left_app. Qed.

Lemma digitsPrefix_length (s : string) :
  (length (JS.digitsPrefix s) ≤ String.length s)%nat.
Proof.
  induction s as [|c r IH]; cbn [JS.digitsPrefix String.length]; [done|].
  destruct (JS.isDigit c); cbn [length]; lia.
Qed.

(** A string of digits only: its digit prefix is all of it. *)
Lemma digitsPrefix_app (s rest : string) :
  length (JS.digitsPrefix s) = String.length s →
  JS.digitsPrefix (String.append s rest) = JS.digitsPrefix s ++ JS.digitsPrefix rest.
Proof.
  induction s as [|c r IH]; [done|].
  change (String c r +:+ rest) with (String c (r +:+ rest)).
  cbn [JS.digitsPrefix String.length].
  destruct (JS.isDigit c); cbn [length]; [|done].
  intros [= H]. cbn [app]. by rewrite IH.
Qed.

Lemma length_append (s t : string) :
  String.length (String.append s t) = (String.length s + String.length t)%nat.
Proof.
  induction s as [|c r IH]; [done|].
  change (String c r +:+ t) with (String c (r +:+ t)).
  cbn [String.length]. by rewrite IH.
Qed.

Lemma digit_char (n : Z) :
  0 ≤ n < 10 →
  JS.isDigit (ascii_of_nat (48 + Z.to_nat n)) = true
  ∧ JS.digitValue (ascii_of_nat (48 + Z.to_nat n)) = n.
Proof.
  intros Hn.
  assert (Hcase : n = 0 ∨ n = 1 ∨ n = 2 ∨ n = 3 ∨ n = 4 ∨ n = 5 ∨ n = 6
                  ∨ n = 7 ∨ n = 8 ∨ n = 9) by lia.
  repeat destruct Hcase as [-> | Hcase]; try subst n; by split.
Qed.

Lemma digitsOf_digits (fuel : nat) (n : Z) :
  0 ≤ n < 2 ^ (Z.of_nat fuel + 1) →
  length (JS.digitsPrefix (JSString.digitsOf fuel n))
    = String.length (JSString.digitsOf fuel n)
  ∧ JS.digitsPrefix (JSString.digitsOf fuel n) ≠ []
  ∧ JS.digitsToZ (JS.digitsPrefix (JSString.digitsOf fuel n)) = n.
Proof.
  revert n. induction fuel as [|fuel IH]; intros n Hn.
  - cbn [JSString.digitsOf]. change (2 ^ (Z.of_nat 0 + 1)) with 2 in Hn.
    destruct (digit_char n) as [Hd Hv]; [lia|].
    cbn [JS.digitsPrefix]. rewrite Hd. cbn [length String.length].
    split; [done|]. split; [done|].
    unfold JS.digitsToZ. cbn [fold_left]. lia.
  - cbn [JSString.digitsOf]. destruct (n <? 10) eqn:E.
    + apply Z.ltb_lt in E. destruct (digit_char n) as [Hd Hv]; [lia|].
      cbn [JS.digitsPrefix]. rewrite Hd. cbn [length String.length].
      split; [done|]. split; [done|].
      unfold JS.digitsToZ. cbn [fold_left]. lia.
    + apply Z.ltb_ge in E.
      assert (Hq : 0 ≤ n / 10 < 2 ^ (Z.of_nat fuel + 1)).
      { split; [apply Z.div_pos; lia|].
        apply Z.div_lt_upper_bound; [lia|].
        replace (Z.of_nat (S fuel) + 1) with (Z.succ (Z.of_nat fuel + 1)) in Hn by lia.
        rewrite Z.pow_succ_r in Hn by lia. lia. }
      destruct (IH _ Hq) as (Hl & Hne & Hv).
      destruct (digit_char (n mod 10)) as [Hd Hdv];
        [pose proof (Z.mod_pos_bound n 10); lia|].
      rewrite digitsPrefix_app by done.
      cbn [JS.digitsPrefix]. rewrite Hd.
      rewrite length_append, length_app. cbn [length String.length].
      split; [by rewrite Hl|]. split; [by destruct (JS.digitsPrefix _)|].
      rewrite digitsToZ_snoc, Hv, Hdv.
      pose proof (Z.div_mod n 10). lia.
Qed.

Lemma numberToString_nonneg (n : Z) :
  0 ≤ n →
  length (JS.digitsPrefix (JSString.numberToString n))
    = String.length (JSString.numberToString n)
  ∧ JS.digitsPrefix (JSString.numberToString n) ≠ []
  ∧ JS.digitsToZ (JS.digitsPrefix (JSString.numberToString n)) = n.
Proof.
  intros Hn. unfold JSString.numberToString.
  destruct (n <? 0) eqn:E; [apply Z.ltb_lt in E; lia|].
  apply digitsOf_digits.
  rewrite Z2Nat.id by apply Z.log2_nonneg.
  destruct (decide (n = 0)) as [->|Hz]; [done|].
  pose proof (Z.log2_spec n). lia.
Qed.

Lemma digits_no_dash (s : string) :
  length (JS.digitsPrefix s) = String.length s → JS.includes "-" s = false.
Proof.
  induction s as [|c r IH]; [done|].
  cbn [JS.digitsPrefix String.length JS.includes].
  destruct (JS.isDigit c) eqn:E.
  - cbn [length]. intros [= H]. rewrite IH by done.
    destruct (Ascii.eqb c "-") eqn:Ec; [|done].
    apply Ascii.eqb_eq in Ec as ->. done.
  - cbn [length]. pose proof (digitsPrefix_length r). lia.
Qed.

(** [parseInt] on a string that starts with a digit. *)
Lemma parseInt_digits (s : string) :
  length (JS.digitsPrefix s) = String.length s →
  JS.digitsPrefix s ≠ [] →
  JS.parseInt s = Some (JS.digitsToZ (JS.digitsPrefix s)).
Proof.
  destruct s as [|c r]; [done|].
  intros Hl Hne. unfold JS.parseInt.
  assert (Hd : JS.isDigit c = true).
  { cbn [JS.digitsPrefix] in Hne. by destruct (JS.isDigit c). }
  assert (Ht : JS.trimStart (String c r) = String c r).
  { cbn [JS.trimStart].
    destruct c as [[] [] [] [] [] [] [] []]; try reflexivity; discriminate. }
  rewrite Ht.
  assert (Hm : match String c r with
               | String "-" r0 => (-1, r0)
               | String "+" r0 => (1, r0)
               | _ => (1, String c r)
               end = (1, String c r)).
  { destruct c as [[] [] [] [] [] [] [] []]; try reflexivity; discriminate. }
  rewrite Hm.
  destruct (JS.digitsPrefix (String c r)) as [|d ds]; [done|].
  f_equal. lia.
Qed.

Lemma parseInt_numberToString (n : Z) :
  JS.parseInt (JSString.numberToString n) = Some n.
Proof.
  destruct (Z.le_gt_cases 0 n) as [Hn|Hn].
  - destruct (numberToString_nonneg n Hn) as (Hl & Hne & Hv).
    by rewrite parseInt_digits, Hv.
  - destruct (numberToString_nonneg (- n)) as (Hl & Hne & Hv); [lia|].
    unfold JSString.numberToString in *.
    destruct (n <? 0) eqn:E; [|apply Z.ltb_ge in E; lia].
    destruct (- n <? 0) eqn:E'; [apply Z.ltb_lt in E'; lia|].
    unfold JS.parseInt. cbn [JS.trimStart]. 
    change (JS.isWhiteSpace "-") with false. cbv iota.
    destruct (JS.digitsPrefix _) as [|d ds]; [done|].
    f_equal. lia.
Qed.

Lemma split_app_sep (sep : ascii) (a r : string) :
  JS.includes sep a = false →
  JS.split sep (String.append a (String sep r)) = a :: JS.split sep r.
Proof.
  induction a as [|c a IH].
  - intros _. change ("" +:+ String sep r) with (String sep r).
    cbn [JS.split]. by rewrite Ascii.eqb_refl.
  - cbn [JS.includes]. intros [Hc Ha]%orb_false_iff.
    change (String c a +:+ String sep r) with (String c (a +:+ String sep r)).
    cbn [JS.split]. rewrite Hc, IH by done. reflexivity.
Qed.

Lemma numberToString_neg (n : Z) :
  n < 0 → ∃ ds, JSString.numberToString n = String "-" ds
                ∧ JS.includes "-" ds = false.
Proof.
  intros Hn. unfold JSString.numberToString.
  destruct (n <? 0) eqn:E; [|apply Z.ltb_ge in E; lia].
  eexists. split; [reflexivity|].
  destruct (numberToString_nonneg (- n)) as (Hl & _ & _); [lia|].
  unfold JSString.numberToString in Hl.
  destruct (- n <? 0) eqn:E'; [apply Z.ltb_lt in E'; lia|].
  by apply digits_no_dash.
Qed.

Lemma numberToString_no_dash (n : Z) :
  0 ≤ n → JS.includes "-" (JSString.numberToString n) = false.
Proof.
  intros Hn. apply digits_no_dash. by apply numberToString_nonneg.
Qed.

Lemma parseLineRange_printed (a b : Z) :
  0 ≤ a → 0 ≤ b →
  parseLineRange (Some (String.append (JSString.numberToString a)
                          (String "-" (JSString.numberToString b))))
  = (Some a, Some b).
Proof.
  intros Ha Hb.
  rewrite (parseLineRange_two _ (JSString.numberToString a) (JSString.numberToString b)).
  - by rewrite !parseInt_numberToString.
  - apply split_two; by apply numberToString_no_dash.
Qed.

Lemma parseLineRange_printed_neg (a b : Z) :
  a < 0 ∨ b < 0 →
  parseLineRange (Some (String.append (JSString.numberToString a)
                          (String "-" (JSString.numberToString b))))
  = (None, None).
Proof.
  intros Hab. apply parseLineRange_not_two.
  destruct (Z.lt_ge_cases a 0) as [Ha|Ha].
  - destruct (numberToString_neg a Ha) as (ds & -> & Hds).
    change (String "-" ds +:+ String "-" (JSString.numberToString b))
      with (String "-" (ds +:+ String "-" (JSString.numberToString b))).
    cbn [JS.split]. change (Ascii.eqb "-" "-") with true. cbv iota.
    rewrite split_app_sep by done.
    pose proof (split_nonempty "-" (JSString.numberToString b)).
    destruct (JS.split "-" (JSString.numberToString b)); [done|].
    cbn [length]. lia.
  - destruct Hab as [?|Hb]; [lia|].
    destruct (numberToString_neg b Hb) as (ds & -> & Hds).
    rewrite split_app_sep by by apply numberToString_no_dash.
    cbn [JS.split]. change (Ascii.eqb "-" "-") with true. cbv iota.
    pose proof (split_nonempty "-" ds).
    destruct (JS.split "-" ds); [done|].
    cbn [length]. lia.
Qed.

(** X6: the line label of the tooltip.  For an API node with a file and a
    range printed from two line numbers, the tooltip of the transformed
    node shows the file and, after the letter L, the range as it was
    sent; a negative number in the range leaves the tooltip without a
    line label.  The numbers are those a JavaScript number holds
    exactly. *)
Theorem tooltip_shows_line_range (apiNode : ApiNode.t) (f : string) (a b : Z) :
  let range := String.append (JSString.numberToString a)
                 (String "-" (JSString.numberToString b)) in
  Z.abs a < 2 ^ 53 → Z.abs b < 2 ^ 53 →
  ApiNode.filename apiNode = Some f → f ≠ "" →
  ApiNode.line_range apiNode = Some range →
  (0 ≤ a → 0 ≤ b →
   metadataTooltip true (Node.data (transformNode apiNode))
   = Some {| Tooltip.icon := getFileIcon (Some f);
             Tooltip.file := f;
             Tooltip.lines := Some (String "L" range) |})
  ∧ (a < 0 ∨ b < 0 →
     metadataTooltip true (Node.data (transformNode apiNode))
     = Some {| Tooltip.icon := getFileIcon (Some f);
               Tooltip.file := f;
               Tooltip.lines := None |}).
Proof.
  intros range _ _ Hf Hne Hr.
  assert (Ht : JS.truthy f = true) by by apply truthy_nonempty.
  pose proof (transformNode_lines apiNode) as Hl. rewrite Hr in Hl.
  assert (Hfile : read (CfgNodeData.file (Node.data (transformNode apiNode))) = Some f).
  { unfold transformNode.
    destruct (parseLineRange (ApiNode.line_range apiNode)). cbn. by rewrite Hf. }
  unfold metadataTooltip, lineLabel. rewrite Hfile, Ht.
  split.
  - intros Ha Hb. unfold range in Hl. rewrite parseLineRange_printed in Hl by done.
    injection Hl as -> ->. reflexivity.
  - intros Hab. unfold range in Hl. rewrite parseLineRange_printed_neg in Hl by done.
    injection Hl as H1 _. by rewrite H1.
Qed.

Lemma tooltip_shows_line_range_witness :
  metadataTooltip true
    (Node.data (transformNode
                  (ApiNode.mk "n1" "x = 1" None None (Some "a.py") (Some "15-24"))))
  = Some {| Tooltip.icon := DiPython; Tooltip.file := "a.py";
            Tooltip.lines := Some "L15-24" |}.
Proof.
  apply (proj1 (tooltip_shows_line_range
                  (ApiNode.mk "n1" "x = 1" None None (Some "a.py") (Some "15-24"))
                  "a.py" 15 24 eq_refl eq_refl eq_refl ltac:(discriminate) eq_refl));
    lia.
Defined.

(** ** [getFileIcon] *)

Lemma lastIndexOf_None (c : ascii) (s : string) :
  JS.includes c s = false → JSString.lastIndexOf c s = None.
Proof.
  induction s as [|a r IH]; [done|].
  cbn [JS.includes JSString.lastIndexOf].
  intros [Ha Hr]%orb_false_iff. by rewrite IH, Ha.
Qed.

Lemma lastIndexOf_app (c : ascii) (stem e : string) :
  JS.includes c e = false →
  JSString.lastIndexOf c (String.append stem (String c e)) = Some (String.length stem).
Proof.
  intros He. induction stem as [|a r IH].
  - change ("" +:+ String c e) with (String c e).
    cbn [JSString.lastIndexOf]. by rewrite lastIndexOf_None, Ascii.eqb_refl.
  - change (String a r +:+ String c e) with (String a (r +:+ String c e)).
    cbn [JSString.lastIndexOf]. by rewrite IH.
Qed.

Lemma substring_app (stem r : string) :
  JSString.substring (String.length stem) (String.append stem r) = r.
Proof.
  induction stem as [|a s IH]; [by destruct r|].
  change (String a s +:+ r) with (String a (s +:+ r)).
  cbn [String.length JSString.substring]. exact IH.
Qed.

Lemma toLowerUnit_idem (c : ascii) :
  JSString.toLowerUnit (JSString.toLowerUnit c) = JSString.toLowerUnit c.
Proof. destruct c as [[] [] [] [] [] [] [] []]; reflexivity. Qed.

Lemma toLowerCase_idem (s : string) :
  JSString.toLowerCase (JSString.toLowerCase s) = JSString.toLowerCase s.
Proof.
  induction s as [|c r IH]; [done|].
  cbn [JSString.toLowerCase]. by rewrite toLowerUnit_idem, IH.
Qed.

Lemma toLowerUnit_dot (c : ascii) :
  Ascii.eqb (JSString.toLowerUnit c) "." = Ascii.eqb c ".".
Proof. destruct c as [[] [] [] [] [] [] [] []]; reflexivity. Qed.

Lemma includes_toLowerCase (s : string) :
  JS.includes "." (JSString.toLowerCase s) = JS.includes "." s.
Proof.
  induction s as [|c r IH]; [done|].
  cbn [JSString.toLowerCase JS.includes]. by rewrite toLowerUnit_dot, IH.
Qed.

Lemma getFileIcon_extension (stem e : string) :
  JS.includes "." e = false →
  getFileIcon (Some (String.append stem (String "." e)))
  = default DiCode (JSMap.get fileIconMap (String "." (JSString.toLowerCase e))).
Proof.
  intros He. unfold getFileIcon.
  rewrite truthy_app_r. cbn [negb].
  rewrite lastIndexOf_app by done. rewrite substring_app.
  cbn [JSString.toLowerCase].
  change (JSString.toLowerUnit ".") with "."%char.
  by destruct (JSMap.get fileIconMap _).
Qed.

(** X7: the icon of a file.  [getFileIcon] looks at nothing but the text
    after the last dot of the name, and ignores its case: a name has the
    icon of its lower-cased extension alone.  A name without a dot, the
    empty name and no name have the icon of plain code. *)
Theorem getFileIcon_by_extension :
  (∀ stem e, JS.includes "." e = false →
     getFileIcon (Some (String.append stem (String "." e)))
     = getFileIcon (Some (String "." (JSString.toLowerCase e))))
  ∧ (∀ name, JS.includes "." name = false → getFileIcon (Some name) = DiCode)
  ∧ getFileIcon None = DiCode.
Proof.
  split; [|split; [|reflexivity]].
  - intros stem e He.
    rewrite (getFileIcon_extension stem e He).
    pose proof (getFileIcon_extension "" (JSString.toLowerCase e)) as H.
    change ("" +:+ String "." (JSString.toLowerCase e))
      with (String "." (JSString.toLowerCase e)) in H.
    rewrite H by (by rewrite includes_toLowerCase).
    by rewrite toLowerCase_idem.
  - intros name Hn. unfold getFileIcon.
    destruct (JS.truthy name); [|done].
    cbn [negb]. by rewrite lastIndexOf_None.
Qed.

Lemma getFileIcon_by_extension_witness :
  getFileIcon (Some "client/src/App.TSX") = DiReact
  ∧ getFileIcon (Some "Makefile") = DiCode.
Proof.
  split.
  - apply (proj1 getFileIcon_by_extension "client/src/App" "TSX"). reflexivity.
  - apply (proj1 (proj2 getFileIcon_by_extension) "Makefile"). reflexivity.
Defined.

(** ** The status pill of a node *)

Lemma hasWarning_true (problems : list Problem.t) (nodeData : CfgNodeData.t) :
  hasWarning problems nodeData = true
  ↔ ∃ p, p ∈ problems
         ∧ Problem.blockId p = CfgNodeData.blockId nodeData
         ∧ Problem.severity p = warning.
Proof.
  unfold hasWarning. rewrite existsb_exists. split.
  - intros (p & Hin & [Hb Hs]%andb_true_iff).
    exists p. split; [by apply list_elem_of_In|].
    split; [by apply String.eqb_eq | by apply bool_decide_eq_true in Hs].
  - intros (p & Hin & Hb & Hs). exists p. split; [by apply list_elem_of_In|].
    apply andb_true_iff. split; [by apply String.eqb_eq | by apply bool_decide_eq_true].
Qed.

(** X8: the status pill.  A failed node always shows the failed pill,
    whatever problems are reported for it; the warning pill is shown
    exactly for a node that has not failed and has a problem of severity
    warning on its block; problems of severity error never change the
    pill. *)
Theorem nodePill_spec (problems : list Problem.t) (nodeData : CfgNodeData.t) :
  (nodePill problems nodeData = FailedPill ↔ CfgNodeData.status nodeData = failed)
  ∧ (nodePill problems nodeData = WarningPill
     ↔ CfgNodeData.status nodeData ≠ failed
       ∧ ∃ p, p ∈ problems
              ∧ Problem.blockId p = CfgNodeData.blockId nodeData
              ∧ Problem.severity p = warning)
  ∧ (nodePill (filter (λ p, Problem.severity p = warning) problems) nodeData
     = nodePill problems nodeData).
Proof.
  assert (Hfilter : hasWarning (filter (λ p, Problem.severity p = warning) problems) nodeData
                    = hasWarning problems nodeData).
  { destruct (hasWarning problems nodeData) eqn:E.
    - apply hasWarning_true in E as (p & Hin & Hb & Hs).
      apply hasWarning_true. exists p. by rewrite list_elem_of_filter.
    - destruct (hasWarning (filter _ problems) nodeData) eqn:E'; [|done].
      apply hasWarning_true in E' as (p & [_ Hin]%list_elem_of_filter & Hb & Hs).
      rewrite <- E. symmetry. apply hasWarning_true. eauto. }
  unfold nodePill. rewrite Hfilter.
  rewrite <- hasWarning_true.
  unfold StatusPill.
  destruct (hasWarning problems nodeData), (CfgNodeData.status nodeData);
    repeat case_bool_decide; try done; cbn; intuition congruence.
Qed.

Lemma nodePill_spec_witness :
  nodePill MockScores.mockProblems
    (CfgNodeData.mk "block-return" "Return"
       "return total / count if count > 0 else 0" succeeded
       (Defined "score_processor.py") (Defined 18) (Defined 18) (Defined 1))
  = WarningPill.
Proof.
  apply (proj1 (proj2 (nodePill_spec MockScores.mockProblems
                         (CfgNodeData.mk "block-return" "Return"
                            "return total / count if count > 0 else 0" succeeded
                            (Defined "score_processor.py") (Defined 18) (Defined 18)
                            (Defined 1))))).
  split; [discriminate|].
  exists (Problem.mk "prob-2" "block-return" "step-24"
            "Average calculation incorrect: count is 4 but should be 3 (bug in aggregate)"
            warning).
  split; [right; left | split; reflexivity].
Defined.

(** ** Selection: [handleNodeClick], [handleStepSelect] and the effects *)

Lemma find_Some_elem {A} (f : A → bool) (l : list A) (x : A) :
  find f l = Some x → x ∈ l ∧ f x = true.
Proof.
  intros H. apply find_some in H as [Hin Hf]. split; [by apply list_elem_of_In | done].
Qed.

Lemma find_None_elem {A} (f : A → bool) (l : list A) (x : A) :
  find f l = None → x ∈ l → f x = false.
Proof. intros H Hin. apply (find_none f l H). by apply list_elem_of_In. Qed.

Lemma elem_of_stepsOfNode (steps : list RuntimeStep.t) (nodeId : string)
    (s : RuntimeStep.t) :
  s ∈ stepsOfNode steps nodeId ↔ RuntimeStep.blockId s = nodeId ∧ s ∈ steps.
Proof. unfold stepsOfNode. by rewrite list_elem_of_filter. Qed.

Lemma last_elem {A} (l : list A) (x : A) : last l = Some x → x ∈ l.
Proof.
  intros [l' ->]%last_Some. apply elem_of_app. right. left.
Qed.

(** The step [handleNodeClick] selects is a step of the clicked node. *)
Lemma handleNodeClick_step (st : AppState.t) (nodeId stepId : string) :
  AppState.activeStepId (handleNodeClick st nodeId) = Some stepId →
  ∃ s, s ∈ AppState.steps st ∧ RuntimeStep.blockId s = nodeId
       ∧ RuntimeStep.id s = stepId.
Proof.
  cbn [handleNodeClick AppState.activeStepId].
  destruct (0 <? length (stepsOfNode (AppState.steps st) nodeId))%nat; [|done].
  destruct (find _ (stepsOfNode (AppState.steps st) nodeId)) as [s|] eqn:Ef.
  - intros [= <-]. apply find_Some_elem in Ef as [[Hb Hin]%elem_of_stepsOfNode _].
    by exists s.
  - destruct (last (stepsOfNode (AppState.steps st) nodeId)) as [s|] eqn:El; [|done].
    intros [= <-]. apply last_elem in El as [Hb Hin]%elem_of_stepsOfNode.
    by exists s.
Qed.

(** X9: a click on a node.  The clicked node becomes the active node and
    the steps are left alone.  No step is selected exactly when no step
    ran in the node; otherwise the selected step is a step of the node,
    and when none of the node's steps failed it is the last of them. *)
Theorem handleNodeClick_selection (st : AppState.t) (nodeId : string) :
  let st' := handleNodeClick st nodeId in
  AppState.steps st' = AppState.steps st
  ∧ AppState.activeNodeId st' = Some nodeId
  ∧ selectionConsistent (AppState.steps st') (AppState.activeStepId st')
                        (AppState.activeNodeId st')
  ∧ (AppState.activeStepId st' = None
     ↔ ∀ s, s ∈ AppState.steps st → RuntimeStep.blockId s ≠ nodeId)
  ∧ ((∀ s, s ∈ AppState.steps st → RuntimeStep.blockId s = nodeId →
           RuntimeStep.status s ≠ failed) →
     AppState.activeStepId st'
     = RuntimeStep.id <$> last (stepsOfNode (AppState.steps st) nodeId)).
Proof.
  intros st'. split; [reflexivity|]. split; [reflexivity|]. split; [|split].
  - unfold selectionConsistent.
    destruct (AppState.activeStepId st') as [stepId|] eqn:E; [|done].
    apply handleNodeClick_step in E as (s & Hin & Hb & Hid).
    exists s. by rewrite Hb.
  - subst st'. cbn [handleNodeClick AppState.activeStepId].
    destruct (stepsOfNode (AppState.steps st) nodeId) as [|s0 l] eqn:E.
    + cbn. split; [|done]. intros _ s Hin Hb.
      assert (Hs : s ∈ stepsOfNode (AppState.steps st) nodeId)
        by by apply elem_of_stepsOfNode.
      rewrite E in Hs. by apply not_elem_of_nil in Hs.
    + cbn [length]. change (0 <? S (length l))%nat with true. cbv iota.
      assert (Hs0 : s0 ∈ stepsOfNode (AppState.steps st) nodeId) by (rewrite E; left).
      apply elem_of_stepsOfNode in Hs0 as [Hb Hin].
      split; [|intros H; by destruct (H s0 Hin)].
      destruct (find _ (s0 :: l)); [done|].
      destruct (last (s0 :: l)) eqn:El; [done|].
      by apply last_None in El.
  - intros Hnf. subst st'. cbn [handleNodeClick AppState.activeStepId].
    destruct (stepsOfNode (AppState.steps st) nodeId) as [|s0 l] eqn:E; [reflexivity|].
    cbn [length]. change (0 <? S (length l))%nat with true. cbv iota.
    destruct (find _ (s0 :: l)) as [s|] eqn:Ef; [|reflexivity].
    apply find_Some_elem in Ef as [Hs Hfailed]. rewrite <- E in Hs.
    apply elem_of_stepsOfNode in Hs as [Hb Hin].
    apply bool_decide_eq_true in Hfailed. by destruct (Hnf s Hin Hb).
Qed.

Lemma handleNodeClick_selection_witness :
  AppState.activeStepId
    (handleNodeClick (AppState.mk MockScores.mockSteps None None) "block-loop")
  = Some "step-18".
Proof.
  destruct (handleNodeClick_selection
              (AppState.mk MockScores.mockSteps None None) "block-loop")
    as (_ & _ & _ & _ & H).
  rewrite H; [reflexivity|].
  intros s Hin Hb.
  cbn [AppState.steps MockScores.mockSteps] in Hin.
  repeat (apply elem_of_cons in Hin as [->|Hin]; [done || discriminate|]).
  by apply not_elem_of_nil in Hin.
Defined.

Lemma find_id_elem (steps : list RuntimeStep.t) (stepId : string) :
  stepId ∈ map RuntimeStep.id steps →
  ∃ s, find (λ s, String.eqb (RuntimeStep.id s) stepId) steps = Some s.
Proof.
  intros (s & -> & Hin)%elem_of_map.
  apply (find_exists _ _ s); [done | apply String.eqb_refl].
Qed.

Lemma find_id_None (steps : list RuntimeStep.t) (stepId : string) :
  stepId ∉ map RuntimeStep.id steps →
  find (λ s, String.eqb (RuntimeStep.id s) stepId) steps = None.
Proof.
  intros Hn. destruct (find _ steps) as [s|] eqn:E; [|done].
  apply find_Some_elem in E as [Hin Hid%String.eqb_eq].
  destruct Hn. apply elem_of_map. by exists s.
Qed.

(** X10: the choice of a step.  The chosen id becomes the active step id
    in any case.  When a step of the run has that id the selection is
    consistent afterwards: the active node is the block of that step.
    When no step has that id, the active node stays what it was. *)
Theorem handleStepSelect_selection (st : AppState.t) (stepId : string) :
  let st' := handleStepSelect st stepId in
  AppState.steps st' = AppState.steps st
  ∧ AppState.activeStepId st' = Some stepId
  ∧ (stepId ∈ map RuntimeStep.id (AppState.steps st) →
     selectionConsistent (AppState.steps st') (AppState.activeStepId st')
                         (AppState.activeNodeId st'))
  ∧ (stepId ∉ map RuntimeStep.id (AppState.steps st) →
     AppState.activeNodeId st' = AppState.activeNodeId st).
Proof.
  intros st'. split; [reflexivity|]. split; [reflexivity|]. split.
  - intros [s Hs]%find_id_elem. subst st'.
    cbn [handleStepSelect AppState.steps AppState.activeStepId AppState.activeNodeId
         selectionConsistent].
    rewrite Hs. apply find_Some_elem in Hs as [Hin Hid%String.eqb_eq]. by exists s.
  - intros Hn%find_id_None. subst st'.
    cbn [handleStepSelect AppState.activeNodeId]. by rewrite Hn.
Qed.

Lemma handleStepSelect_selection_witness :
  selectionConsistent MockScores.mockSteps (Some "step-21")
    (AppState.activeNodeId
       (handleStepSelect (AppState.mk MockScores.mockSteps None None) "step-21"))
  ∧ AppState.activeNodeId
      (handleStepSelect (AppState.mk MockScores.mockSteps None (Some "block-loop"))
                        "step-99")
    = Some "block-loop".
Proof.
  split.
  - apply (proj1 (proj2 (proj2 (handleStepSelect_selection
                                  (AppState.mk MockScores.mockSteps None None)
                                  "step-21")))).
    compute_done.
  - apply (proj2 (proj2 (proj2 (handleStepSelect_selection
                                  (AppState.mk MockScores.mockSteps None (Some "block-loop"))
                                  "step-99")))).
    compute_done.
Defined.

Lemma NoDup_map_inj {A B} (f : A → B) (l : list A) (x y : A) :
  NoDup (map f l) → x ∈ l → y ∈ l → f x = f y → x = y.
Proof.
  induction l as [|a l IH]; [by intros _ ?%not_elem_of_nil|].
  cbn [map]. intros [Ha Hl]%NoDup_cons Hx Hy Hf.
  apply elem_of_cons in Hx as [->|Hx], Hy as [->|Hy]; [done| | |by apply IH].
  - destruct Ha. rewrite Hf. apply elem_of_map. eauto.
  - destruct Ha. rewrite <- Hf. apply elem_of_map. eauto.
Qed.

(** X11: a click, then the choice of the step the click selected.  When
    the steps of the run have distinct ids, choosing the step that a click
    on a node selected changes nothing: the two handlers agree on which
    node a step belongs to. *)
Theorem click_then_select (st : AppState.t) (nodeId stepId : string) :
  NoDup (map RuntimeStep.id (AppState.steps st)) →
  AppState.activeStepId (handleNodeClick st nodeId) = Some stepId →
  handleStepSelect (handleNodeClick st nodeId) stepId = handleNodeClick st nodeId.
Proof.
  intros Hnd Hstep.
  pose proof Hstep as (s & Hin & Hb & Hid)%handleNodeClick_step.
  unfold handleStepSelect.
  change (AppState.steps (handleNodeClick st nodeId)) with (AppState.steps st).
  destruct (find_id_elem (AppState.steps st) stepId) as [s' Hs'].
  { apply elem_of_map. eauto. }
  rewrite Hs'. apply find_Some_elem in Hs' as [Hin' Hid'%String.eqb_eq].
  assert (s' = s) as ->.
  { apply (NoDup_map_inj RuntimeStep.id (AppState.steps st)); [done..|congruence]. }
  rewrite Hb, <- Hstep. reflexivity.
Qed.

Lemma click_then_select_witness :
  handleStepSelect
    (handleNodeClick (AppState.mk MockScores.mockSteps None None) "block-aggregate")
    "step-21"
  = handleNodeClick (AppState.mk MockScores.mockSteps None None) "block-aggregate".
Proof.
  apply (click_then_select (AppState.mk MockScores.mockSteps None None)
           "block-aggregate" "step-21").
  - compute_done.
  - reflexivity.
Defined.

(** ** The selection effects *)

Lemma every_differs {A} (key : A → string) (l : list A) (a : string) :
  forallb (λ v, negb (String.eqb (key v) a)) l = true ↔ a ∉ map key l.
Proof.
  induction l as [|v l IH]; cbn [forallb map].
  - split; [intros _; apply not_elem_of_nil | done].
  - rewrite andb_true_iff, IH, not_elem_of_cons, negb_true_iff, String.eqb_neq.
    split; intros [H1 H2]; split; congruence.
Qed.

Lemma every_differs_false {A} (key : A → string) (l : list A) (a : string) :
  forallb (λ v, negb (String.eqb (key v) a)) l = false ↔ a ∈ map key l.
Proof.
  pose proof (every_differs key l a) as H.
  destruct (forallb _ l).
  - split; [done|]. intros Hin. by apply H in Hin.
  - split; [|done]. intros _.
    destruct (decide (a ∈ map key l)) as [|Hn]; [done|]. by apply H in Hn.
Qed.

Lemma activeNodeEffect_valid (nodes : list Node.t) (a : option string) (x : string) :
  activeNodeEffect nodes a = Some x → x ≠ "" → x ∈ nodeIds nodes.
Proof.
  unfold activeNodeEffect. destruct a as [a|]; [|done].
  destruct (JS.truthy a) eqn:Et; cbn [andb].
  - destruct (forallb _ nodes) eqn:Ef.
    + destruct nodes as [|n nodes]; [done|]. cbn. intros [= <-] _. left.
    + intros [= <-] _. by apply (every_differs_false Node.id).
  - intros [= <-] Hx. apply truthy_nonempty in Hx. congruence.
Qed.

Lemma activeStepEffect_valid (steps : list RuntimeStep.t) (a : option string)
    (x : string) :
  activeStepEffect steps a = Some x → x ≠ "" → x ∈ map RuntimeStep.id steps.
Proof.
  unfold activeStepEffect. destruct steps as [|s0 steps]; [done|].
  destruct a as [a|]; [|done].
  destruct (JS.truthy a) eqn:Et; cbn [andb].
  - destruct (forallb _ (s0 :: steps)) eqn:Ef.
    + intros [= <-] _. left.
    + intros [= <-] _. by apply (every_differs_false RuntimeStep.id).
  - intros [= <-] Hx. apply truthy_nonempty in Hx. congruence.
Qed.

Lemma activeNodeEffect_keeps (nodes : list Node.t) (x : string) :
  x ∈ nodeIds nodes → activeNodeEffect nodes (Some x) = Some x.
Proof.
  intros Hx. unfold activeNodeEffect.
  apply (every_differs_false Node.id) in Hx. rewrite Hx.
  by rewrite andb_false_r.
Qed.

Lemma activeStepEffect_keeps (steps : list RuntimeStep.t) (x : string) :
  x ∈ map RuntimeStep.id steps → activeStepEffect steps (Some x) = Some x.
Proof.
  intros Hx. unfold activeStepEffect.
  destruct steps as [|s0 steps]; [by apply not_elem_of_nil in Hx|].
  apply (every_differs_false RuntimeStep.id) in Hx. rewrite Hx.
  by rewrite andb_false_r.
Qed.

Lemma activeNodeEffect_idem (nodes : list Node.t) (a : option string) :
  activeNodeEffect nodes (activeNodeEffect nodes a) = activeNodeEffect nodes a.
Proof.
  destruct (activeNodeEffect nodes a) as [x|] eqn:E; [|done].
  destruct (decide (x = "")) as [->|Hx]; [done|].
  apply activeNodeEffect_keeps. by apply (activeNodeEffect_valid nodes a).
Qed.

Lemma activeStepEffect_idem (steps : list RuntimeStep.t) (a : option string) :
  activeStepEffect steps (activeStepEffect steps a) = activeStepEffect steps a.
Proof.
  destruct (activeStepEffect steps a) as [x|] eqn:E; [|by destruct steps].
  destruct (decide (x = "")) as [->|Hx]; [by destruct steps|].
  apply activeStepEffect_keeps. by apply (activeStepEffect_valid steps a).
Qed.

(** X12: the two selection effects.  After an effect ran, a non-empty
    active id names a node of the graph, or a step of the run; a selection
    that was valid is left alone; without steps no step is active; and a
    second run of an effect changes nothing, so the re-render that the
    effect causes is the last one. *)
Theorem selection_effects_settle (nodes : list Node.t) (steps : list RuntimeStep.t)
    (activeNodeId activeStepId : option string) :
  let a' := activeNodeEffect nodes activeNodeId in
  let s' := activeStepEffect steps activeStepId in
  (∀ x, a' = Some x → x ≠ "" → x ∈ nodeIds nodes)
  ∧ (∀ x, s' = Some x → x ≠ "" → x ∈ map RuntimeStep.id steps)
  ∧ (∀ x, activeNodeId = Some x → x ∈ nodeIds nodes → a' = activeNodeId)
  ∧ (∀ x, activeStepId = Some x → x ∈ map RuntimeStep.id steps → s' = activeStepId)
  ∧ (steps = [] → s' = None)
  ∧ (nodes = [] → ∀ x, activeNodeId = Some x → x ≠ "" → a' = None)
  ∧ activeNodeEffect nodes a' = a'
  ∧ activeStepEffect steps s' = s'.
Proof.
  intros a' s'. repeat split.
  - apply activeNodeEffect_valid.
  - apply activeStepEffect_valid.
  - intros x -> Hx. by apply activeNodeEffect_keeps.
  - intros x -> Hx. by apply activeStepEffect_keeps.
  - by intros ->.
  - intros -> x -> Hx. subst a'. cbn.
    apply truthy_nonempty in Hx. by rewrite Hx.
  - apply activeNodeEffect_idem.
  - apply activeStepEffect_idem.
Qed.

Lemma selection_effects_settle_witness :
  activeNodeEffect MockCounter.initialNodes (Some "block-C") = Some "block-C"
  ∧ "block-A" ∈ nodeIds MockCounter.initialNodes.
Proof.
  destruct (selection_effects_settle MockCounter.initialNodes MockCounter.mockSteps
              (Some "block-C") None) as (_ & _ & H3 & _).
  destruct (selection_effects_settle MockCounter.initialNodes MockCounter.mockSteps
              (Some "block-Z") None) as (H1 & _).
  split.
  - apply (H3 "block-C"); [reflexivity | compute_done].
  - apply (H1 "block-A"); [reflexivity | discriminate].
Defined.

(** ** [handleAnalysisSuccess] *)

Lemma appendStep_fold_ids (l acc : list Node.t) (S : gset string) :
  (∀ k, k ∈ S ↔ k ∈ nodeIds acc) →
  ∀ k, k ∈ nodeIds (fold_left appendStep l (acc, S)).1
       ↔ k ∈ nodeIds acc ∨ k ∈ nodeIds l.
Proof.
  revert acc S. induction l as [|u l IH]; intros acc S HS k.
  - cbn. rewrite elem_of_nil. tauto.
  - cbn [fold_left appendStep]. destruct (decide (Node.id u ∈ S)) as [Hin|Hnin].
    + rewrite (IH acc S HS). cbn [nodeIds map]. rewrite elem_of_cons.
      apply HS in Hin. split; [tauto|]. intros [?|[->|?]]; tauto.
    + rewrite (IH (acc ++ [u]) ({[Node.id u]} ∪ S)).
      * rewrite nodeIds_app. cbn [nodeIds map].
        rewrite elem_of_app, elem_of_cons, elem_of_cons, elem_of_nil. tauto.
      * intros k'. rewrite elem_of_union, elem_of_singleton, HS, nodeIds_app.
        cbn [nodeIds map].
        rewrite elem_of_app, elem_of_cons, elem_of_nil. tauto.
Qed.

Lemma mergeNodesWithAnalysis_ids (current : list Node.t)
    (updates : option (list Node.t)) (k : string) :
  k ∈ nodeIds (mergeNodesWithAnalysis current updates)
  ↔ k ∈ nodeIds current ∨ k ∈ nodeIds (default [] updates).
Proof.
  destruct updates as [[|u us]|]; cbn [mergeNodesWithAnalysis default].
  - cbn. rewrite elem_of_nil. tauto.
  - rewrite appendStep_fold_ids.
    + by rewrite nodeIds_merged.
    + intros k'. rewrite nodeIds_merged. apply elem_of_list_to_set.
  - cbn. rewrite elem_of_nil. tauto.
Qed.

Lemma refComplete_edges (nodes : list Node.t) (edges edges' : list Edge.t)
    (problems problems' : list Problem.t) :
  refComplete nodes edges problems' → refComplete nodes edges' problems →
  refComplete nodes edges problems.
Proof. intros [He _] [_ Hp]. by split. Qed.

(** X13: an analysis result and the completeness of the state.  When the
    edges of the state name nodes of the state, and the edges and problems
    of the payload name nodes of the state or of the payload, then after
    [handleAnalysisSuccess] every edge and every problem of the state
    names a node of the state.  The node ids of the state are then those
    it had and those of the payload. *)
Theorem handleAnalysisSuccess_complete (st : AppData.t) (payload : DebuggerPayload.t) :
  refComplete (AppData.nodes st) (AppData.edges st) [] →
  refComplete (AppData.nodes st ++ default [] (DebuggerPayload.nodes payload))
              (default [] (DebuggerPayload.edges payload))
              (default [] (DebuggerPayload.problems payload)) →
  let st' := handleAnalysisSuccess st payload in
  refComplete (AppData.nodes st') (AppData.edges st') (AppData.problems st')
  ∧ (∀ k, k ∈ nodeIds (AppData.nodes st')
          ↔ k ∈ nodeIds (AppData.nodes st)
            ∨ k ∈ nodeIds (default [] (DebuggerPayload.nodes payload))).
Proof.
  intros Hold Hnew st'.
  assert (Hids : ∀ k, k ∈ nodeIds (AppData.nodes st')
                      ↔ k ∈ nodeIds (AppData.nodes st)
                        ∨ k ∈ nodeIds (default [] (DebuggerPayload.nodes payload))).
  { intros k. subst st'. unfold handleAnalysisSuccess.
    destruct (match DebuggerPayload.problems payload with
              | Some (firstProblem :: _) => _ | _ => _ end) as [an asid].
    cbn [AppData.nodes]. apply mergeNodesWithAnalysis_ids. }
  split; [|exact Hids].
  assert (Hold' : refComplete (AppData.nodes st') (AppData.edges st) []).
  { eapply refComplete_mono; [|exact Hold]. intros k Hk. apply Hids. by left. }
  assert (Hnew' : refComplete (AppData.nodes st')
                    (default [] (DebuggerPayload.edges payload))
                    (default [] (DebuggerPayload.problems payload))).
  { eapply refComplete_mono; [|exact Hnew]. intros k Hk. apply Hids.
    by rewrite nodeIds_app, elem_of_app in Hk. }
  assert (He : AppData.edges st'
               = match DebuggerPayload.edges payload with
                 | Some (e :: es) => e :: es
                 | _ => AppData.edges st
                 end).
  { subst st'. unfold handleAnalysisSuccess.
    by destruct (match DebuggerPayload.problems payload with
                 | Some (firstProblem :: _) => _ | _ => _ end) as [an asid]. }
  assert (Hp : AppData.problems st' = default [] (DebuggerPayload.problems payload)).
  { subst st'. unfold handleAnalysisSuccess.
    by destruct (match DebuggerPayload.problems payload with
                 | Some (firstProblem :: _) => _ | _ => _ end) as [an asid]. }
  rewrite He, Hp.
  destruct (DebuggerPayload.edges payload) as [[|e es]|]; cbn [default] in Hnew'.
  - by apply (refComplete_edges _ _ [] _ []).
  - exact Hnew'.
  - by apply (refComplete_edges _ _ [] _ []).
Qed.

Lemma handleAnalysisSuccess_complete_witness :
  refComplete
    (mergeNodesWithAnalysis MockCounter.initialNodes (Some SampleAnalysis.nodes))
    [Edge.mk "e4-5" "block-D" "block-E" None None None]
    MockCounter.mockProblems.
Proof.
  apply (handleAnalysisSuccess_complete
           (AppData.mk [] [] MockCounter.initialNodes MockCounter.initialEdges None None)
           (DebuggerPayload.mk (Some SampleAnalysis.nodes)
              (Some [Edge.mk "e4-5" "block-D" "block-E" None None None])
              (Some MockCounter.mockSteps) (Some MockCounter.mockProblems)));
    compute_done.
Defined.

Lemma last_default {A} (l : list A) (x d d' : A) :
  List.last (x :: l) d = List.last (x :: l) d'.
Proof.
  revert x. induction l as [|y l IH]; intros x; [done|].
  change (List.last (x :: y :: l) d) with (List.last (y :: l) d).
  change (List.last (x :: y :: l) d') with (List.last (y :: l) d').
  apply IH.
Qed.

Lemma last_cons_last {A} (l : list A) (d : A) :
  last (d :: l) = Some (List.last l d).
Proof.
  revert d. induction l as [|x l IH]; intros d; [done|].
  change (last (d :: x :: l)) with (last (x :: l)).
  rewrite IH. f_equal. destruct l as [|y l]; [done|].
  change (List.last (x :: y :: l) d) with (List.last (y :: l) d).
  apply last_default.
Qed.

Lemma last_cons_elem {A} (l : list A) (d : A) : List.last l d ∈ d :: l.
Proof.
  apply last_elem. apply last_cons_last.
Qed.

(** X14: the selection after an analysis result.  When the payload reports
    no problem and its steps name nodes of the merged graph, then after
    [handleAnalysisSuccess] and the two effects the selection is
    consistent: the active step, if there is one, is a step of the payload
    and the active node is its block.  With steps it is the last step. *)
Theorem analysis_selection (st : AppData.t) (payload : DebuggerPayload.t) :
  default [] (DebuggerPayload.problems payload) = [] →
  (∀ s, s ∈ default [] (DebuggerPayload.steps payload) →
        RuntimeStep.blockId s
          ∈ nodeIds (AppData.nodes (handleAnalysisSuccess st payload))) →
  let st' := runEffects (handleAnalysisSuccess st payload) in
  selectionConsistent (AppData.steps st') (AppData.activeStepId st')
                      (AppData.activeNodeId st')
  ∧ AppData.steps st' = default [] (DebuggerPayload.steps payload)
  ∧ AppData.activeStepId st'
    = RuntimeStep.id <$> last (default [] (DebuggerPayload.steps payload)).
Proof.
  intros Hp Hsteps st'.
  assert (Hs : AppData.steps st' = default [] (DebuggerPayload.steps payload)).
  { subst st'. unfold runEffects, handleAnalysisSuccess.
    by destruct (match DebuggerPayload.problems payload with
                 | Some (firstProblem :: _) => _ | _ => _ end) as [an asid]. }
  destruct (default [] (DebuggerPayload.steps payload)) as [|s0 rest] eqn:Est.
  - assert (Hnone : AppData.activeStepId st' = None).
    { subst st'. cbn [runEffects AppData.activeStepId].
      change (AppData.steps (handleAnalysisSuccess st payload))
        with (AppData.steps (runEffects (handleAnalysisSuccess st payload))).
      by rewrite Hs. }
    rewrite Hnone. by repeat split.
  - assert (Hsel : AppData.activeNodeId (handleAnalysisSuccess st payload)
                   = Some (RuntimeStep.blockId (List.last rest s0))
                   ∧ AppData.activeStepId (handleAnalysisSuccess st payload)
                     = Some (RuntimeStep.id (List.last rest s0))).
    { unfold handleAnalysisSuccess.
      destruct (DebuggerPayload.problems payload) as [[|p ps]|]; try discriminate Hp;
        destruct (DebuggerPayload.steps payload) as [[|s1 r1]|]; try discriminate Est;
        injection Est as -> ->; by split. }
    destruct Hsel as [Hn Ha].
    pose proof (last_cons_elem rest s0) as Hlast.
    assert (Hstep : AppData.activeStepId st' = Some (RuntimeStep.id (List.last rest s0))).
    { subst st'. cbn [runEffects AppData.activeStepId]. rewrite Ha.
      apply activeStepEffect_keeps.
      change (AppData.steps (handleAnalysisSuccess st payload))
        with (AppData.steps (runEffects (handleAnalysisSuccess st payload))).
      rewrite Hs. apply elem_of_map. eauto. }
    assert (Hnode : AppData.activeNodeId st'
                    = Some (RuntimeStep.blockId (List.last rest s0))).
    { subst st'. cbn [runEffects AppData.activeNodeId]. rewrite Hn.
      apply activeNodeEffect_keeps. by apply Hsteps. }
    rewrite Hstep, Hnode, Hs. split; [|split; [done|]].
    + cbn [selectionConsistent]. by exists (List.last rest s0).
    + by rewrite last_cons_last.
Qed.

Lemma analysis_selection_witness :
  selectionConsistent MockCounter.mockSteps (Some "step-5") (Some "block-C").
Proof.
  apply (analysis_selection
           (AppData.mk [] [] MockCounter.initialNodes MockCounter.initialEdges None None)
           (DebuggerPayload.mk (Some SampleAnalysis.nodes) None
              (Some MockCounter.mockSteps) None)).
  - reflexivity.
  - intros s Hin. cbn [default DebuggerPayload.steps MockCounter.mockSteps] in Hin.
    repeat (apply elem_of_cons in Hin as [->|Hin]; [compute_done|]).
    by apply not_elem_of_nil in Hin.
Defined.

(** ** The graph of the canvas: [mergeNodesById] and [mergeEdgesById] *)

Section KeyedMap.
Context {V : Type} (key : V → string).
Implicit Types (m : list (string * V)) (k : string) (v : V).

Lemma elem_keys_set m k v k' :
  k' ∈ (JSMap.set m k v).*1 ↔ k' = k ∨ k' ∈ m.*1.
Proof.
  destruct (JSMap.get m k) as [v0|] eqn:E.
  - rewrite keys_set_old by congruence. split; [tauto|].
    intros [->|?]; [|done].
    apply dec_stable. intros Hn. apply get_None_keys in Hn. congruence.
  - rewrite keys_set_new by done. rewrite elem_of_app, elem_of_cons, elem_of_nil. tauto.
Qed.

Lemma NoDup_keys_set m k v : NoDup m.*1 → NoDup (JSMap.set m k v).*1.
Proof.
  intros Hnd. destruct (JSMap.get m k) as [v0|] eqn:E.
  - by rewrite keys_set_old by congruence.
  - rewrite keys_set_new by done. apply NoDup_app. split; [done|]. split.
    + intros x Hx ->%list_elem_of_singleton. by apply get_None_keys in E.
    + apply NoDup_singleton.
Qed.

Lemma elem_set_inv m k v k' v' :
  NoDup m.*1 → (k', v') ∈ JSMap.set m k v →
  (k' = k ∧ v' = v) ∨ (k' ≠ k ∧ (k', v') ∈ m).
Proof.
  intros Hnd Hin.
  assert (Hnd' : NoDup (JSMap.set m k v).*1) by by apply NoDup_keys_set.
  apply (elem_get _ _ _ Hnd') in Hin.
  destruct (decide (k' = k)) as [->|Hne].
  - rewrite get_set_eq in Hin. left. split; congruence.
  - rewrite get_set_ne in Hin by done. right. split; [done|].
    by apply get_Some_elem.
Qed.

Lemma keyed_keys m : keyed key m → map key m.*2 = m.*1.
Proof.
  induction m as [|[k v] m IH]; [done|]. intros Hk.
  csimpl. cbn [map]. f_equal.
  - apply Hk. left.
  - apply IH. intros k' v' Hin. apply Hk. by right.
Qed.

(** A loop that sets, for each element, some value under the element's key. *)
Context (step : list (string * V) → V → list (string * V)).
Hypothesis step_set : ∀ m v, ∃ v', step m v = JSMap.set m (key v) v' ∧ key v' = key v.

Lemma fold_keys (l : list V) m k :
  k ∈ (fold_left step l m).*1 ↔ k ∈ m.*1 ∨ k ∈ map key l.
Proof.
  revert m. induction l as [|v l IH]; intros m; cbn [fold_left map].
  - rewrite elem_of_nil. tauto.
  - rewrite IH. destruct (step_set m v) as (v' & -> & _).
    rewrite elem_keys_set, elem_of_cons. tauto.
Qed.

Lemma fold_NoDup (l : list V) m : NoDup m.*1 → NoDup (fold_left step l m).*1.
Proof.
  revert m. induction l as [|v l IH]; intros m Hnd; [done|].
  cbn [fold_left]. apply IH. destruct (step_set m v) as (v' & -> & _).
  by apply NoDup_keys_set.
Qed.

Lemma fold_keyed (l : list V) m :
  NoDup m.*1 → keyed key m → keyed key (fold_left step l m).
Proof.
  revert m. induction l as [|v l IH]; intros m Hnd Hk; [done|].
  cbn [fold_left]. destruct (step_set m v) as (v' & Hs & Hv').
  apply IH; rewrite Hs.
  - by apply NoDup_keys_set.
  - intros k0 v0 Hin. apply elem_set_inv in Hin as [[-> ->]|[_ Hin]]; [done| |done].
    by apply Hk.
Qed.

End KeyedMap.

Lemma mapOf_step {V} (key : V → string) (m : list (string * V)) (v : V) :
  ∃ v', JSMap.set m (key v) v = JSMap.set m (key v) v' ∧ key v' = key v.
Proof. by exists v. Qed.

Lemma mergeNodeStep_set (m : list (string * Node.t)) (node : Node.t) :
  ∃ v', mergeNodeStep m node = JSMap.set m (Node.id node) v'
        ∧ Node.id v' = Node.id node.
Proof.
  unfold mergeNodeStep. destruct (JSMap.get m (Node.id node)) as [existing|].
  - by exists (spreadNode existing node).
  - by exists node.
Qed.

Lemma mapOf_facts {V} (key : V → string) (l : list V) :
  NoDup (mapOf key l).*1
  ∧ keyed key (mapOf key l)
  ∧ ∀ k, k ∈ (mapOf key l).*1 ↔ k ∈ map key l.
Proof.
  unfold mapOf. split; [|split].
  - apply (fold_NoDup key _ (mapOf_step key)). constructor.
  - apply (fold_keyed key _ (mapOf_step key)); [constructor|].
    by intros k v ?%elem_of_nil.
  - intros k. rewrite (fold_keys key _ (mapOf_step key)). cbn.
    rewrite elem_of_nil. tauto.
Qed.

(** The ids of the merged array are the keys of the [Map]. *)
Lemma mergeNodesById_keys (current incoming : list Node.t) :
  incoming ≠ [] →
  nodeIds (mergeNodesById current incoming)
  = (fold_left mergeNodeStep incoming (mapOf Node.id current)).*1.
Proof.
  intros Hne.
  destruct (mapOf_facts Node.id current) as (Hnd & Hk & _).
  assert (Hm : mergeNodesById current incoming
               = (fold_left mergeNodeStep incoming (mapOf Node.id current)).*2)
    by by destruct incoming.
  rewrite Hm. unfold nodeIds.
  apply (keyed_keys Node.id).
  by apply (fold_keyed Node.id _ mergeNodeStep_set).
Qed.

Lemma mergeNodesById_elem (current incoming : list Node.t) (k : string) :
  incoming ≠ [] →
  k ∈ nodeIds (mergeNodesById current incoming)
  ↔ k ∈ nodeIds current ∨ k ∈ nodeIds incoming.
Proof.
  intros Hne. rewrite mergeNodesById_keys by done.
  destruct (mapOf_facts Node.id current) as (_ & _ & Hkeys).
  rewrite (fold_keys Node.id _ mergeNodeStep_set), Hkeys. tauto.
Qed.

(** X15: the node merge of the canvas.  With an incoming node, the merged
    array holds every id once, also when the current array held one
    twice, and its ids are those of the current and of the incoming
    nodes.  Without incoming nodes the current array is returned as it
    is. *)
Theorem mergeNodesById_ids (current incoming : list Node.t) :
  mergeNodesById current [] = current
  ∧ (incoming ≠ [] →
     NoDup (nodeIds (mergeNodesById current incoming))
     ∧ ∀ k, k ∈ nodeIds (mergeNodesById current incoming)
            ↔ k ∈ nodeIds current ∨ k ∈ nodeIds incoming).
Proof.
  split; [reflexivity|]. intros Hne.
  destruct (mapOf_facts Node.id current) as (Hnd & Hk & Hkeys).
  split.
  - rewrite mergeNodesById_keys by done.
    by apply (fold_NoDup Node.id _ mergeNodeStep_set).
  - intros k. rewrite mergeNodesById_keys by done.
    rewrite (fold_keys Node.id _ mergeNodeStep_set), Hkeys. tauto.
Qed.

Lemma mergeNodesById_ids_witness :
  NoDup (nodeIds (mergeNodesById
                    (MockCounter.initialNodes ++ MockCounter.initialNodes)
                    SampleAnalysis.nodes)).
Proof.
  apply (proj2 (mergeNodesById_ids (MockCounter.initialNodes ++ MockCounter.initialNodes)
                  SampleAnalysis.nodes)).
  discriminate.
Defined.

Section SetLoop.
Context {V : Type} (key : V → string).

Lemma setLoop_elem (l : list V) (m : list (string * V)) (k : string) (v : V) :
  NoDup m.*1 → (k, v) ∈ fold_left (λ m0 v0, JSMap.set m0 (key v0) v0) l m →
  v ∈ l ∨ ((k, v) ∈ m ∧ k ∉ map key l).
Proof.
  revert m. induction l as [|v0 l IH]; intros m Hnd Hin; cbn [fold_left] in Hin.
  - right. split; [done | apply not_elem_of_nil].
  - apply IH in Hin as [Hin|[Hin Hk]]; [| |by apply NoDup_keys_set].
    + left. by right.
    + apply elem_set_inv in Hin as [[-> ->]|[Hne Hin]]; [| |done].
      * left. left.
      * right. split; [done|]. cbn [map]. rewrite not_elem_of_cons. by split.
Qed.

Lemma setLoop_get_notin (l : list V) (m : list (string * V)) (k : string) :
  k ∉ map key l → JSMap.get (fold_left (λ m0 v0, JSMap.set m0 (key v0) v0) l m) k = JSMap.get m k.
Proof.
  revert m. induction l as [|v0 l IH]; intros m Hk; [done|].
  cbn [map] in Hk. apply not_elem_of_cons in Hk as [Hne Hk].
  cbn [fold_left]. rewrite IH by done. by rewrite get_set_ne.
Qed.

Lemma setLoop_get_in (l : list V) (m : list (string * V)) (v : V) :
  NoDup (map key l) → v ∈ l → JSMap.get (fold_left (λ m0 v0, JSMap.set m0 (key v0) v0) l m) (key v) = Some v.
Proof.
  revert m. induction l as [|v0 l IH]; intros m Hnd Hin; [by apply elem_of_nil in Hin|].
  cbn [map] in Hnd. apply NoDup_cons in Hnd as [Hv0 Hnd].
  cbn [fold_left]. apply elem_of_cons in Hin as [->|Hin].
  - rewrite setLoop_get_notin by done. apply get_set_eq.
  - by apply IH.
Qed.

Lemma mapOf_elem (l : list V) (k : string) (v : V) : (k, v) ∈ mapOf key l → v ∈ l.
Proof.
  intros Hin. apply setLoop_elem in Hin as [?|[Hin _]]; [done| |constructor].
  by apply elem_of_nil in Hin.
Qed.

End SetLoop.

Lemma elem_of_values {V} (m : list (string * V)) (v : V) :
  v ∈ m.*2 ↔ ∃ k, (k, v) ∈ m.
Proof.
  rewrite list_elem_of_fmap. split.
  - intros ([k v'] & -> & Hin). by exists k.
  - intros (k & Hin). by exists (k, v).
Qed.

Lemma mergeEdgesById_origin (current incoming : list Edge.t) (e : Edge.t) :
  incoming ≠ [] → e ∈ mergeEdgesById current incoming →
  e ∈ incoming ∨ (e ∈ current ∧ Edge.id e ∉ map Edge.id incoming).
Proof.
  intros Hne.
  destruct (mapOf_facts buildEdgeKey current) as (Hnd & Hk & Hkeys).
  assert (Hm : mergeEdgesById current incoming
               = (fold_left (λ m edge, JSMap.set m (buildEdgeKey edge) edge) incoming
                            (mapOf buildEdgeKey current)).*2)
    by by destruct incoming.
  rewrite Hm.
  pose proof (fold_keyed buildEdgeKey _ (mapOf_step buildEdgeKey) incoming _ Hnd Hk)
    as Hkeyed.
  intros (k & Hin)%elem_of_values.
  pose proof (Hkeyed _ _ Hin) as Hke.
  apply setLoop_elem in Hin as [?|[Hin Hnk]]; [by left| |done].
  right. split; [by apply (mapOf_elem buildEdgeKey _ k)|].
  by rewrite <- Hke in Hnk.
Qed.

(** X16: the edge merge of the canvas.  With an incoming edge, the merged
    array holds every edge id once; each of its edges is an incoming edge,
    or a current edge whose id no incoming edge has; and when the incoming
    edges have distinct ids all of them are in it.  Without incoming
    edges the current array is returned as it is. *)
Theorem mergeEdgesById_spec (current incoming : list Edge.t) :
  mergeEdgesById current [] = current
  ∧ (incoming ≠ [] →
     let merged := mergeEdgesById current incoming in
     NoDup (map Edge.id merged)
     ∧ (∀ k, k ∈ map Edge.id merged
             ↔ k ∈ map Edge.id current ∨ k ∈ map Edge.id incoming)
     ∧ (∀ e, e ∈ merged →
             e ∈ incoming ∨ (e ∈ current ∧ Edge.id e ∉ map Edge.id incoming))
     ∧ (NoDup (map Edge.id incoming) → ∀ e, e ∈ incoming → e ∈ merged)).
Proof.
  split; [reflexivity|]. intros Hne merged.
  destruct (mapOf_facts buildEdgeKey current) as (Hnd & Hk & Hkeys).
  assert (Hm : merged
               = (fold_left (λ m edge, JSMap.set m (buildEdgeKey edge) edge) incoming
                            (mapOf buildEdgeKey current)).*2)
    by (subst merged; by destruct incoming).
  rewrite Hm.
  pose proof (fold_keyed buildEdgeKey _ (mapOf_step buildEdgeKey) incoming _ Hnd Hk)
    as Hkeyed.
  split; [|split; [|split]].
  - change Edge.id with buildEdgeKey. rewrite (keyed_keys buildEdgeKey) by done.
    by apply (fold_NoDup buildEdgeKey _ (mapOf_step buildEdgeKey)).
  - intros k. change Edge.id with buildEdgeKey.
    rewrite (keyed_keys buildEdgeKey) by done.
    rewrite (fold_keys buildEdgeKey _ (mapOf_step buildEdgeKey)), Hkeys. tauto.
  - intros e He. apply mergeEdgesById_origin; [done|]. rewrite <- Hm in He. exact He.
  - intros Hndi e Hin. apply elem_of_values. exists (buildEdgeKey e).
    apply get_Some_elem. by apply setLoop_get_in.
Qed.

Lemma mergeEdgesById_spec_witness :
  Edge.mk "e2-4" "block-B" "block-E" None None None
    ∈ mergeEdgesById MockCounter.initialEdges
        [Edge.mk "e2-4" "block-B" "block-E" None None None].
Proof.
  destruct (proj2 (mergeEdgesById_spec MockCounter.initialEdges
                     [Edge.mk "e2-4" "block-B" "block-E" None None None])
              ltac:(discriminate)) as (_ & _ & _ & H).
  apply H; [compute_done | left].
Defined.

Lemma syncGraph_cases (graph : list Node.t * list Edge.t)
    (initialNodes : list Node.t) (initialEdges : list Edge.t) :
  (syncGraph graph initialNodes initialEdges = (initialNodes, initialEdges)
   ∧ (graph.1 = [] ∨ initialNodes = []
      ∨ ∀ k, k ∈ nodeIds initialNodes → k ∉ nodeIds graph.1))
  ∨ (syncGraph graph initialNodes initialEdges
     = (mergeNodesById graph.1 initialNodes, mergeEdgesById graph.2 initialEdges)
     ∧ initialNodes ≠ []
     ∧ ∃ k, k ∈ nodeIds initialNodes ∧ k ∈ nodeIds graph.1).
Proof.
  unfold syncGraph.
  destruct graph.1 as [|p ps] eqn:Ep; [left; split; [done | by left]|].
  destruct initialNodes as [|n ns] eqn:En; [left; split; [done | right; by left]|].
  rewrite <- Ep, <- En.
  assert (Hlen : (0 <? length graph.1)%nat = true ∧ (0 <? length initialNodes)%nat = true
                 ∧ (length graph.1 =? 0)%nat = false
                 ∧ (length initialNodes =? 0)%nat = false)
    by (by rewrite Ep, En).
  destruct Hlen as (-> & -> & -> & ->). cbn [andb orb].
  destruct (existsb _ initialNodes) eqn:Ex; cbn [negb].
  - right. split; [done|]. split; [by rewrite En|].
    apply existsb_exists in Ex as (node & Hin%list_elem_of_In & Hb).
    apply bool_decide_eq_true in Hb. apply elem_of_list_to_set in Hb.
    exists (Node.id node). split; [by apply elem_of_nodeIds | done].
  - left. split; [done|]. right. right. intros k (node & -> & Hin)%elem_of_map Hk.
    apply not_true_iff_false in Ex. destruct Ex.
    apply existsb_exists. exists node. split; [by apply list_elem_of_In|].
    apply bool_decide_eq_true. by apply elem_of_list_to_set.
Qed.

(** X17: the graph of the canvas after new props.  When the edges of the
    graph name nodes of the graph, and the incoming edges name incoming
    nodes, the same holds for the graph after the sync.  Every incoming
    node is in it.  When the incoming nodes share no id with the graph,
    the graph is replaced by the incoming one; when they share an id,
    no node of the graph is dropped. *)
Theorem syncGraph_complete (graph : list Node.t * list Edge.t)
    (initialNodes : list Node.t) (initialEdges : list Edge.t) :
  graphComplete graph → graphComplete (initialNodes, initialEdges) →
  let graph' := syncGraph graph initialNodes initialEdges in
  graphComplete graph'
  ∧ (∀ k, k ∈ nodeIds initialNodes → k ∈ nodeIds graph'.1)
  ∧ ((∀ k, k ∈ nodeIds initialNodes → k ∉ nodeIds graph.1) →
     graph' = (initialNodes, initialEdges))
  ∧ ((∃ k, k ∈ nodeIds initialNodes ∧ k ∈ nodeIds graph.1) →
     ∀ k, k ∈ nodeIds graph.1 → k ∈ nodeIds graph'.1).
Proof.
  intros Hold Hnew graph'.
  destruct (syncGraph_cases graph initialNodes initialEdges)
    as [[Heq Hwhy]|(Heq & Hne & k0 & Hk0 & Hk0')]; subst graph'; rewrite Heq.
  - split; [done|]. split; [done|]. split; [done|].
    intros (k & Hk & Hk') k' Hk''. destruct Hwhy as [Hg|[->|Hd]].
    + rewrite Hg in Hk'. by apply elem_of_nil in Hk'.
    + by apply elem_of_nil in Hk.
    + by destruct (Hd k Hk).
  - pose proof (λ k, mergeNodesById_elem graph.1 initialNodes k Hne) as Hids.
    cbn [fst snd].
    split; [|split; [|split]].
    + unfold graphComplete, refComplete. cbn [fst snd]. split; [|constructor].
      destruct Hold as [Hold _], Hnew as [Hnew _]. cbn [fst snd] in Hold, Hnew.
      rewrite Forall_forall in Hold, Hnew. apply Forall_forall. intros e He.
      assert (Horigin : e ∈ initialEdges ∨ e ∈ graph.2).
      { destruct initialEdges as [|e0 es] eqn:Ee; [by right|]. rewrite <- Ee in *.
        destruct (mergeEdgesById_origin graph.2 initialEdges e) as [?|[? _]];
          [by rewrite Ee|done|by left|by right]. }
      destruct Horigin as [Hin|Hin].
      * destruct (Hnew e Hin) as [Hs Ht]. split; apply Hids; by right.
      * destruct (Hold e Hin) as [Hs Ht]. split; apply Hids; by left.
    + intros k Hk. apply Hids. by right.
    + intros Hd. by destruct (Hd k0 Hk0).
    + intros _ k Hk. apply Hids. by left.
Qed.

Lemma syncGraph_complete_witness :
  graphComplete
    (syncGraph (MockCounter.initialNodes, MockCounter.initialEdges)
               SampleAnalysis.nodes
               [Edge.mk "e4-5" "block-D" "block-E" None None None]).
Proof.
  apply (syncGraph_complete (MockCounter.initialNodes, MockCounter.initialEdges)
           SampleAnalysis.nodes [Edge.mk "e4-5" "block-D" "block-E" None None None]);
    unfold graphComplete; cbn [fst snd]; compute_done.
Defined.

(** *** The two merges of nodes compared *)

Lemma set_absent {V} (m : list (string * V)) (k : string) (v : V) :
  JSMap.get m k = None → JSMap.set m k v = m ++ [(k, v)].
Proof.
  induction m as [|[k' v'] m IH]; [done|]. cbn [JSMap.get JSMap.set].
  destruct (String.eqb k' k); [done|]. intros H. cbn [app]. by rewrite IH.
Qed.

Lemma setLoop_distinct {V} (key : V → string) (l : list V) (m : list (string * V)) :
  NoDup (m.*1 ++ map key l) →
  fold_left (λ m0 v0, JSMap.set m0 (key v0) v0) l m = m ++ map (λ v, (key v, v)) l.
Proof.
  revert m. induction l as [|v l IH]; intros m Hnd; cbn [fold_left map].
  - by rewrite app_nil_r.
  - assert (Hk : JSMap.get m (key v) = None).
    { apply get_None_keys. cbn [map] in Hnd. apply NoDup_app in Hnd as (_ & Hd & _).
      intros Hin. apply (Hd _ Hin). left. }
    rewrite set_absent by done. rewrite IH.
    + by rewrite <- app_assoc.
    + rewrite fmap_app. cbn [map] in Hnd. csimpl. by rewrite <- app_assoc.
Qed.

Lemma mapOf_distinct (current : list Node.t) :
  NoDup (nodeIds current) →
  mapOf Node.id current = map (λ node, (Node.id node, node)) current.
Proof. intros Hnd. unfold mapOf. by rewrite setLoop_distinct. Qed.

Lemma find_id_notin (l : list Node.t) (k : string) :
  k ∉ nodeIds l → find (λ u, String.eqb (Node.id u) k) l = None.
Proof.
  intros Hk. destruct (find _ l) as [u|] eqn:E; [|done].
  apply find_Some_elem in E as [Hin Hid%String.eqb_eq].
  destruct Hk. subst k. by apply elem_of_nodeIds.
Qed.

Lemma mergedEntry_skip (u : Node.t) (l : list Node.t) (entry : string * Node.t) :
  entry.1 ≠ Node.id u → mergedEntry (u :: l) entry = mergedEntry l entry.
Proof.
  intros Hne. unfold mergedEntry. cbn [find].
  destruct (String.eqb_spec (Node.id u) entry.1); [congruence | done].
Qed.

Lemma map_ext_elem {A B} (F G : A → B) (l : list A) :
  (∀ x, x ∈ l → F x = G x) → map F l = map G l.
Proof.
  intros H. apply map_ext_in. intros x Hx. apply H. by apply list_elem_of_In.
Qed.

Lemma map_set_present {V W} (F G : string * V → W) (m : list (string * V))
    (k : string) (existing x : V) :
  NoDup m.*1 → JSMap.get m k = Some existing →
  F (k, x) = G (k, existing) →
  (∀ entry, entry ∈ m → entry.1 ≠ k → F entry = G entry) →
  map F (JSMap.set m k x) = map G m.
Proof.
  induction m as [|[k' v'] m IH]; [done|].
  csimpl. intros [Hk' Hnd]%NoDup_cons. cbn [JSMap.get JSMap.set].
  destruct (String.eqb_spec k' k) as [->|Hne].
  - intros [= ->] HF Hrest. cbn [map]. rewrite HF. f_equal.
    apply map_ext_elem. intros entry Hin. apply Hrest; [by right|].
    intros He. apply Hk'. rewrite <- He. apply list_elem_of_fmap. by exists entry.
  - intros Hget HF Hrest. cbn [map]. f_equal.
    + apply Hrest; [left | done].
    + apply IH; [done..|]. intros entry Hin. apply Hrest. by right.
Qed.

Lemma mergeLoop_shape (incoming : list Node.t) (m : list (string * Node.t)) :
  NoDup m.*1 → NoDup (nodeIds incoming) →
  fold_left mergeNodeStep incoming m
  = map (mergedEntry incoming) m
    ++ map (λ u, (Node.id u, u)) (filter (λ u, Node.id u ∉ m.*1) incoming).
Proof.
  revert m. induction incoming as [|u l IH]; intros m Hm Hl.
  - cbn [fold_left]. rewrite filter_nil. cbn [map]. rewrite app_nil_r.
    rewrite (map_ext_elem _ id); [by rewrite map_id|]. by intros [k v] _.
  - cbn [nodeIds map] in Hl. apply NoDup_cons in Hl as [Hu Hl].
    cbn [fold_left]. unfold mergeNodeStep at 2.
    destruct (JSMap.get m (Node.id u)) as [existing|] eqn:Eg.
    + rewrite IH by (by try apply NoDup_keys_set).
      rewrite keys_set_old by congruence.
      rewrite filter_cons, decide_False.
      2:{ intros Hn. apply get_None_keys in Hn. congruence. }
      f_equal. apply (map_set_present _ _ _ _ existing); [done..| |].
      * unfold mergedEntry. cbn [fst snd find].
        rewrite find_id_notin by done. by rewrite String.eqb_refl.
      * intros entry _ Hne. symmetry. by apply mergedEntry_skip.
    + rewrite set_absent by done.
      rewrite IH; [|rewrite fmap_app; csimpl|done].
      2:{ apply NoDup_app. split; [done|]. split; [|apply NoDup_singleton].
          intros x Hx ->%list_elem_of_singleton. by apply get_None_keys in Eg. }
      rewrite map_app. cbn [map].
      rewrite filter_cons, decide_True by (by apply get_None_keys).
      cbn [map]. rewrite <- app_assoc. cbn [app]. f_equal; [|f_equal].
      * apply map_ext_elem. intros entry Hin. symmetry. apply mergedEntry_skip.
        intros He. apply get_None_keys in Eg. destruct Eg. rewrite <- He.
        apply list_elem_of_fmap. by exists entry.
      * unfold mergedEntry. cbn [fst snd]. by rewrite find_id_notin.
      * f_equal. apply filter_ext_elem. intros x Hx. rewrite fmap_app. csimpl.
        rewrite not_elem_of_app, list_elem_of_singleton.
        split; [tauto|]. intros Hn. split; [done|].
        intros He. destruct Hu. rewrite <- He. by apply elem_of_nodeIds.
Qed.

Lemma updateMap_find (updates : list Node.t) (k : string) :
  NoDup (nodeIds updates) →
  buildUpdateMap updates !! k = find (λ u, String.eqb (Node.id u) k) updates.
Proof.
  intros Hnd. unfold buildUpdateMap.
  destruct (find _ updates) as [u|] eqn:E.
  - apply find_Some_elem in E as [Hin Hid%String.eqb_eq]. subst k.
    by apply buildUpdateMap_fold_in.
  - rewrite buildUpdateMap_fold_notin; [done|].
    intros (u & -> & Hin)%elem_of_map.
    apply (find_None_elem _ _ u) in E; [|done].
    cbv beta in E. by rewrite String.eqb_refl in E.
Qed.

Lemma keys_of_pairs (l : list Node.t) :
  (map (λ node, (Node.id node, node)) l).*1 = nodeIds l.
Proof. induction l as [|n l IH]; [done|]. csimpl. cbn [nodeIds map]. by f_equal. Qed.

Lemma values_of_pairs (l : list Node.t) :
  (map (λ node, (Node.id node, node)) l).*2 = l.
Proof. induction l as [|n l IH]; [done|]. csimpl. by f_equal. Qed.

Lemma mergedEntry_mergedNode (incoming current : list Node.t) :
  NoDup (nodeIds incoming) →
  map (λ node, (Node.id node, Node.data node))
      (map (mergedEntry incoming) (map (λ node, (Node.id node, node)) current)).*2
  = map (λ node, (Node.id node, Node.data node)) (map (mergedNode incoming) current).
Proof.
  intros Hi. induction current as [|n l IH]; [done|].
  cbn [map]. csimpl. cbn [map]. f_equal; [|exact IH].
  unfold mergedNode. rewrite updateMap_find by done.
  destruct (find _ incoming) as [u|] eqn:E; [|done].
  apply find_Some_elem in E as [_ Hid%String.eqb_eq].
  cbn [spreadNode applyUpdate Node.id Node.data]. by rewrite Hid.
Qed.

(** X18: the two merges of nodes.  When the current and the incoming
    nodes each have distinct ids, [mergeNodesById] of the canvas and
    [mergeNodesWithAnalysis] of the application return the same ids with
    the same data in the same order; they can differ only in what a node
    holds besides its id and data. *)
Theorem merges_agree (current incoming : list Node.t) :
  NoDup (nodeIds current) → NoDup (nodeIds incoming) →
  map (λ node, (Node.id node, Node.data node)) (mergeNodesById current incoming)
  = map (λ node, (Node.id node, Node.data node))
        (mergeNodesWithAnalysis current (Some incoming)).
Proof.
  intros Hc Hi.
  destruct incoming as [|u0 us] eqn:Ei; [reflexivity|]. rewrite <- Ei in *.
  rewrite mergeNodesWithAnalysis_shape by done.
  assert (Hm : mergeNodesById current incoming
               = (fold_left mergeNodeStep incoming (mapOf Node.id current)).*2)
    by by rewrite Ei.
  rewrite Hm, mapOf_distinct by done.
  rewrite mergeLoop_shape by (by rewrite ?keys_of_pairs).
  rewrite keys_of_pairs, fmap_app, values_of_pairs, !map_app.
  by rewrite mergedEntry_mergedNode.
Qed.

Lemma merges_agree_witness :
  map (λ node, (Node.id node, Node.data node))
      (mergeNodesById MockCounter.initialNodes SampleAnalysis.nodes)
  = map (λ node, (Node.id node, Node.data node))
        (mergeNodesWithAnalysis MockCounter.initialNodes (Some SampleAnalysis.nodes)).
Proof.
  apply (merges_agree MockCounter.initialNodes SampleAnalysis.nodes); compute_done.
Defined.

(** ** An analysis result taken in twice *)

Lemma spreadKey_twice {A} (a b : optional A) :
  spreadKey (spreadKey a b) b = spreadKey a b.
Proof. by destruct b. Qed.

Lemma spreadKey_self {A} (a : optional A) : spreadKey a a = a.
Proof. by destruct a. Qed.

Lemma applyUpdate_twice (node update : Node.t) :
  applyUpdate (applyUpdate node update) update = applyUpdate node update.
Proof.
  unfold applyUpdate, CfgNodeData.spread. cbn. by rewrite !spreadKey_twice.
Qed.

Lemma applyUpdate_self (node : Node.t) : applyUpdate node node = node.
Proof.
  destruct node as [i t p [bi bn cs st f ls le ec]].
  unfold applyUpdate, CfgNodeData.spread. cbn. by rewrite !spreadKey_self.
Qed.

Lemma mergedNode_twice (updates : list Node.t) (node : Node.t) :
  mergedNode updates (mergedNode updates node) = mergedNode updates node.
Proof.
  unfold mergedNode at 2.
  destruct (buildUpdateMap updates !! Node.id node) as [update|] eqn:E.
  - unfold mergedNode. cbn [applyUpdate Node.id]. rewrite E.
    apply applyUpdate_twice.
  - unfold mergedNode. by rewrite E.
Qed.

Lemma mergedNode_update (updates : list Node.t) (u : Node.t) :
  NoDup (nodeIds updates) → u ∈ updates → mergedNode updates u = u.
Proof.
  intros Hnd Hin. unfold mergedNode, buildUpdateMap.
  rewrite buildUpdateMap_fold_in by done. apply applyUpdate_self.
Qed.

Lemma filter_none {A} (P : A → Prop) `{∀ x, Decision (P x)} (l : list A) :
  (∀ x, x ∈ l → ¬ P x) → filter P l = [].
Proof.
  intros Hn. induction l as [|x l IH]; [done|].
  rewrite filter_cons, decide_False by (apply Hn; left).
  apply IH. intros y Hy. apply Hn. by right.
Qed.

Lemma mergeNodesWithAnalysis_twice (current updates : list Node.t) :
  NoDup (nodeIds updates) →
  mergeNodesWithAnalysis (mergeNodesWithAnalysis current (Some updates)) (Some updates)
  = mergeNodesWithAnalysis current (Some updates).
Proof.
  intros Hnd.
  rewrite (mergeNodesWithAnalysis_shape (mergeNodesWithAnalysis current (Some updates)))
    by done.
  rewrite (filter_none (λ u, Node.id u ∉ _)).
  2:{ intros u Hu Hn. apply Hn. apply mergeNodesWithAnalysis_ids. right.
      by apply elem_of_nodeIds. }
  rewrite app_nil_r, mergeNodesWithAnalysis_shape by done.
  rewrite map_app, map_map. f_equal.
  - apply map_ext. intros node. apply mergedNode_twice.
  - rewrite (map_ext_elem _ id); [by rewrite map_id|].
    intros u [_ Hu]%list_elem_of_filter. by apply mergedNode_update.
Qed.

(** X19: the same analysis result taken in twice.  When the nodes of a
    payload have distinct ids, merging them a second time changes no
    node, and [handleAnalysisSuccess] on the state it produced from the
    same payload returns that state. *)
Theorem analysis_idempotent (st : AppData.t) (payload : DebuggerPayload.t) :
  NoDup (nodeIds (default [] (DebuggerPayload.nodes payload))) →
  mergeNodesWithAnalysis
    (mergeNodesWithAnalysis (AppData.nodes st) (DebuggerPayload.nodes payload))
    (DebuggerPayload.nodes payload)
  = mergeNodesWithAnalysis (AppData.nodes st) (DebuggerPayload.nodes payload)
  ∧ handleAnalysisSuccess (handleAnalysisSuccess st payload) payload
    = handleAnalysisSuccess st payload.
Proof.
  intros Hnd.
  assert (Hm : mergeNodesWithAnalysis
                 (mergeNodesWithAnalysis (AppData.nodes st) (DebuggerPayload.nodes payload))
                 (DebuggerPayload.nodes payload)
               = mergeNodesWithAnalysis (AppData.nodes st) (DebuggerPayload.nodes payload)).
  { destruct (DebuggerPayload.nodes payload) as [updates|]; [|done].
    by apply mergeNodesWithAnalysis_twice. }
  split; [exact Hm|].
  unfold handleAnalysisSuccess at 1.
  destruct payload as [pn pe ps pp]. cbn [DebuggerPayload.nodes DebuggerPayload.edges
    DebuggerPayload.steps DebuggerPayload.problems] in *.
  unfold handleAnalysisSuccess.
  cbn [DebuggerPayload.nodes DebuggerPayload.edges DebuggerPayload.steps
       DebuggerPayload.problems].
  destruct pp as [[|p pp]|], ps as [[|s ps]|], pn as [[|n pn]|], pe as [[|e pe]|];
    cbn [AppData.nodes AppData.edges AppData.activeNodeId AppData.activeStepId default];
    cbn [AppData.nodes default] in Hm; rewrite ?Hm; reflexivity.
Qed.

Lemma analysis_idempotent_witness :
  mergeNodesWithAnalysis
    (mergeNodesWithAnalysis MockCounter.initialNodes (Some SampleAnalysis.nodes))
    (Some SampleAnalysis.nodes)
  = mergeNodesWithAnalysis MockCounter.initialNodes (Some SampleAnalysis.nodes).
Proof.
  apply (proj1 (analysis_idempotent
                  (AppData.mk [] [] MockCounter.initialNodes MockCounter.initialEdges
                     None None)
                  (DebuggerPayload.mk (Some SampleAnalysis.nodes) None None None)
                  ltac:(compute_done))).
Defined.

(** ** The lines of the final analysis *)

Lemma startsWith_split (p s : string) :
  JSString.startsWith p s = true →
  s = String.append p (JSString.substring (String.length p) s).
Proof.
  revert s. induction p as [|a p IH]; intros s; [by destruct s|].
  destruct s as [|b s]; [done|]. cbn [JSString.startsWith].
  intros [->%Ascii.eqb_eq H]%andb_true_iff.
  cbn [String.length JSString.substring].
  change (String b p +:+ ?t) with (String b (p +:+ t)). f_equal. by apply IH.
Qed.

Lemma trim_blank (line : string) :
  String.eqb (JS.trim line) "" = negb (JS.hasNonWhiteSpace line).
Proof.
  unfold JS.trim.
  pose proof (trimEnd_length (JS.trimStart line)) as H.
  rewrite hasNonWhiteSpace_trimStart in H. rewrite <- H.
  by destruct (JS.trimEnd (JS.trimStart line)).
Qed.

Lemma length_split (sep : ascii) (s : string) :
  length (JS.split sep s)
  = S (length (filter (λ c, c = sep) (list_ascii_of_string s))).
Proof.
  induction s as [|c r IH]; [done|].
  cbn [JS.split list_ascii_of_string]. rewrite filter_cons.
  destruct (Ascii.eqb_spec c sep) as [->|Hne].
  - rewrite decide_True by done. cbn [length]. by rewrite IH.
  - rewrite decide_False by done.
    destruct (JS.split sep r); cbn [length] in *; lia.
Qed.

(** X20: the lines of the final analysis.  An element gives back the line
    it was rendered from: a heading or a bullet is the text after its
    marker, a break stands for a line of whitespace only, and every other
    line is shown as it is.  Rendering the line written back from an
    element gives that element again.  A text with n line feeds is
    rendered as n + 1 elements. *)
Theorem renderLine_lossless :
  (∀ line,
     match renderLine line with
     | H1 t => line = String.append "# " t
     | H2 t => line = String.append "## " t
     | H3 t => line = String.append "### " t
     | Bullet t => line = String.append "- " t ∨ line = String.append "* " t
     | Br => JS.hasNonWhiteSpace line = false
     | Div t => t = line ∧ JS.hasNonWhiteSpace line = true
     end)
  ∧ (∀ line, renderLine (lineOf (renderLine line)) = renderLine line)
  ∧ (∀ text elements,
       renderAnalysis (Some text) = Some elements →
       length elements
       = S (length (filter (λ c, c = "010"%char) (list_ascii_of_string text)))).
Proof.
  assert (Hchar : ∀ line,
     match renderLine line with
     | H1 t => line = String.append "# " t
     | H2 t => line = String.append "## " t
     | H3 t => line = String.append "### " t
     | Bullet t => line = String.append "- " t ∨ line = String.append "* " t
     | Br => JS.hasNonWhiteSpace line = false
     | Div t => t = line ∧ JS.hasNonWhiteSpace line = true
     end).
  { intros line. unfold renderLine.
    destruct (JSString.startsWith "# " line) eqn:E1;
      [by apply startsWith_split in E1|].
    destruct (JSString.startsWith "## " line) eqn:E2;
      [by apply startsWith_split in E2|].
    destruct (JSString.startsWith "### " line) eqn:E3;
      [by apply startsWith_split in E3|].
    destruct (JSString.startsWith "- " line) eqn:E4;
      [left; by apply startsWith_split in E4|].
    destruct (JSString.startsWith "* " line) eqn:E5;
      [right; by apply startsWith_split in E5|].
    cbn [orb]. rewrite trim_blank.
    by destruct (JS.hasNonWhiteSpace line). }
  split; [exact Hchar|]. split.
  - intros line. specialize (Hchar line).
    destruct (renderLine line) as [t|t|t|t| |t] eqn:E; cbn [lineOf]; try reflexivity.
    destruct Hchar as [-> _]. exact E.
  - intros text elements. unfold renderAnalysis.
    destruct (JS.truthy text); [|done]. intros [= <-].
    by rewrite length_map, length_split.
Qed.

Lemma renderLine_lossless_witness :
  length [H1 "Summary"; Bullet "cnt increments by 2"; Div "Fix the increment."]
  = S (length (filter (λ c, c = "010"%char)
                 (list_ascii_of_string
                    (String.append "# Summary"
                       (String "010" (String.append "* cnt increments by 2"
                          (String "010" "Fix the increment."))))))).
Proof.
  apply (proj2 (proj2 renderLine_lossless)
           (String.append "# Summary"
              (String "010" (String.append "* cnt increments by 2"
                 (String "010" "Fix the increment."))))
           [H1 "Summary"; Bullet "cnt increments by 2"; Div "Fix the increment."]).
  reflexivity.
Defined.

(** ** The counters of the problems list *)

(** X21: the two counters of the problems list.  Every problem is counted
    by exactly one of the two badges: the counters add up to the number
    of rows, and both are zero only for the empty list. *)
Theorem problem_counts (problems : list Problem.t) :
  (errorCount problems + warningCount problems = length problems)%nat
  ∧ (errorCount problems = 0%nat ∧ warningCount problems = 0%nat ↔ problems = []).
Proof.
  assert (Hsum : (errorCount problems + warningCount problems = length problems)%nat).
  { unfold errorCount, warningCount.
    induction problems as [|p ps IH]; [done|].
    rewrite !filter_cons. destruct p as [i b s d []]; cbn [Problem.severity].
    - rewrite decide_True, decide_False by done. cbn [length]. lia.
    - rewrite decide_False, decide_True by done. cbn [length]. lia. }
  split; [exact Hsum|]. split.
  - intros [He Hw]. rewrite He, Hw in Hsum. by destruct problems.
  - by intros ->.
Qed.

Lemma problem_counts_witness :
  (errorCount MockScores.mockProblems + warningCount MockScores.mockProblems = 2)%nat.
Proof. apply (proj1 (problem_counts MockScores.mockProblems)). Defined.

(** ** [mergeNodesWithAnalysis] and the arrays it is given *)

Lemma setOf_elem (ids : list string) (k : string) :
  k ∈ firstOccurrences ids ↔ k ∈ ids.
Proof.
  unfold firstOccurrences.
  assert (H : ∀ s, k ∈ fold_left (λ s id, if bool_decide (id ∈ s) then s else s ++ [id])
                         ids s ↔ k ∈ s ∨ k ∈ ids).
  { induction ids as [|x l IH]; intros s; cbn [fold_left].
    - rewrite elem_of_nil. tauto.
    - rewrite IH, elem_of_cons. case_bool_decide as Hx.
      + split; [tauto|]. intros [?|[->|?]]; tauto.
      + rewrite elem_of_app, list_elem_of_singleton. tauto. }
  rewrite H, elem_of_nil. tauto.
Qed.

Section MergeRun.
Import Store.
Context (h : heap).

Lemma two_cells_lookup (a b : cell) :
  (h ++ [a; b]) !! length h = Some a ∧ (h ++ [a; b]) !! S (length h) = Some b
  ∧ length (h ++ [a; b]) = S (S (length h)).
Proof.
  split; [|split].
  - rewrite lookup_app_r by (apply Nat.le_refl). by rewrite Nat.sub_diag.
  - rewrite lookup_app_r by (apply Nat.le_succ_diag_r).
    by replace (S (length h) - length h)%nat with 1%nat by (clear; lia).
  - rewrite length_app. cbn [length]. clear; lia.
Qed.

Lemma two_cells_insert (a b a' b' : cell) :
  <[length h := a']> (h ++ [a; b]) = h ++ [a'; b]
  ∧ <[S (length h) := b']> (h ++ [a; b]) = h ++ [a; b'].
Proof.
  split.
  - rewrite insert_app_r_alt by (apply Nat.le_refl). by rewrite Nat.sub_diag.
  - rewrite insert_app_r_alt by (apply Nat.le_succ_diag_r).
    by replace (S (length h) - length h)%nat with 1%nat by (clear; lia).
Qed.

Lemma appendNode_run (ids : list string) (acc : list Node.t) (S0 : gset string)
    (node : Node.t) :
  (∀ k, k ∈ ids ↔ k ∈ S0) →
  ∃ ids',
    StoreApp.appendNode (S (length h)) (length h) node (h ++ [CStrings ids; CNodes acc])
    = Some ((), h ++ [CStrings ids'; CNodes (appendStep (acc, S0) node).1])
    ∧ ∀ k, k ∈ ids' ↔ k ∈ (appendStep (acc, S0) node).2.
Proof.
  intros Hids. unfold StoreApp.appendNode.
  destruct (two_cells_lookup (CStrings ids) (CNodes acc)) as (Hl0 & Hl1 & Hlen).
  rewrite (bind_run _ _ _ _ _ (loadStrings_run _ _ _ Hl0)).
  cbn [appendStep]. case_bool_decide as Hin.
  - exists ids. rewrite decide_True by (by apply Hids). by split.
  - rewrite decide_False by (by rewrite <- Hids).
    exists (ids ++ [Node.id node]).
    rewrite (bind_run _ _ _ _ _ (loadNodes_run _ _ _ Hl1)).
    assert (Hlt : (S (length h) < length (h ++ [CStrings ids; CNodes acc]))%nat) by lia.
    rewrite (bind_run _ _ _ _ _ (store_run _ (CNodes (acc ++ [node])) _ Hlt)).
    rewrite (proj2 (two_cells_insert _ _ (CStrings ids) (CNodes (acc ++ [node])))).
    destruct (two_cells_lookup (CStrings ids) (CNodes (acc ++ [node])))
      as (Hl0' & _ & Hlen').
    rewrite (bind_run _ _ _ _ _ (loadStrings_run _ _ _ Hl0')).
    rewrite store_run by lia.
    rewrite (proj1 (two_cells_insert _ _ (CStrings (ids ++ [Node.id node])) (CNodes acc))).
    split; [done|]. intros k. cbn [snd].
    rewrite elem_of_app, list_elem_of_singleton, elem_of_union, elem_of_singleton, Hids.
    tauto.
Qed.

Lemma forEach_appendNode (us : list Node.t) (ids : list string) (acc : list Node.t)
    (S0 : gset string) :
  (∀ k, k ∈ ids ↔ k ∈ S0) →
  ∃ ids',
    forEach (StoreApp.appendNode (S (length h)) (length h)) us
            (h ++ [CStrings ids; CNodes acc])
    = Some ((), h ++ [CStrings ids'; CNodes (fold_left appendStep us (acc, S0)).1]).
Proof.
  revert ids acc S0. induction us as [|u us IH]; intros ids acc S0 Hids.
  - by exists ids.
  - destruct (appendNode_run ids acc S0 u Hids) as (ids1 & Hrun & Hids1).
    cbn [forEach fold_left]. rewrite (bind_run _ _ _ _ _ Hrun).
    destruct (appendStep (acc, S0) u) as [acc1 S1] eqn:E. cbn [fst snd] in *.
    destruct (IH ids1 acc1 S1 Hids1) as (ids' & Hrun').
    by exists ids'.
Qed.

End MergeRun.

Lemma merge_run (h : Store.heap) (current updates : nat) (cs us : list Node.t) :
  h !! current = Some (Store.CNodes cs) →
  h !! updates = Some (Store.CNodes us) →
  us ≠ [] →
  ∃ ids,
    StoreApp.mergeNodesWithAnalysis current (Some updates) h
    = Some (S (length h),
            h ++ [Store.CStrings ids;
                  Store.CNodes (mergeNodesWithAnalysis cs (Some us))]).
Proof.
  intros Hc Hu Hne. unfold StoreApp.mergeNodesWithAnalysis.
  rewrite (bind_run _ _ _ _ _ (loadNodes_run _ _ _ Hu)).
  destruct us as [|u0 us'] eqn:Eus; [done|]. rewrite <- Eus in *.
  replace (length us =? 0)%nat with false by (by rewrite Eus).
  rewrite (bind_run _ _ _ _ _ (loadNodes_run _ _ _ Hc)).
  rewrite (bind_run _ _ _ _ _ (alloc_run _ _)).
  assert (Hc' : (h ++ [Store.CStrings (firstOccurrences (map Node.id cs))]) !! current
                = Some (Store.CNodes cs)).
  { rewrite lookup_app_l; [done|]. by apply lookup_lt_Some in Hc. }
  rewrite (bind_run _ _ _ _ _ (loadNodes_run _ _ _ Hc')).
  rewrite (bind_run _ _ _ _ _ (alloc_run _ _)).
  rewrite <- app_assoc. cbn [app].
  assert (Hu' : (h ++ [Store.CStrings (firstOccurrences (map Node.id cs));
                       Store.CNodes (map (mergedNode us) cs)]) !! updates
                = Some (Store.CNodes us)).
  { rewrite lookup_app_l; [done|]. by apply lookup_lt_Some in Hu. }
  rewrite (bind_run _ _ _ _ _ (loadNodes_run _ _ _ Hu')).
  rewrite length_app. cbn [length]. rewrite Nat.add_1_r.
  destruct (forEach_appendNode h us (firstOccurrences (map Node.id cs))
              (map (mergedNode us) cs) (list_to_set (map Node.id cs)))
    as (ids' & Hrun).
  { intros k. rewrite setOf_elem. symmetry. apply elem_of_list_to_set. }
  rewrite (bind_run _ _ _ _ _ Hrun).
  exists ids'. cbn. rewrite Eus. reflexivity.
Qed.

(** X22: [mergeNodesWithAnalysis] and the arrays it is given.  Without
    updates, or with an empty array of updates, the function returns the
    very array it was given as [current] and the store is left as it is.
    Otherwise it returns a new array, which holds the merged nodes, and
    adds objects to the store without writing to any that was there: the
    arrays [current] and [updates] are not changed, also when they are
    one and the same array. *)
Theorem mergeNodesWithAnalysis_store :
  (∀ (h : Store.heap) (current : nat),
      StoreApp.mergeNodesWithAnalysis current None h = Some (current, h))
  ∧ (∀ (h : Store.heap) (current updates : nat),
        h !! updates = Some (Store.CNodes []) →
        StoreApp.mergeNodesWithAnalysis current (Some updates) h = Some (current, h))
  ∧ (∀ (h : Store.heap) (current updates : nat) (cs us : list Node.t),
        h !! current = Some (Store.CNodes cs) →
        h !! updates = Some (Store.CNodes us) →
        us ≠ [] →
        ∃ out h',
          StoreApp.mergeNodesWithAnalysis current (Some updates) h = Some (out, h ++ h')
          ∧ (length h ≤ out)%nat
          ∧ (h ++ h') !! out
            = Some (Store.CNodes (mergeNodesWithAnalysis cs (Some us)))).
Proof.
  split; [done|]. split.
  - intros h current updates Hu. unfold StoreApp.mergeNodesWithAnalysis.
    by rewrite (bind_run _ _ _ _ _ (loadNodes_run _ _ _ Hu)).
  - intros h current updates cs us Hc Hu Hne.
    destruct (merge_run h current updates cs us Hc Hu Hne) as (ids & Hrun).
    eexists _, _. split; [exact Hrun|]. split; [lia|].
    apply two_cells_lookup.
Qed.

Lemma mergeNodesWithAnalysis_store_witness :
  ∃ out h',
    StoreApp.mergeNodesWithAnalysis 0 (Some 1%nat)
      [Store.CNodes MockCounter.initialNodes; Store.CNodes SampleAnalysis.nodes]
    = Some (out, [Store.CNodes MockCounter.initialNodes;
                  Store.CNodes SampleAnalysis.nodes] ++ h')
    ∧ (2 ≤ out)%nat
    ∧ ([Store.CNodes MockCounter.initialNodes; Store.CNodes SampleAnalysis.nodes] ++ h')
        !! out
      = Some (Store.CNodes
                (mergeNodesWithAnalysis MockCounter.initialNodes
                                        (Some SampleAnalysis.nodes))).
Proof.
  apply (proj2 (proj2 mergeNodesWithAnalysis_store)
           [Store.CNodes MockCounter.initialNodes; Store.CNodes SampleAnalysis.nodes]
           0%nat 1%nat MockCounter.initialNodes SampleAnalysis.nodes);
    [reflexivity | reflexivity | discriminate].
Defined.

(** ** The order of the sources *)

Lemma groupStep_keys (m : list (string * list Node.t)) (node : Node.t) :
  (groupStep m node).*1
  = match fileOf node with
    | Some f => if bool_decide (f ∈ m.*1) then m.*1 else m.*1 ++ [f]
    | None => m.*1
    end.
Proof.
  destruct (fileOf node) as [f|] eqn:E.
  - rewrite (groupStep_file m node f E). case_bool_decide as Hin.
    + apply keys_set_old. intros Hn. by apply get_None_keys in Hn.
    + apply keys_set_new. by apply get_None_keys.
  - by rewrite groupStep_no_file.
Qed.

Lemma groupStep_fold_keys (nodes : list Node.t) (m : list (string * list Node.t)) :
  (fold_left groupStep nodes m).*1
  = fold_left (λ s x, if bool_decide (x ∈ s) then s else s ++ [x])
              (omap fileOf nodes) m.*1.
Proof.
  revert m. induction nodes as [|node nodes IH]; intros m; [done|].
  cbn [fold_left]. rewrite IH, groupStep_keys. csimpl.
  by destruct (fileOf node).
Qed.

Lemma groupByFile_keys (nodes : list Node.t) :
  (groupByFile nodes).*1 = firstOccurrences (omap fileOf nodes).
Proof. apply groupStep_fold_keys. Qed.

Lemma sourceOf_paths (nodes : list Node.t) (m : list (string * list Node.t)) :
  Forall (λ entry, entry.2 = nodesOfFile entry.1 nodes) m →
  Source.file_path <$> omap sourceOf m
  = filter (λ f, Exists (λ node, fileOf node = Some f ∧ hasContent node) nodes) m.*1.
Proof.
  induction m as [|[f ns] m IH]; [done|].
  intros [Hns Hm]%Forall_cons. cbn [fst snd] in Hns. csimpl.
  rewrite filter_cons, sourceOf_contentOf, <- (IH Hm).
  assert (Hiff : contentOf ns ≠ []
                 ↔ Exists (λ node, fileOf node = Some f ∧ hasContent node) nodes).
  { rewrite Exists_exists. split.
    - intros Hne. destruct (contentOf ns) as [|node l] eqn:E; [done|].
      assert (Hin : node ∈ contentOf ns) by (rewrite E; left).
      rewrite contentOf_perm in Hin.
      apply list_elem_of_filter in Hin as [Hc Hin].
      rewrite Hns in Hin. apply list_elem_of_filter in Hin as [Hf Hin].
      by exists node.
    - intros (node & Hin & Hf & Hc) He.
      assert (Hin' : node ∈ contentOf ns).
      { rewrite contentOf_perm. apply list_elem_of_filter. split; [done|].
        rewrite Hns. by apply list_elem_of_filter. }
      rewrite He in Hin'. by apply elem_of_nil in Hin'. }
  destruct (contentOf ns) as [|node l] eqn:E.
  - rewrite decide_False; [done|]. intros Hex. by apply Hiff in Hex.
  - rewrite decide_True; [done|]. by apply Hiff.
Qed.

(** X23: the order of the sources.  The file paths of the sources are
    the files of the nodes in the order in which each file first occurs
    among the nodes, without the files none of whose nodes has a snippet
    that is not blank. *)
Theorem extractSourcesFromNodes_order (nodes : list Node.t) :
  Source.file_path <$> extractSourcesFromNodes nodes
  = filter (λ f, Exists (λ node, fileOf node = Some f ∧ hasContent node) nodes)
           (firstOccurrences (omap fileOf nodes)).
Proof.
  rewrite extractSourcesFromNodes_omap, <- groupByFile_keys.
  apply sourceOf_paths. apply Forall_forall. intros [f ns] Hin.
  by apply groupByFile_entry in Hin as [-> _].
Qed.
